(** * Artifact retrieval pipeline of the Marathon CLI (package [allure])

    A shallow embedding of [allure/rawAllure.go]: root discovery
    ([getFolder]), the tree walker ([getFoldersRecursively]), the file
    materializer ([downloadFile]), layout reconciliation
    ([relocateContents]), reference repair ([updateJsonPaths]) and the
    orchestration of [GetArtifacts] with its goroutines, semaphore channel
    and wait group.

    Sequential code is written in a small state-and-panic monad over a
    [World] (file system, trace of observable events, request counter).
    The goroutines of [GetArtifacts] are a step relation. *)

From Stdlib Require Import Ascii String.
From stdpp Require Import gmap strings list fin_maps sorting.

Local Open Scope string_scope.
Local Open Scope list_scope.
Local Open Scope nat_scope.
Set Warnings "-register-all".

(** ** Data model *)

(** [type ArtifactTree struct { ID string; IsFile bool; Name string }] *)
Record ArtifactTree := mkArtifactTree {
  ID : string;
  IsFile : bool;
  Name : string
}.

(** [var maxConcurrentDownloads = 5] *)
Definition maxConcurrentDownloads : nat := 5.

(** ** Go's [strings] package, as far as the program uses it *)

Module strings.

(** [strings.Split(s, sep)] for a one-byte separator: the pieces between
    the separators, so [n] separators give [n+1] pieces and the empty
    string gives one empty piece. *)
Fixpoint Split (s : string) (sep : ascii) : list string :=
  match s with
  | EmptyString => [""]
  | String a s' =>
      if Ascii.eqb a sep then "" :: Split s' sep
      else match Split s' sep with
           | h :: t => String a h :: t
           | [] => [String a ""]
           end
  end.

(** [strings.Join(elems, sep)] *)
Fixpoint Join (elems : list string) (sep : string) : string :=
  match elems with
  | [] => ""
  | [e] => e
  | e :: rest => e +:+ sep +:+ Join rest sep
  end.

(** [strings.ReplaceAll(s, old, new)] for a one-byte [old]. *)
Fixpoint ReplaceAll (s : string) (old : ascii) (new : string) : string :=
  match s with
  | EmptyString => ""
  | String a s' =>
      if Ascii.eqb a old then new +:+ ReplaceAll s' old new
      else String a (ReplaceAll s' old new)
  end.

End strings.

Definition slash : ascii := "/"%char.

(** ** Go's [path] and [path/filepath] (Unix) *)

Module path.

(** One element of the lexical clean-up of [path.Clean]; [out] holds the
    elements kept so far, last one first. *)
Definition clean_step (rooted : bool) (out : list string) (elem : string)
  : list string :=
  if String.eqb elem "" then out
  else if String.eqb elem "." then out
  else if String.eqb elem ".." then
    match out with
    | top :: rest => if String.eqb top ".." then ".." :: out else rest
    | [] => if rooted then [] else [".."]
    end
  else elem :: out.

Definition is_rooted (p : string) : bool :=
  match p with
  | String a _ => Ascii.eqb a slash
  | EmptyString => false
  end.

(** The elements of the cleaned path, first one first. *)
Definition clean_elems (p : string) : list string :=
  rev (fold_left (clean_step (is_rooted p)) (strings.Split p slash) []).

(** [path.Clean]: no empty, [.] or inner [..] element is left; the empty
    path is [.]. *)
Definition Clean (p : string) : string :=
  let body := strings.Join (clean_elems p) "/" in
  if is_rooted p then "/" +:+ body
  else if String.eqb body "" then "." else body.

(** [path.Join(elem...)]: empty elements are ignored, the rest is joined
    with slashes and cleaned; no element at all gives the empty string. *)
Definition Join (elem : list string) : string :=
  match filter (λ e, e ≠ "") elem with
  | [] => ""
  | es => Clean (strings.Join es "/")
  end.

(** Dropping the slashes a string ends with. *)
Fixpoint strip_trailing (p : string) : string :=
  match p with
  | EmptyString => ""
  | String a p' =>
      let r := strip_trailing p' in
      if Ascii.eqb a slash && String.eqb r "" then "" else String a r
  end.

(** [filepath.Base]: the last element; [.] for the empty path and [/] for
    a path of slashes only. *)
Definition Base (p : string) : string :=
  if String.eqb p "" then "."
  else
    let q := strip_trailing p in
    if String.eqb q "" then "/"
    else List.last (strings.Split q slash) "".

(** The suffix of [s] from its last dot on, if it has a dot. *)
Fixpoint from_last_dot (s : string) : option string :=
  match s with
  | EmptyString => None
  | String a s' =>
      match from_last_dot s' with
      | Some e => Some e
      | None => if Ascii.eqb a "."%char then Some s else None
      end
  end.

(** [filepath.Ext]: the suffix from the last dot of the last element. *)
Definition Ext (p : string) : string :=
  default "" (from_last_dot (List.last (strings.Split p slash) "")).

(** The common leading elements of two paths taken away. *)
Fixpoint drop_common (b t : list string) : list string * list string :=
  match b, t with
  | x :: b', y :: t' =>
      if String.eqb x y then drop_common b' t' else (b, t)
  | _, _ => (b, t)
  end.

(** The elements [filepath.Rel] compares: a rooted path starts with an
    empty element; the base [.] has no element. *)
Definition rel_elems (is_base : bool) (p : string) : list string :=
  let es := clean_elems p in
  if is_rooted p then "" :: es
  else match es with
       | [] => if is_base then [] else ["."]
       | _ => es
       end.

(** [filepath.Rel(basepath, targpath)]: both are cleaned, the common
    leading elements go, every element left of the base becomes [..].
    An error ([None]) when only one of them is rooted, or when the first
    element of the base that differs is [..]. *)
Definition Rel (basepath targpath : string) : option string :=
  let base := Clean basepath in
  let targ := Clean targpath in
  if String.eqb targ base then Some "."
  else if negb (Bool.eqb (is_rooted base) (is_rooted targ)) then None
  else
    let '(b, t) := drop_common (rel_elems true base) (rel_elems false targ) in
    match b, t with
    | x :: _, _ :: _ =>
        if String.eqb x ".." then None
        else Some (strings.Join (map (λ _, "..") b ++ t) "/")
    | _, _ => Some (strings.Join (map (λ _, "..") b ++ t) "/")
    end.

End path.


(** ** The command: [main.go]

    [main] reads its configuration, creates a run, waits for its end,
    fetches the artifacts and exits. The packages [config] and [request]
    are its collaborators: what their functions return is given, and
    what [main] does with it is followed. *)

Definition newline : string := String (Ascii.ascii_of_nat 10) EmptyString.

(** What the functions of [config] and [request] return. A Go pair
    [(value, err)] is a pair of the value and the error, if any. *)
Record Collaborators := mkCollaborators {
  (* config.ReadFlags() *)
  ReadFlags : option string;
  (* config.GetConfig().GetString(key) *)
  GetString : string → string;
  (* time.Now().Format(time.Stamp) *)
  Now : string;
  (* request.Authorize(host, login, password) *)
  Authorize : string → string → string → string * option string;
  (* request.SendNewRun(host, token, app, testApp, commitName, commitLink,
     platform) *)
  SendNewRun : string → string → string → string → string → string → string →
               string * option string;
  (* request.WaitRunForEnd(host, runId, token) *)
  WaitRunForEnd : string → string → string → string * option string;
  (* request.RequestJwtToken(host, apiKey) *)
  RequestJwtToken : string → string → string * option string;
  (* request.SendNewRunWithKey(host, apiKey, app, testApp, commitName,
     commitLink, platform, osVersion, systemImage, isolated) *)
  SendNewRunWithKey : string → string → string → string → string → string →
                      string → string → string → string →
                      string * option string;
  (* request.WaitRunForEndWithApiKey(host, runId, apiKey) *)
  WaitRunForEndWithApiKey : string → string → string → string * option string
}.

(** What [main] does that can be seen: a line printed, given by the
    operands of [fmt.Println]; the goroutine [go request.Subscribe(token,
    runId)]; the call [allure.GetArtifacts(host, token, runId,
    allureOutput)], with the four operands [main.go] gives it. *)
Inductive main_event :=
  | MPrintln (operands : list string)
  | MSubscribe (token runId : string)
  | MGetArtifacts (host token runId allureOutput : string).

(** How [main] ends: it returns, or it calls [os.Exit]. *)
Inductive ending :=
  | Returned
  | Exited (code : nat).

(** Lines 48-58 and 71-81: from the end of the wait on. *)
Definition after_wait (host token runId allureOutput : string)
    (waited : string * option string) : list main_event * ending :=
  let '(state, err) := waited in
  let fetched :=
    if String.eqb allureOutput "" then []
    else [MGetArtifacts host token runId allureOutput] in
  match err with
  | Some e => (fetched ++ [MPrintln [e]], Exited 4)
  | None =>
      if String.eqb state "passed" then (fetched, Returned)
      else (fetched, Exited 3)
  end.

Definition main (c : Collaborators) : list main_event * ending :=
  match ReadFlags c with
  | Some e => ([MPrintln ["Error reading flags:" +:+ newline; e]], Exited 7)
  | None =>
      let host := GetString c "HOST" in
      let login := GetString c "LOGIN" in
      let password := GetString c "PASSWORD" in
      let apiKey := GetString c "API_KEY" in
      let app := GetString c "APP" in
      let testApp := GetString c "TEST_APP" in
      let commitName := GetString c "NAME" in
      let commitLink := GetString c "LINK" in
      let allureOutput := GetString c "ALLURE_OUTPUT" in
      let platform := GetString c "PLATFORM" in
      let osVersion := GetString c "OS_VERSION" in
      let isolated := GetString c "ISOLATED" in
      let systemImage := GetString c "SYSTEM_IMAGE" in
      if String.eqb apiKey "" then
        let '(token, err) := Authorize c host login password in
        match err with
        | Some e => ([MPrintln ["Can't login: "; e]], Exited 6)
        | None =>
            let created := [MPrintln [Now c; "Creating new run"]] in
            let '(runId, err) :=
              SendNewRun c host token app testApp commitName commitLink platform in
            match err with
            | Some e => (created ++ [MPrintln [e]], Exited 5)
            | None =>
                let '(evs, e) :=
                  after_wait host token runId allureOutput
                    (WaitRunForEnd c host runId token) in
                (created ++ MSubscribe token runId :: evs, e)
            end
        end
      else
        let '(jwtToken, err) := RequestJwtToken c host apiKey in
        match err with
        | Some e => ([MPrintln [e]], Returned)
        | None =>
            let '(runId, err) :=
              SendNewRunWithKey c host apiKey app testApp commitName commitLink
                platform osVersion systemImage isolated in
            match err with
            | Some e => ([MPrintln [e]], Exited 5)
            | None =>
                let '(evs, e) :=
                  after_wait host jwtToken runId allureOutput
                    (WaitRunForEndWithApiKey c host runId apiKey) in
                (MSubscribe jwtToken runId :: evs, e)
            end
        end
  end.
(** ** The world the program runs in *)

(** What the program does that can be seen from outside, in order.
    [EvGo id] is the pair [wg.Add(1); go func(id string) {...}(id)] that
    starts the download goroutine of one file. *)
Inductive event :=
  | EvSleep (seconds : nat)
  | EvGet (url token : string)
  | EvPrint (msg : string)
  | EvGo (id : string)
  | EvStat (p : string)
  | EvMkdirAll (p : string)
  | EvCreate (p : string)
  | EvWrite (p : string)
  | EvCopy (src dest : string)
  | EvRemoveAll (p : string)
  | EvWalk (root : string)
  | EvReadDir (p : string)
  | EvReadFile (p : string)
  | EvWriteFile (p : string).

(** Does the event touch the file system? *)
Definition is_fs_event (e : event) : bool :=
  match e with
  | EvSleep _ | EvGet _ _ | EvPrint _ | EvGo _ => false
  | _ => true
  end.

(** The file a download goroutine was started for, if the event is one. *)
Definition go_id (e : event) : option string :=
  match e with
  | EvGo id => Some id
  | _ => None
  end.

(** Loosely typed JSON documents, as [json.Unmarshal] yields them in an
    [interface{}]; an object keeps its members in a list, and a number its
    literal. *)
Inductive json :=
  | JNull
  | JBool (b : bool)
  | JNum (literal : string)
  | JStr (s : string)
  | JArr (elems : list json)
  | JObj (members : list (string * json)).

(** [m[key]] on an object. *)
Fixpoint obj_get (key : string) (o : list (string * json)) : option json :=
  match o with
  | [] => None
  | (k, v) :: o' => if String.eqb k key then Some v else obj_get key o'
  end.

(** [m[key] = v] on an object. *)
Fixpoint obj_set (key : string) (v : json) (o : list (string * json))
  : list (string * json) :=
  match o with
  | [] => [(key, v)]
  | (k, v') :: o' =>
      if String.eqb k key then (k, v) :: o' else (k, v') :: obj_set key v o'
  end.

(** The order in which [filepath.Walk] and [ioutil.ReadDir] visit names:
    byte-wise on each name, element by element. *)
Definition name_le (a b : string) : Prop := String.leb a b = true.

Fixpoint key_leb (a b : list string) : bool :=
  match a, b with
  | [], _ => true
  | _ :: _, [] => false
  | x :: a', y :: b' =>
      match String.compare x y with
      | Lt => true
      | Gt => false
      | Eq => key_leb a' b'
      end
  end.

Definition key_le (a b : list string) : Prop := key_leb a b = true.

#[global] Instance name_le_dec a b : Decision (name_le a b).
Proof. unfold name_le. apply _. Defined.
#[global] Instance key_le_dec a b : Decision (key_le a b).
Proof. unfold key_le. apply _. Defined.

(** What a sequential piece of the program ends in. *)
Inductive outcome (A : Type) :=
  | Ret (a : A)
  | Panicked (msg : string)
  | OutOfFuel.
Arguments Ret {A} a.
Arguments Panicked {A} msg.
Arguments OutOfFuel {A}.

Section Pipeline.

(** The bytes of a file or of a response body. *)
Context {byte : Type}.

(** A node of the local file system. Its key in the file system is the
    list of the elements of its absolute path; the root directory, of key
    [[]], is always there. *)
Inductive node :=
  | NFile (content : list byte)
  | NDir.

(** An [io.ReadCloser] over a response body: the bytes that come out of
    it, and whether reading them ends in an error. *)
Record ReadCloser := mkBody {
  body_data : list byte;
  body_err : bool
}.

(** [*http.Response], of which the program only uses [Body]. *)
Record Response := mkResponse {
  Body : option ReadCloser
}.

Record World := mkWorld {
  fs : gmap (list string) node;
  trace : list event;
  clock : nat
}.

(** The working directory of the process. *)
Context (cwd : list string).
(** [json.Unmarshal(bodyBytes, &folders)]: the value left in [folders]
    and whether an error is returned. *)
Context (unmarshal_listing : list byte → list ArtifactTree * bool).
(** [json.Unmarshal(data, &jsonData)] into [map[string]interface{}]:
    the members of the object, or an error. *)
Context (unmarshal_doc : list byte → option (list (string * json))).
(** [json.MarshalIndent(jsonData, "", "  ")] *)
Context (marshal_indent : list (string * json) → list byte).
(** [request.SendGetRequest(url, token)]: the answer to the [n]-th
    request of the run; [None] is a nil response. *)
Context (transport : nat → string → string → option Response).

(** *** A monad for state and panics *)

Definition M (A : Type) : Type := World → outcome A * World.

#[local] Instance M_ret : MRet M := λ A a w, (Ret a, w).
#[local] Instance M_bind : MBind M := λ A B k m w,
  match m w with
  | (Ret a, w') => k a w'
  | (Panicked msg, w') => (Panicked msg, w')
  | (OutOfFuel, w') => (OutOfFuel, w')
  end.
Definition panic {A} (msg : string) : M A := λ w, (Panicked msg, w).
Definition out_of_fuel {A} : M A := λ w, (OutOfFuel, w).

(** [for _, x := range l { body(x) }] *)
Fixpoint for_each {A} (l : list A) (body : A → M unit) : M unit :=
  match l with
  | [] => mret tt
  | x :: l' => body x ;; for_each l' body
  end.

Definition emit (e : event) : M unit :=
  λ w, (Ret tt, mkWorld (fs w) (trace w ++ [e]) (clock w)).

(** [fmt.Println] *)
Definition Println (msg : string) : M unit := emit (EvPrint msg).

(** [time.Sleep(n * time.Second)] *)
Definition Sleep (n : nat) : M unit := emit (EvSleep n).

(** [wg.Add(1); go func(id string) {...}(id)] *)
Definition Go (id : string) : M unit := emit (EvGo id).

(** [request.SendGetRequest] *)
Definition SendGetRequest (url token : string) : M (option Response) :=
  λ w, (Ret (transport (clock w) url token),
        mkWorld (fs w) (trace w ++ [EvGet url token]) (S (clock w))).

(** *** The file system *)

(** The key of a path: the path is cleaned, and a path that is not
    rooted is taken from the working directory. *)
Definition key_of (p : string) : list string :=
  rev (fold_left (path.clean_step true) (path.clean_elems p)
         (if path.is_rooted p then [] else rev cwd)).

Definition lookup_node (f : gmap (list string) node) (k : list string)
  : option node :=
  match k with
  | [] => Some NDir
  | _ => f !! k
  end.

(** [os.MkdirAll] on the elements [rest] below the directory [pre]:
    every missing directory on the way is made; a file on the way is an
    error, and what was made before it stays. *)
Fixpoint mkdir_all (f : gmap (list string) node) (pre rest : list string)
  : gmap (list string) node * bool :=
  match rest with
  | [] => (f, true)
  | x :: rest' =>
      let k := pre ++ [x] in
      match f !! k with
      | Some (NFile _) => (f, false)
      | Some NDir => mkdir_all f k rest'
      | None => mkdir_all (<[k := NDir]> f) k rest'
      end
  end.

(** The path of the node of key [k] relative to [src], when the node is
    strictly below [src]. *)
Definition below (src k : list string) : option (list string) :=
  if decide (src `prefix_of` k) then
    match drop (length src) k with
    | [] => None
    | rel => Some rel
    end
  else None.

(** The relative paths of the nodes below [src], in the order of a walk. *)
Definition keys_below (f : gmap (list string) node) (src : list string)
  : list (list string) :=
  merge_sort key_le (omap (below src) (map_to_list f).*1).

(** The nodes below [src], each with its path relative to [src], in the
    order of a walk. *)
Definition subtree (f : gmap (list string) node) (src : list string)
  : list (list string * node) :=
  omap (λ rel, pair rel <$> f !! (src ++ rel)) (keys_below f src).

(** The names in the directory [dir], sorted. *)
Definition child_name (dir k : list string) : option string :=
  match below dir k with
  | Some [name] => Some name
  | _ => None
  end.

Definition dir_names (f : gmap (list string) node) (dir : list string)
  : list string :=
  merge_sort name_le (omap (child_name dir) (map_to_list f).*1).

(** What [ioutil.ReadDir] returns for the directory [dir]: its entries,
    sorted by name, each with what it is at that moment. *)
Definition read_dir (f : gmap (list string) node) (dir : list string)
  : list (string * node) :=
  omap (λ name, pair name <$> f !! (dir ++ [name])) (dir_names f dir).

(** The copy of one regular file, [fcopy] of github.com/otiai10/copy:
    the directory of the destination is made, the destination is created
    or truncated (a directory in its place is an error), and the bytes
    the source holds then are written to it. *)
Definition fcopy (f : gmap (list string) node) (src dest : list string)
  : gmap (list string) node * bool :=
  let '(f1, ok) := mkdir_all f [] (removelast dest) in
  if ok then
    match lookup_node f1 dest with
    | Some NDir => (f1, false)
    | _ =>
        let f2 := <[dest := NFile []]> f1 in
        match f2 !! src with
        | Some (NFile c) => (<[dest := NFile c]> f2, true)
        | _ => (f2, false)
        end
    end
  else (f1, false).

(** One round of the loop of [dcopy] over the entries of the directory
    [src]: the entry is copied to its name in [dest], unless an earlier
    one has failed. *)
Definition copy_step
    (copy : gmap (list string) node → list string → list string → node →
            gmap (list string) node * bool)
    (src dest : list string) (st : gmap (list string) node * bool)
    (e : string * node) : gmap (list string) node * bool :=
  if st.2 then copy st.1 (src ++ [e.1]) (dest ++ [e.1]) e.2 else st.

(** The copy of one entry, [switchboard] and [dcopy] of
    github.com/otiai10/copy. For a directory the destination directory
    is made first, then the source directory is listed, and the entries
    are copied one after the other in the order of the listing, each
    according to what the listing says it is; the first error ends the
    copy. Every directory is listed, and every file read, when its turn
    comes: what the copy has written by then into the source is part of
    what is copied. [fuel] bounds the depth of the directories. *)
Fixpoint copy_node (fuel : nat) (f : gmap (list string) node)
    (src dest : list string) (info : node) {struct fuel}
  : gmap (list string) node * bool :=
  match info with
  | NFile _ => fcopy f src dest
  | NDir =>
      match fuel with
      | 0 => (f, false)
      | S fuel' =>
          let '(f0, ok) := mkdir_all f [] dest in
          if ok then
            fold_left (copy_step (copy_node fuel') src dest)
                      (read_dir f0 src) (f0, true)
          else (f0, false)
      end
  end.

(** The length of the longest path of the file system. *)
Definition height (f : gmap (list string) node) : nat :=
  max_list (length <$> (map_to_list f).*1).

(** Why a path leads to no node: nothing is there, or a regular file is
    on the way. *)
Inductive errno :=
  | ENOENT
  | ENOTDIR.

(** The node the elements [rest] lead to from the directory [pre], as
    the operating system resolves a path. *)
Fixpoint stat_walk (f : gmap (list string) node) (pre rest : list string)
  : node + errno :=
  match rest with
  | [] => match lookup_node f pre with
          | Some n => inl n
          | None => inr ENOENT
          end
  | x :: rest' =>
      match f !! (pre ++ [x]) with
      | None => inr ENOENT
      | Some n =>
          match rest' with
          | [] => inl n
          | _ :: _ =>
              match n with
              | NDir => stat_walk f (pre ++ [x]) rest'
              | NFile _ => inr ENOTDIR
              end
          end
      end
  end.

(** [copy.Copy(src, dest)] of github.com/otiai10/copy: a recursive copy
    that overwrites the files already at the destination and stops at
    the first error; a source that [os.Lstat] does not find is an error.
    The depth allowed is the length of the longest path plus one: a copy
    to a destination no deeper than the source never needs more. A
    destination inside the source is copied into itself, deeper and
    deeper: the copy of the library ends with an error when a path gets
    too long for the operating system, this one when the depth is used
    up. *)
Definition copy_tree (f : gmap (list string) node) (src dest : list string)
  : gmap (list string) node * bool :=
  match stat_walk f [] src with
  | inl info => copy_node (S (height f)) f src dest info
  | inr _ => (f, false)
  end.

(** [os.RemoveAll]: the node and everything below it go. *)
Definition remove_all (f : gmap (list string) node) (k : list string)
  : gmap (list string) node :=
  filter (λ e, ¬ k `prefix_of` e.1) f.

(** The file system calls, in the monad. An error is [Some] message. *)

(** [os.Stat]: the node, or the error. *)
Definition Stat (p : string) : M (node + errno) :=
  λ w, (Ret (stat_walk (fs w) [] (key_of p)),
        mkWorld (fs w) (trace w ++ [EvStat p]) (clock w)).

Definition MkdirAll (p : string) : M (option string) :=
  λ w, let '(f, ok) := mkdir_all (fs w) [] (key_of p) in
       (Ret (if ok then None else Some ("mkdir " +:+ p +:+ ": not a directory")),
        mkWorld f (trace w ++ [EvMkdirAll p]) (clock w)).

(** [os.Create]: the directory of the file must be there, and the place
    must not be a directory; the file is created or truncated. *)
Definition Create (p : string) : M (option string) :=
  λ w, let k := key_of p in
       let w' := mkWorld (fs w) (trace w ++ [EvCreate p]) (clock w) in
       match k, lookup_node (fs w) (removelast k), fs w !! k with
       | [], _, _ => (Ret (Some ("open " +:+ p +:+ ": is a directory")), w')
       | _, Some NDir, Some NDir =>
           (Ret (Some ("open " +:+ p +:+ ": is a directory")), w')
       | _, Some NDir, _ =>
           (Ret None,
            mkWorld (<[k := NFile []]> (fs w)) (trace w ++ [EvCreate p]) (clock w))
       | _, _, _ => (Ret (Some ("open " +:+ p +:+ ": no such file or directory")), w')
       end.

(** [io.Copy(out, resp.Body)] into the file just created at [p]. *)
Definition Copy (p : string) (body : ReadCloser) : M (option string) :=
  λ w, (Ret (if body_err body then Some "unexpected EOF" else None),
        mkWorld (<[key_of p := NFile (body_data body)]> (fs w))
                (trace w ++ [EvWrite p]) (clock w)).

Definition CopyTree (src dest : string) : M (option string) :=
  λ w, let '(f, ok) := copy_tree (fs w) (key_of src) (key_of dest) in
       (Ret (if ok then None else Some ("copy " +:+ src +:+ " failed")),
        mkWorld f (trace w ++ [EvCopy src dest]) (clock w)).

(** [os.RemoveAll] refuses a path that ends in a dot element. *)
Definition RemoveAll (p : string) : M (option string) :=
  λ w, let w' := mkWorld (fs w) (trace w ++ [EvRemoveAll p]) (clock w) in
       if String.eqb (List.last (strings.Split p slash) "") "." then
         (Ret (Some ("RemoveAll " +:+ p +:+ ": invalid argument")), w')
       else
         (Ret None,
          mkWorld (remove_all (fs w) (key_of p)) (trace w ++ [EvRemoveAll p])
                  (clock w)).

(** The path [filepath.Walk] hands to its callback for the node at [rel]
    below [root]: [filepath.Join(path, name)] at every level. *)
Definition walk_path (root : string) (rel : list string) : string :=
  fold_left (λ p name, path.Join [p; name]) rel root.

(** [filepath.Walk(root, fn)] for a callback that only looks at
    [info.IsDir()]: the paths visited and whether each is a directory,
    or an error when [root] is not there. *)
Definition Walk (root : string) : M (option (list (string * bool))) :=
  λ w, let is_dir n := match n with NDir => true | NFile _ => false end in
       (Ret (match lookup_node (fs w) (key_of root) with
             | None => None
             | Some n =>
                 Some ((root, is_dir n)
                       :: map (λ e, (walk_path root e.1, is_dir e.2))
                              (subtree (fs w) (key_of root)))
             end),
        mkWorld (fs w) (trace w ++ [EvWalk root]) (clock w)).

(** [ioutil.ReadDir]: the names in a directory, sorted. *)
Definition ReadDir (p : string) : M (option (list string)) :=
  λ w, (Ret (match lookup_node (fs w) (key_of p) with
             | Some NDir => Some (dir_names (fs w) (key_of p))
             | _ => None
             end),
        mkWorld (fs w) (trace w ++ [EvReadDir p]) (clock w)).

Definition ReadFile (p : string) : M (option (list byte)) :=
  λ w, (Ret (match fs w !! key_of p with
             | Some (NFile c) => Some c
             | _ => None
             end),
        mkWorld (fs w) (trace w ++ [EvReadFile p]) (clock w)).

(** [ioutil.WriteFile]: creates or truncates the file and writes it. *)
Definition WriteFile (p : string) (data : list byte) : M (option string) :=
  λ w, let k := key_of p in
       let w' := mkWorld (fs w) (trace w ++ [EvWriteFile p]) (clock w) in
       match k, lookup_node (fs w) (removelast k), fs w !! k with
       | [], _, _ => (Ret (Some ("open " +:+ p +:+ ": is a directory")), w')
       | _, Some NDir, Some NDir =>
           (Ret (Some ("open " +:+ p +:+ ": is a directory")), w')
       | _, Some NDir, _ =>
           (Ret None,
            mkWorld (<[k := NFile data]> (fs w)) (trace w ++ [EvWriteFile p])
                    (clock w))
       | _, _, _ => (Ret (Some ("open " +:+ p +:+ ": no such file or directory")), w')
       end.

(** ** The program: [allure/rawAllure.go] *)

Definition artifact_url : string := "https://app.testwise.pro/api/v1/artifact/".
Definition content_url : string := "https://app.testwise.pro/api/v1/artifact?key=".
Definition nil_dereference : string :=
  "runtime error: invalid memory address or nil pointer dereference".

(** *** Root discovery: [getFolder] *)

(** The map literal of [getFolder]. *)
Definition expectedFolders : gmap string bool :=
  list_to_map
    [("bill", false); ("devices", false); ("html", false); ("logs", false);
     ("report", false); ("test_result", false); ("tests", false)].

(** [if _, exists := expectedFolders[f.Name]; exists
      { expectedFolders[f.Name] = true }] *)
Definition mark_found (expected : gmap string bool) (f : ArtifactTree)
  : gmap string bool :=
  match expected !! Name f with
  | Some _ => <[Name f := true]> expected
  | None => expected
  end.

(** [allFound]: no entry of the map is false. *)
Definition allFound (expected : gmap string bool) : bool :=
  forallb snd (map_to_list expected).

(** The loop [for i := 0; i < 5; i++] with [n] iterations to go. *)
Fixpoint getFolder_loop (n : nat) (token folder : string)
    (expected : gmap string bool) (lastRetrievedFolders : list ArtifactTree)
  : M (list ArtifactTree) :=
  match n with
  | 0 => mret lastRetrievedFolders
  | S n' =>
      Sleep 5 ;;
      resp ← SendGetRequest (artifact_url +:+ folder) token ;
      match resp with
      | None => getFolder_loop n' token folder expected lastRetrievedFolders
      | Some r =>
          match Body r with
          | None => getFolder_loop n' token folder expected lastRetrievedFolders
          | Some body =>
              (* bodyBytes, _ := io.ReadAll(resp.Body) *)
              let bodyBytes := body_data body in
              (* json.Unmarshal(bodyBytes, &folders), error dropped *)
              let folders := (unmarshal_listing bodyBytes).1 in
              let expected' := fold_left mark_found folders expected in
              if allFound expected' then mret folders
              else getFolder_loop n' token folder expected' folders
          end
      end
  end.

Definition getFolder (token folder : string) : M (list ArtifactTree) :=
  getFolder_loop 5 token folder expectedFolders [].

(** *** Tree walker: [getFoldersRecursively]

    [defer resp.Body.Close()] evaluates [resp.Body.Close] when the
    statement runs, so a nil response, or a nil body, panics there. The
    recursion follows the remote tree, which need not be finite: [fuel]
    bounds its depth. *)
Fixpoint getFoldersRecursively (fuel : nat) (token folderID whereToSave : string)
  : M unit :=
  match fuel with
  | 0 => out_of_fuel
  | S fuel' =>
      resp ← SendGetRequest (artifact_url +:+ folderID) token ;
      match resp with
      | None => panic nil_dereference
      | Some r =>
          match Body r with
          | None => panic nil_dereference
          | Some body =>
              if body_err body then
                Println "Error reading response: unexpected EOF"
              else
                let '(folders, err) := unmarshal_listing (body_data body) in
                if err then
                  Println "Failed to unmarshal response: invalid character"
                else
                  for_each folders (λ folder,
                    if IsFile folder then Go (ID folder)
                    else getFoldersRecursively fuel' token (ID folder) whereToSave)
          end
      end
  end.

(** *** File materializer: [downloadFile] *)

Definition downloadFile (token fileID whereToSave : string) : M (option string) :=
  if String.eqb fileID "" then mret (Some "empty fileID provided")
  else
    let keyArray := strings.Split fileID slash in
    let subFolder :=
      if decide (1 < length keyArray) then strings.Join (removelast keyArray) "/"
      else "" in
    let fileName := List.last keyArray "" in
    let fileFolder := path.Join [whereToSave; subFolder] in
    err ← MkdirAll fileFolder ;
    match err with
    | Some e => mret (Some ("failed to create directory: " +:+ e))
    | None =>
        let validFileID := strings.ReplaceAll fileID "#"%char "%23" in
        resp ← SendGetRequest (content_url +:+ validFileID) token ;
        (* defer resp.Body.Close() *)
        match resp with
        | None => panic nil_dereference
        | Some r =>
            match Body r with
            | None => panic nil_dereference
            | Some body =>
                let filePath := path.Join [fileFolder; fileName] in
                err ← Create filePath ;
                match err with
                | Some e => mret (Some ("got error while os.Create: " +:+ e))
                | None =>
                    err ← Copy filePath body ;
                    match err with
                    | Some e => mret (Some ("error writing file: " +:+ e))
                    | None => mret None
                    end
                end
            end
        end
    end.

(** *** Layout reconciliation: [relocateContents] *)

Definition relocateContents (whereToSave runId : string) : M unit :=
  let runIdDir := path.Join [whereToSave; runId] in
  st ← Stat runIdDir ;
  match st with
  | inr ENOENT =>
      Println (runId +:+ " directory does not exist. Skipping relocation.")
  | _ =>
      err ← CopyTree runIdDir whereToSave ;
      match err with
      | Some e => Println ("Error copying files: " +:+ e)
      | None =>
          err ← RemoveAll runIdDir ;
          match err with
          | Some e =>
              Println ("Error removing directory " +:+ runIdDir +:+ " : " +:+ e)
          | None => mret tt
          end
      end
  end.

(** *** Reference repair: [updateJsonPaths] *)

(** The callback of the walk: [if !info.IsDir() { fileMap[filepath.Base(path)]
    = path }]. *)
Definition index_file (fileMap : gmap string string) (visit : string * bool)
  : gmap string string :=
  if visit.2 then fileMap else <[path.Base visit.1 := visit.1]> fileMap.

(** One round of [for _, attachment := range attachments]. The attachment
    is a reference into [jsonData]; the round returns what it refers to
    afterwards. *)
Definition repair_attachment (fileMap : gmap string string)
    (allureResultsDir : string) (attachment : json) : M json :=
  match attachment with
  | JObj attachMap =>
      match obj_get "source" attachMap with
      | Some (JStr sourceStr) =>
          let filename := path.Base sourceStr in
          match fileMap !! filename with
          | Some newPath =>
              match path.Rel allureResultsDir newPath with
              | None =>
                  Println ("Error calculating relative path for " +:+ newPath
                           +:+ " : Rel: can't make relative") ;;
                  mret attachment
              | Some relativePath =>
                  mret (JObj (obj_set "source" (JStr relativePath) attachMap))
              end
          | None => mret attachment
          end
      | _ => mret attachment
      end
  | _ => mret attachment
  end.

(** One round of [for _, file := range files]. *)
Definition repair_file (fileMap : gmap string string)
    (allureResultsDir : string) (name : string) : M unit :=
  if String.eqb (path.Ext name) ".json" then
    let filePath := path.Join [allureResultsDir; name] in
    r ← ReadFile filePath ;
    match r with
    | None => Println ("Error reading file " +:+ filePath +:+ " : read failed")
    | Some data =>
        match unmarshal_doc data with
        | None =>
            Println ("Error unmarshaling JSON data from file " +:+ filePath
                     +:+ " : invalid character")
        | Some jsonData =>
            match obj_get "attachments" jsonData with
            | Some (JArr attachments) =>
                attachments' ←
                  mapM (repair_attachment fileMap allureResultsDir) attachments ;
                let jsonData' := obj_set "attachments" (JArr attachments') jsonData in
                let updatedData := marshal_indent jsonData' in
                err ← WriteFile filePath updatedData ;
                match err with
                | Some e =>
                    Println ("Error writing updated data to file " +:+ filePath
                             +:+ " : " +:+ e)
                | None => mret tt
                end
            | _ => mret tt
            end
        end
    end
  else mret tt.

Definition updateJsonPaths (whereToSave : string) : M unit :=
  visited ← Walk whereToSave ;
  match visited with
  | None =>
      Println ("Error walking the path " +:+ whereToSave
               +:+ " : no such file or directory")
  | Some visits =>
      let fileMap := fold_left index_file visits ∅ in
      let allureResultsDir := path.Join [whereToSave; "report"; "allure-results"] in
      files ← ReadDir allureResultsDir ;
      match files with
      | None =>
          Println ("Error reading directory " +:+ allureResultsDir
                   +:+ " : no such directory")
      | Some names => for_each names (repair_file fileMap allureResultsDir)
      end
  end.

(** *** Orchestration: [GetArtifacts] and its goroutines

    The main goroutine, one goroutine per download, and the goroutine
    that drains the [errors] channel, as a step relation: one step is one
    statement of one goroutine, and any goroutine that can move may move
    next. [sem] is the buffered channel of capacity
    [maxConcurrentDownloads], of which only the number of elements
    matters; [errors] is unbuffered, so a send and its receive are one
    step. A panic in any goroutine ends the process. *)

(** Where a download goroutine stands:
<<
    go func(id string) {
        defer wg.Done()
        sem <- struct{}{}                           // TAcquire
        err := downloadFile(token, id, whereToSave) // TDownload
        <-sem                                       // TRelease err
        if err != nil { errors <- err }             // TReport err
    }(folder.ID)                                    // TFinish: wg.Done()
>> *)
Inductive task_pc :=
  | TAcquire
  | TDownload
  | TRelease (err : option string)
  | TReport (err : string)
  | TFinish
  | TDone.

(** What the main goroutine has still to walk: a call
    [getFoldersRecursively(token, id, ...)] to make, or a round of the
    loop over the listing of a folder. *)
Inductive work :=
  | WCall (folderID : string)
  | WNode (folder : ArtifactTree).

Inductive main_pc :=
  | PcStart                      (* rootFolders := getFolder(token, runId) *)
  | PcWalk (todo : list work)    (* the loop over the root folders *)
  | PcWait                       (* wg.Wait() *)
  | PcClose                      (* close(errors) *)
  | PcRelocate                   (* relocateContents(whereToSave, runId) *)
  | PcRepair                     (* updateJsonPaths(whereToSave) *)
  | PcReturn.

(** The goroutine [for err := range errors { ... Println ... }]. *)
Inductive sink_pc :=
  | SinkNone
  | SinkReceive
  | SinkPrint (err : string)
  | SinkExit.

Record GState := mkG {
  g_world : World;
  g_main : main_pc;
  g_tasks : list (string * task_pc);
  g_sem : nat;
  g_wg : nat;
  g_closed : bool;
  g_sink : sink_pc
}.

Inductive process :=
  | Running (s : GState)
  | Crashed (w : World).

Definition set_world (s : GState) (w : World) : GState :=
  mkG w (g_main s) (g_tasks s) (g_sem s) (g_wg s) (g_closed s) (g_sink s).
Definition set_main (s : GState) (pc : main_pc) : GState :=
  mkG (g_world s) pc (g_tasks s) (g_sem s) (g_wg s) (g_closed s) (g_sink s).
Definition set_task (s : GState) (i : nat) (t : string * task_pc) : GState :=
  mkG (g_world s) (g_main s) (<[i := t]> (g_tasks s)) (g_sem s) (g_wg s)
      (g_closed s) (g_sink s).
Definition set_sem (s : GState) (n : nat) : GState :=
  mkG (g_world s) (g_main s) (g_tasks s) n (g_wg s) (g_closed s) (g_sink s).
Definition set_wg (s : GState) (n : nat) : GState :=
  mkG (g_world s) (g_main s) (g_tasks s) (g_sem s) n (g_closed s) (g_sink s).
Definition set_sink (s : GState) (k : sink_pc) : GState :=
  mkG (g_world s) (g_main s) (g_tasks s) (g_sem s) (g_wg s) (g_closed s) k.

(** The process as [GetArtifacts] is entered. *)
Definition initial (w : World) : process :=
  Running (mkG w PcStart [] 0 0 false SinkNone).

Section Orchestration.

Variables token runId whereToSave : string.

Inductive step : process → process → Prop :=
  (* lines 27-31: root discovery finds nothing *)
  | step_no_roots s roots w :
      g_main s = PcStart →
      getFolder token runId (g_world s) = (Ret roots, w) →
      length roots = 0 →
      step (Running s)
           (Running (set_main
              (set_world s (Println "Failed to retrieve root folders." w).2)
              PcReturn))
  (* lines 27-48: root discovery finds folders; the sink is started *)
  | step_roots s roots w :
      g_main s = PcStart →
      getFolder token runId (g_world s) = (Ret roots, w) →
      length roots ≠ 0 →
      step (Running s)
           (Running (set_sink
              (set_main (set_world s w) (PcWalk (map (λ f, WCall (ID f)) roots)))
              SinkReceive))
  (* lines 120-134: the listing of a folder *)
  | step_list s folderID todo folders w :
      g_main s = PcWalk (WCall folderID :: todo) →
      SendGetRequest (artifact_url +:+ folderID) token (g_world s)
        = (Ret (Some (mkResponse (Some (mkBody folders false)))), w) →
      (unmarshal_listing folders).2 = false →
      step (Running s)
           (Running (set_main (set_world s w)
              (PcWalk (map WNode (unmarshal_listing folders).1 ++ todo))))
  | step_list_nil s folderID todo resp w :
      g_main s = PcWalk (WCall folderID :: todo) →
      SendGetRequest (artifact_url +:+ folderID) token (g_world s)
        = (Ret resp, w) →
      resp = None ∨ resp = Some (mkResponse None) →
      step (Running s) (Crashed w)
  | step_list_read_error s folderID todo data w :
      g_main s = PcWalk (WCall folderID :: todo) →
      SendGetRequest (artifact_url +:+ folderID) token (g_world s)
        = (Ret (Some (mkResponse (Some (mkBody data true)))), w) →
      step (Running s)
           (Running (set_main
              (set_world s (Println "Error reading response: unexpected EOF" w).2)
              (PcWalk todo)))
  | step_list_malformed s folderID todo data w :
      g_main s = PcWalk (WCall folderID :: todo) →
      SendGetRequest (artifact_url +:+ folderID) token (g_world s)
        = (Ret (Some (mkResponse (Some (mkBody data false)))), w) →
      (unmarshal_listing data).2 = true →
      step (Running s)
           (Running (set_main
              (set_world s
                 (Println "Failed to unmarshal response: invalid character" w).2)
              (PcWalk todo)))
  (* lines 137-147: a file starts a goroutine *)
  | step_go s folder todo :
      g_main s = PcWalk (WNode folder :: todo) →
      IsFile folder = true →
      step (Running s)
           (Running (mkG (Go (ID folder) (g_world s)).2 (PcWalk todo)
                         (g_tasks s ++ [(ID folder, TAcquire)])
                         (g_sem s) (S (g_wg s)) (g_closed s) (g_sink s)))
  (* line 149: a folder is walked in turn *)
  | step_descend s folder todo :
      g_main s = PcWalk (WNode folder :: todo) →
      IsFile folder = false →
      step (Running s)
           (Running (set_main s (PcWalk (WCall (ID folder) :: todo))))
  | step_walked s :
      g_main s = PcWalk [] →
      step (Running s) (Running (set_main s PcWait))
  (* line 55 *)
  | step_wait s :
      g_main s = PcWait →
      g_wg s = 0 →
      step (Running s) (Running (set_main s PcClose))
  (* line 56 *)
  | step_close s :
      g_main s = PcClose →
      step (Running s)
           (Running (mkG (g_world s) PcRelocate (g_tasks s) (g_sem s) (g_wg s)
                         true (g_sink s)))
  (* line 59 *)
  | step_relocate s w :
      g_main s = PcRelocate →
      relocateContents whereToSave runId (g_world s) = (Ret tt, w) →
      step (Running s) (Running (set_main (set_world s w) PcRepair))
  (* line 61 *)
  | step_repair s w :
      g_main s = PcRepair →
      updateJsonPaths whereToSave (g_world s) = (Ret tt, w) →
      step (Running s) (Running (set_main (set_world s w) PcReturn))
  (* line 141 *)
  | step_acquire s i id :
      g_tasks s !! i = Some (id, TAcquire) →
      g_sem s < maxConcurrentDownloads →
      step (Running s)
           (Running (set_sem (set_task s i (id, TDownload)) (S (g_sem s))))
  (* line 142 *)
  | step_download s i id err w :
      g_tasks s !! i = Some (id, TDownload) →
      downloadFile token id whereToSave (g_world s) = (Ret err, w) →
      step (Running s)
           (Running (set_world (set_task s i (id, TRelease err)) w))
  | step_download_panic s i id msg w :
      g_tasks s !! i = Some (id, TDownload) →
      downloadFile token id whereToSave (g_world s) = (Panicked msg, w) →
      step (Running s) (Crashed w)
  (* line 143 *)
  | step_release s i id err n :
      g_tasks s !! i = Some (id, TRelease err) →
      g_sem s = S n →
      step (Running s)
           (Running (set_sem
              (set_task s i (id, match err with
                                 | Some e => TReport e
                                 | None => TFinish
                                 end))
              n))
  (* lines 144-146 and 43: the send and its receive *)
  | step_report s i id e :
      g_tasks s !! i = Some (id, TReport e) →
      g_closed s = false →
      g_sink s = SinkReceive →
      step (Running s)
           (Running (set_sink (set_task s i (id, TFinish)) (SinkPrint e)))
  | step_report_closed s i id e :
      g_tasks s !! i = Some (id, TReport e) →
      g_closed s = true →
      step (Running s) (Crashed (g_world s))
  (* line 140 *)
  | step_finish s i id n :
      g_tasks s !! i = Some (id, TFinish) →
      g_wg s = S n →
      step (Running s)
           (Running (set_wg (set_task s i (id, TDone)) n))
  | step_finish_negative s i id :
      g_tasks s !! i = Some (id, TFinish) →
      g_wg s = 0 →
      step (Running s) (Crashed (g_world s))
  (* lines 43-47 *)
  | step_sink_print s e :
      g_sink s = SinkPrint e →
      step (Running s)
           (Running (set_sink
              (set_world s (Println ("Error during download: " +:+ e) (g_world s)).2)
              SinkReceive))
  | step_sink_exit s :
      g_sink s = SinkReceive →
      g_closed s = true →
      step (Running s) (Running (set_sink s SinkExit)).

(** The states the process can be in, from a world [w0]. *)
Definition reachable (w0 : World) (p : process) : Prop :=
  rtc step (initial w0) p.

End Orchestration.

(** ** What the specification says, in its own words *)

(** *** Root discovery *)

(** The category names root discovery expects. *)
Definition expected_categories : list string :=
  ["bill"; "devices"; "html"; "logs"; "report"; "test_result"; "tests"].

(** The listing that attempt [j] of a discovery obtains, when the
    discovery starts at request [c0]; a transport-level failure obtains
    none. *)
Definition attempt_listing (c0 : nat) (token folder : string) (j : nat)
  : option (list ArtifactTree) :=
  match transport (c0 + j) (artifact_url +:+ folder) token with
  | Some r =>
      match Body r with
      | Some body => Some (unmarshal_listing (body_data body)).1
      | None => None
      end
  | None => None
  end.

(** Category [c] has been observed in one of the attempts before [n]. *)
Definition observed (obs : nat → option (list ArtifactTree)) (n : nat)
    (c : string) : bool :=
  existsb (λ j, match obs j with
                | Some l => existsb (λ f, String.eqb (Name f) c) l
                | None => false
                end) (seq 0 n).

(** Every expected category has been observed before attempt [n]. *)
Definition covered (obs : nat → option (list ArtifactTree)) (n : nat) : bool :=
  forallb (observed obs n) expected_categories.

(** The first of the [n] numbers from [i] on that satisfies [P]. *)
Fixpoint first_from (P : nat → bool) (i n : nat) : option nat :=
  match n with
  | 0 => None
  | S n' => if P i then Some i else first_from P (S i) n'
  end.

(** The last listing obtained in the attempts before [n]. *)
Fixpoint last_obtained (obs : nat → option (list ArtifactTree)) (n : nat)
  : list ArtifactTree :=
  match n with
  | 0 => []
  | S n' =>
      match obs n' with
      | Some l => l
      | None => last_obtained obs n'
      end
  end.

(** Root discovery as specified: the number of attempts made and the
    listing returned. *)
Definition discovery_spec (obs : nat → option (list ArtifactTree))
  : nat * list ArtifactTree :=
  match first_from (λ j, covered obs (S j)) 0 5 with
  | Some k => (S k, default [] (obs k))
  | None => (5, last_obtained obs 5)
  end.

(** *** The remote artifact tree *)






(** *** The local place of a file *)

(** The local path of a file identifier as specified: the identifier is
    split on slashes, the last piece is the name of the file and the
    pieces before it are the directories below the destination root. *)
Definition local_dir (whereToSave fileID : string) : string :=
  path.Join [whereToSave;
             strings.Join (removelast (strings.Split fileID slash)) "/"].

Definition local_path (whereToSave fileID : string) : string :=
  path.Join [local_dir whereToSave fileID;
             List.last (strings.Split fileID slash) ""].

(** The URL of the content request: the identifier with every [#]
    percent-encoded. *)
Definition content_request (fileID : string) : string :=
  content_url +:+ strings.ReplaceAll fileID "#"%char "%23".

(** *** Names *)

(** A string without a slash. *)
Definition no_slash (s : string) : Prop := strings.Split s slash = [s].

(** A name a directory entry can have. *)
Definition plain_name (s : string) : Prop :=
  no_slash s ∧ s ≠ "" ∧ s ≠ "." ∧ s ≠ "..".

#[local] Instance no_slash_dec s : Decision (no_slash s).
Proof. unfold no_slash. apply _. Defined.
#[local] Instance plain_name_dec s : Decision (plain_name s).
Proof. unfold plain_name. apply _. Defined.

(** *** Reference repair *)

Definition is_dir (n : node) : bool :=
  match n with
  | NDir => true
  | NFile _ => false
  end.

Definition dir_at (f : gmap (list string) node) (k : list string) : bool :=
  match lookup_node f k with
  | Some NDir => true
  | _ => false
  end.

(** A file system as the operating system keeps it: every node has a
    plain name at every level and sits in a directory. *)
Definition fs_wf (f : gmap (list string) node) : Prop :=
  map_Forall (λ k _, Forall plain_name k ∧ dir_at f (removelast k) = true) f.

(** The report metadata directory. *)
Definition metadata_dir (whereToSave : string) : string :=
  path.Join [whereToSave; "report"; "allure-results"].

(** The filename index: for every regular file of the destination tree,
    in the order of the walk, its base name mapped to its path; a later
    file of the same name overwrites an earlier one. *)
Definition filename_index (f : gmap (list string) node) (whereToSave : string)
  : gmap string string :=
  fold_left (λ index rel,
               match f !! (key_of whereToSave ++ rel) with
               | Some (NFile _) =>
                   <[path.Base (walk_path whereToSave rel)
                     := walk_path whereToSave rel]> index
               | _ => index
               end)
            (keys_below f (key_of whereToSave)) ∅.

(** An element of the attachments array after repair: when it has a
    source string whose base name is in the index, the source is the
    indexed path relative to the metadata directory; otherwise the
    element is as it was. *)
Definition repaired (index : gmap string string) (dir : string) (a : json)
  : json :=
  match a with
  | JObj o =>
      match obj_get "source" o with
      | Some (JStr s) =>
          match index !! path.Base s with
          | Some p =>
              match path.Rel dir p with
              | Some r => JObj (obj_set "source" (JStr r) o)
              | None => a
              end
          | None => a
          end
      | _ => a
      end
  | _ => a
  end.

(** ** Definitions the proofs use *)

(** A stack of elements as [path.Clean] keeps it: plain names on top of
    the [..] elements that could not be resolved, of which a rooted path
    has none. *)
Definition clean_stack (rooted : bool) (out : list string) : Prop :=
  ∃ names k, out = rev names ++ replicate k ".."
             ∧ Forall plain_name names
             ∧ (rooted = true → k = 0).

(** The checklist of the code against the observations of the spec. *)
Definition checklist_of (obs : nat → option (list ArtifactTree)) (n : nat)
    (m : gmap string bool) : Prop :=
  ∀ c, m !! c
       = if bool_decide (c ∈ expected_categories)
         then Some (observed obs n c) else None.

(** The events of [k] attempts. *)
Definition attempts_trace (token folder : string) (k : nat) : list event :=
  concat (replicate k [EvSleep 5; EvGet (artifact_url +:+ folder) token]).

(** The download goroutines a trace has started, by file. *)
Definition started (tr : list event) : list string := omap go_id tr.

(** The events of one download, when all of them happen. *)
Definition download_events (token whereToSave fileID : string) : list event :=
  [EvMkdirAll (local_dir whereToSave fileID);
   EvGet (content_request fileID) token;
   EvCreate (local_path whereToSave fileID);
   EvWrite (local_path whereToSave fileID)].

(** The world after some more events. *)
Definition later (w : World) (tr : list event) : World :=
  mkWorld (fs w) (trace w ++ tr) (clock w).

(** Can [ioutil.WriteFile] write at [k]? *)
Definition write_ok (f : gmap (list string) node) (k : list string) : bool :=
  match k, lookup_node f (removelast k), f !! k with
  | [], _, _ => false
  | _, Some NDir, Some NDir => false
  | _, Some NDir, _ => true
  | _, _, _ => false
  end.

(** What one round of the loop over the files writes, if it writes. *)
Definition new_content (index : gmap string string) (dir : string)
    (f : gmap (list string) node) (name : string) : option (list byte) :=
  if String.eqb (path.Ext name) ".json" then
    match f !! key_of (path.Join [dir; name]) with
    | Some (NFile data) =>
        match unmarshal_doc data with
        | Some doc =>
            match obj_get "attachments" doc with
            | Some (JArr atts) =>
                if write_ok f (key_of (path.Join [dir; name])) then
                  Some (marshal_indent
                          (obj_set "attachments"
                             (JArr (map (repaired index dir) atts)) doc))
                else None
            | _ => None
            end
        | None => None
        end
    | _ => None
    end
  else None.

Definition step_fs (index : gmap string string) (dir : string)
    (f : gmap (list string) node) (name : string) : gmap (list string) node :=
  match new_content index dir f name with
  | Some d => <[key_of (path.Join [dir; name]) := NFile d]> f
  | None => f
  end.

(** The shape of a file system: where its nodes are, and which of them
    are directories. The repair pass does not change it. *)
Definition shape (f : gmap (list string) node) : gmap (list string) bool :=
  is_dir <$> f.


(** The file system after one pass. *)
Definition pass_fs (root : string) (f : gmap (list string) node)
  : gmap (list string) node :=
  if dir_at f (key_of (metadata_dir root)) then
    fold_left (step_fs (filename_index f root) (metadata_dir root))
              (dir_names f (key_of (metadata_dir root))) f
  else f.

(** A copy leaves the nodes in their places, the directories as
    directories. *)
Definition stays (f f' : gmap (list string) node) : Prop :=
  ∀ k n, f !! k = Some n →
         ∃ n', f' !! k = Some n' ∧ (n = NDir → n' = NDir).

(** No path of [g] is longer than [h]. *)
Definition no_deeper (h : nat) (g : gmap (list string) node) : Prop :=
  ∀ k, is_Some (g !! k) → length k ≤ h.

(** [g] has at and below [src] what [f] has. *)
Definition source_kept (f : gmap (list string) node) (src : list string)
    (g : gmap (list string) node) : Prop :=
  ∀ k, src `prefix_of` k → g !! k = f !! k.

(** No node below [s] is copied, to the same place below [d], into what
    is at or below [src]. *)
Definition copied_apart (f : gmap (list string) node) (src s d : list string)
  : Prop :=
  ∀ rel, rel ≠ [] → is_Some (f !! (s ++ rel)) → ¬ src `prefix_of` d ++ rel.

(** The nodes between [s] and the node at [rel] below it are
    directories. *)
Definition dirs_between (f : gmap (list string) node) (s rel : list string)
  : Prop :=
  ∀ i, 0 < i < length rel → f !! (s ++ take i rel) = Some NDir.

(** The places, relative to an entry, of the files that are copied with
    it: the entry itself when it is a file, places below it when it is a
    directory. *)
Definition entry_rel (info : node) (rel : list string) : Prop :=
  match info with
  | NDir => rel ≠ []
  | NFile _ => rel = []
  end.

(** A download goroutine between its acquire and its release. *)
Definition holds_slot (t : task_pc) : bool :=
  match t with
  | TDownload | TRelease _ => true
  | _ => false
  end.

(** A download goroutine inside [downloadFile]. *)
Definition downloading (t : task_pc) : bool :=
  match t with
  | TDownload => true
  | _ => false
  end.

(** A download goroutine that has not yet called [wg.Done()]. *)
Definition unfinished (t : task_pc) : bool :=
  match t with
  | TDone => false
  | _ => true
  end.

Definition count (P : task_pc → bool) (tasks : list (string * task_pc)) : nat :=
  sum_list_with (λ t, if P t.2 then 1 else 0) tasks.

Definition all_done (tasks : list (string * task_pc)) : Prop :=
  Forall (λ t, t.2 = TDone) tasks.

(** The main goroutine is past [wg.Wait()]. *)
Definition past_barrier (pc : main_pc) : bool :=
  match pc with
  | PcClose | PcRelocate | PcRepair | PcReturn => true
  | _ => false
  end.

(** What holds of every state the process can be in. *)
Record invariant (s : GState) : Prop := mkInv {
  inv_sem : g_sem s = count holds_slot (g_tasks s);
  inv_cap : g_sem s ≤ maxConcurrentDownloads;
  inv_wg : g_wg s = count unfinished (g_tasks s);
  inv_barrier : past_barrier (g_main s) = true → all_done (g_tasks s);
  inv_closed : g_closed s = true → past_barrier (g_main s) = true;
  inv_start : g_main s = PcStart → g_tasks s = []
}.

Definition process_invariant (p : process) : Prop :=
  match p with
  | Running s => invariant s
  | Crashed _ => True
  end.

(** The walk of the main goroutine, step by step, against the recursive
    [getFoldersRecursively]: when no other goroutine moves in between, the
    steps end where the function ends, with one goroutine waiting for each
    download the function has started. *)
Definition walked (s : GState) (w : World) (todo : list work) (ids : list string)
  : GState :=
  mkG w (PcWalk todo) (g_tasks s ++ map (λ id, (id, TAcquire)) ids)
      (g_sem s) (g_wg s + length ids) (g_closed s) (g_sink s).

(** The state in which [GetArtifacts] has returned early. *)
Definition returned_early (w : World) : process :=
  Running (mkG (later w [EvPrint "Failed to retrieve root folders."])
               PcReturn [] 0 0 false SinkNone).

Definition walk_result (token runId whereToSave : string) (s : GState) (todo : list work)
    (r : outcome unit * World) : Prop :=
  match r.1 with
  | Ret _ =>
      ∃ ids, started (trace r.2) = started (trace (g_world s)) ++ ids
             ∧ rtc (step token runId whereToSave) (Running s)
                   (Running (walked s r.2 todo ids))
  | Panicked _ => rtc (step token runId whereToSave) (Running s) (Crashed r.2)
  | OutOfFuel => True
  end.

(** ** Further definitions *)

(** The goroutine that drains [errors] is in its loop: at the receive,
    or printing what it has received. *)
Definition sink_listening (k : sink_pc) : Prop :=
  k = SinkReceive ∨ ∃ e, k = SinkPrint e.

(** The sink is started before the walk and leaves its loop only once
    [errors] is closed. *)
Definition sink_invariant (s : GState) : Prop :=
  g_closed s = false → g_main s ≠ PcStart → g_main s ≠ PcReturn →
  sink_listening (g_sink s).

(** The response is one that [resp.Body.Close()] cannot be called on. *)
Definition nil_response (resp : option Response) : Prop :=
  resp = None ∨ resp = Some (mkResponse None).

(** *** Remote trees with folders that cannot be listed *)

(** A finite remote tree in which the listing of some folders comes with
    a body that ends in a read error or does not decode. *)
Inductive ltree :=
  | LFile (id name : string)
  | LFolder (id name : string) (children : list ltree)
  | LBroken (id name : string) (body : ReadCloser).

Definition lnode (t : ltree) : ArtifactTree :=
  match t with
  | LFile id name => mkArtifactTree id true name
  | LFolder id name _ | LBroken id name _ => mkArtifactTree id false name
  end.

(** The files the walk can get to: those under no broken folder. *)
Fixpoint lleaves (t : ltree) : list string :=
  match t with
  | LFile id _ => [id]
  | LFolder _ _ children => flat_map lleaves children
  | LBroken _ _ _ => []
  end.

(** The folders the walk gets to, in the order of the walk. *)
Fixpoint lfolders (t : ltree) : list string :=
  match t with
  | LFile _ _ => []
  | LFolder id _ children => id :: flat_map lfolders children
  | LBroken id _ _ => [id]
  end.

Fixpoint ldepth (t : ltree) : nat :=
  match t with
  | LFile _ _ => 0
  | LFolder _ _ children => S (list_max (map ldepth children))
  | LBroken _ _ _ => 1
  end.

(** What the walk prints for a body it cannot use. *)
Definition listing_complaint (body : ReadCloser) : string :=
  if body_err body then "Error reading response: unexpected EOF"
  else "Failed to unmarshal response: invalid character".

(** The messages of the walk about the folders it gives up. *)
Fixpoint lcomplaints (t : ltree) : list string :=
  match t with
  | LFile _ _ => []
  | LFolder _ _ children => flat_map lcomplaints children
  | LBroken _ _ body => [listing_complaint body]
  end.

(** What the round of the loop for the entry of [t] does, in order. *)
Fixpoint walk_events (token : string) (t : ltree) : list event :=
  match t with
  | LFile id _ => [EvGo id]
  | LFolder id _ children =>
      EvGet (artifact_url +:+ id) token :: flat_map (walk_events token) children
  | LBroken id _ body =>
      [EvGet (artifact_url +:+ id) token; EvPrint (listing_complaint body)]
  end.

(** The remote side answers as [t] says, whenever it is asked: the
    listing of a folder reads and decodes to the entries of its children;
    that of a broken folder has the given body, which ends in a read
    error or does not decode. *)
Fixpoint answers (token : string) (t : ltree) : Prop :=
  match t with
  | LFile _ _ => True
  | LFolder id _ children =>
      (∀ n, ∃ data,
          transport n (artifact_url +:+ id) token
          = Some (mkResponse (Some (mkBody data false)))
          ∧ unmarshal_listing data = (map lnode children, false))
      ∧ (fix all (l : list ltree) : Prop :=
           match l with
           | [] => True
           | c :: l' => answers token c ∧ all l'
           end) children
  | LBroken id _ body =>
      (∀ n, transport n (artifact_url +:+ id) token
            = Some (mkResponse (Some body)))
      ∧ (body_err body = true ∨ (unmarshal_listing (body_data body)).2 = true)
  end.

(** The listing requests of a trace, by URL and token. *)
Definition requested (tr : list event) : list (string * string) :=
  omap (λ e, match e with
             | EvGet url token => Some (url, token)
             | _ => None
             end) tr.

(** What was printed, in order. *)
Definition printed (tr : list event) : list string :=
  omap (λ e, match e with
             | EvPrint msg => Some msg
             | _ => None
             end) tr.

(** The world after the events [tr], of which every request takes one
    answer of the transport. *)
Definition after_events (w : World) (tr : list event) : World :=
  mkWorld (fs w) (trace w ++ tr) (clock w + length (requested tr)).

(** The events of a walk: requests, messages and goroutine starts. *)
Definition walker_event (e : event) : bool :=
  match e with
  | EvGet _ _ | EvPrint _ | EvGo _ => true
  | _ => false
  end.

(** [w'] is [w] after some events that all satisfy [ok], with the file
    system as it was. *)
Definition extends_by (ok : event → bool) (w w' : World) : Prop :=
  fs w' = fs w
  ∧ ∃ tr, trace w' = trace w ++ tr
          ∧ Forall (λ e, ok e = true) tr
          ∧ clock w' = clock w + length (requested tr).

(** *** Where a path leads *)

(** The key reached from the key [base] by the elements [es], as the
    operating system follows them: an empty element and [.] stay, [..]
    goes up, and the root is its own parent. *)
Definition resolve (base es : list string) : list string :=
  rev (fold_left (path.clean_step true) es (rev base)).

(** *** What is left to do *)

(** The statements a download goroutine has still to run, at most. *)
Definition statements_left (t : task_pc) : nat :=
  match t with
  | TAcquire => 5
  | TDownload => 4
  | TRelease _ => 3
  | TReport _ => 2
  | TFinish => 1
  | TDone => 0
  end.

(** A bound on the steps the download goroutines and the sink can make
    while the main goroutine waits: a send makes the sink print once. *)
Definition work_left (s : GState) : nat :=
  2 * sum_list_with (λ t, statements_left t.2) (g_tasks s)
  + match g_sink s with
    | SinkPrint _ => 1
    | _ => 0
    end.

(** *** The files of a run *)

(** A file of the run: the pieces of its identifier after the run
    identifier, and its content. *)
Definition remote_file : Type := list string * list byte.

Definition file_id (runId : string) (fd : remote_file) : string :=
  strings.Join (runId :: fd.1) "/".

(** The place of the pieces [segs] in the run directory of the
    destination. *)
Definition run_place (root runId : string) (segs : list string) : list string :=
  key_of root ++ runId :: segs.

(** The remote side serves the files [F] and no others: the pieces of
    their identifiers are plain names, no identifier leads through
    another, the content of each is what a request for it gets, without
    a read error, whenever it is made; and every file entry of a listing
    is one of them. *)
Definition serves_files (token runId : string) (F : list remote_file) : Prop :=
  plain_name runId
  ∧ (∀ fd, fd ∈ F → Forall plain_name fd.1 ∧ fd.1 ≠ [])
  ∧ (∀ fd fd', fd ∈ F → fd' ∈ F → fd.1 `prefix_of` fd'.1 → fd = fd')
  ∧ (∀ fd n, fd ∈ F →
       transport n (content_request (file_id runId fd)) token
       = Some (mkResponse (Some (mkBody fd.2 false))))
  ∧ (∀ n folderID data f,
       transport n (artifact_url +:+ folderID) token
       = Some (mkResponse (Some (mkBody data false))) →
       (unmarshal_listing data).2 = false →
       f ∈ (unmarshal_listing data).1 → IsFile f = true →
       ∃ fd, fd ∈ F ∧ ID f = file_id runId fd).

(** A destination with nothing below its root and no regular file on the
    way to it. *)
Definition clean_destination (root : string) (f : gmap (list string) node)
  : Prop :=
  (∀ k c, k `prefix_of` key_of root → f !! k ≠ Some (NFile c))
  ∧ (∀ k, key_of root `prefix_of` k → k ≠ key_of root → f !! k = None).

(** The destination while the downloads go on: no regular file on the
    way to the root; below the root, the regular files are files of the
    run, each at its place with its content, and the directories are on
    the way to such places. *)
Definition disk_ok (root runId : string) (F : list remote_file)
    (f : gmap (list string) node) : Prop :=
  (∀ k c, k `prefix_of` key_of root → f !! k ≠ Some (NFile c))
  ∧ (∀ k c, f !! k = Some (NFile c) → key_of root `prefix_of` k →
       ∃ fd, fd ∈ F ∧ k = run_place root runId fd.1 ∧ c = fd.2)
  ∧ (∀ k, f !! k = Some NDir → key_of root `prefix_of` k →
       k = key_of root
       ∨ ∃ fd, fd ∈ F ∧ k `prefix_of` run_place root runId (removelast fd.1)).

(** A download goroutine that has left [downloadFile]. *)
Definition downloaded (t : task_pc) : bool :=
  match t with
  | TRelease _ | TReport _ | TFinish | TDone => true
  | _ => false
  end.

(** A download goroutine that has no error to report. *)
Definition unfailed (t : task_pc) : Prop :=
  match t with
  | TRelease (Some _) | TReport _ => False
  | _ => True
  end.

Definition tasks_ok (root runId : string) (F : list remote_file)
    (f : gmap (list string) node) (tasks : list (string * task_pc)) : Prop :=
  ∀ i id t, tasks !! i = Some (id, t) →
    ∃ fd, fd ∈ F ∧ id = file_id runId fd ∧ unfailed t
          ∧ (downloaded t = true →
             f !! run_place root runId fd.1 = Some (NFile fd.2)).

Definition todo_ok (runId : string) (F : list remote_file) (pc : main_pc) : Prop :=
  match pc with
  | PcWalk todo =>
      ∀ f, WNode f ∈ todo → IsFile f = true →
           ∃ fd, fd ∈ F ∧ ID f = file_id runId fd
  | _ => True
  end.

Definition before_repair (pc : main_pc) : bool :=
  match pc with
  | PcRepair | PcReturn => false
  | _ => true
  end.

(** What holds until the reconciliation has run, with a remote side that
    serves the files [F] and a destination that was clean. *)
Definition files_invariant (root runId : string) (F : list remote_file)
    (s : GState) : Prop :=
  before_repair (g_main s) = true →
  disk_ok root runId F (fs (g_world s))
  ∧ tasks_ok root runId F (fs (g_world s)) (g_tasks s)
  ∧ todo_ok runId F (g_main s).

(** ** Lemmas on strings and paths *)

Lemma Split_cons (s : string) : ∃ h t, strings.Split s slash = h :: t.
Proof.
  induction s as [| a s (h & t & IH)]; simpl; [by eauto |].
  destruct (Ascii.eqb a slash); [by eauto |]. rewrite IH. by eauto.
Qed.

Lemma Split_app_slash (a b : string) :
  strings.Split (a +:+ "/" +:+ b) slash
  = strings.Split a slash ++ strings.Split b slash.
Proof.
  change (a +:+ "/" +:+ b) with (a +:+ String slash b).
  induction a as [| c a IH].
  - reflexivity.
  - change (String c a +:+ String slash b) with (String c (a +:+ String slash b)).
    cbn [strings.Split]. rewrite IH.
    destruct (Ascii.eqb c slash); [done |].
    by destruct (Split_cons a) as (h & t & ->).
Qed.

Lemma Split_rooted (b : string) :
  strings.Split ("/" +:+ b) slash = "" :: strings.Split b slash.
Proof. reflexivity. Qed.

Lemma Split_Join (l : list string) :
  Forall no_slash l → l ≠ [] → strings.Split (strings.Join l "/") slash = l.
Proof.
  induction l as [| e l IH]; [done |]. intros [He Hl]%Forall_cons _.
  destruct l as [| e2 l]; [exact He |].
  change (strings.Join (e :: e2 :: l) "/")
    with (e +:+ "/" +:+ strings.Join (e2 :: l) "/").
  rewrite Split_app_slash, IH by done. by rewrite He.
Qed.

Lemma Split_no_slash (s : string) : Forall no_slash (strings.Split s slash).
Proof.
  induction s as [| a s IH]; [by repeat constructor |].
  cbn [strings.Split]. destruct (Ascii.eqb a slash) eqn:Ha.
  - by constructor.
  - destruct (Split_cons s) as (h & t & Hs). rewrite Hs in IH |- *.
    apply Forall_cons in IH as [Hh Ht]. constructor; [| done].
    unfold no_slash in Hh |- *. cbn [strings.Split]. by rewrite Ha, Hh.
Qed.

Lemma no_slash_not_rooted (s : string) : no_slash s → path.is_rooted s = false.
Proof.
  destruct s as [| a s]; [done |]. unfold no_slash. cbn [strings.Split path.is_rooted].
  destruct (Ascii.eqb a slash); [| done].
  intros [=].
Qed.

Lemma is_rooted_app (a b : string) :
  a ≠ "" → path.is_rooted (a +:+ b) = path.is_rooted a.
Proof. by destruct a. Qed.

Lemma Join_rooted (e : string) (l : list string) (sep : string) :
  e ≠ "" → path.is_rooted (strings.Join (e :: l) sep) = path.is_rooted e.
Proof.
  intros He. destruct l; [done |].
  change (strings.Join (e :: s :: l) sep)
    with (e +:+ sep +:+ strings.Join (s :: l) sep).
  by apply is_rooted_app.
Qed.

Lemma Join_empty (l : list string) :
  Forall (λ e, e ≠ "") l → strings.Join l "/" = "" → l = [].
Proof.
  destruct l as [| e l]; [done |]. intros [He _]%Forall_cons.
  destruct l; [done |].
  change (strings.Join (e :: s :: l) "/")
    with (e +:+ "/" +:+ strings.Join (s :: l) "/").
  by destruct e.
Qed.

(** *** The shape of a cleaned path *)

Lemma clean_step_plain rooted out n :
  plain_name n → path.clean_step rooted out n = n :: out.
Proof.
  intros (_ & H1 & H2 & H3). unfold path.clean_step.
  by rewrite (proj2 (String.eqb_neq _ _) H1), (proj2 (String.eqb_neq _ _) H2),
    (proj2 (String.eqb_neq _ _) H3).
Qed.

Lemma clean_fold_plain rooted (names out : list string) :
  Forall plain_name names →
  fold_left (path.clean_step rooted) names out = rev names ++ out.
Proof.
  revert out. induction names as [| n names IH]; intros out; [done |].
  intros [Hn Hnames]%Forall_cons. cbn [fold_left rev].
  rewrite clean_step_plain, IH, <- app_assoc by done. done.
Qed.

Lemma clean_step_stack rooted out e :
  no_slash e → clean_stack rooted out → clean_stack rooted (path.clean_step rooted out e).
Proof.
  intros He (names & k & -> & Hnames & Hk). unfold path.clean_step.
  destruct (String.eqb_spec e "") as [| He1]; [by exists names, k |].
  destruct (String.eqb_spec e ".") as [| He2]; [by exists names, k |].
  destruct (String.eqb_spec e "..") as [-> | Hdd].
  - destruct names as [| x names _] using rev_ind.
    + cbn [rev app]. destruct k as [| k]; cbn [replicate].
      * destruct rooted; [by exists [], 0 |].
        exists [], 1. by repeat split.
      * exists [], (S (S k)). split; [done |]. split; [done |].
        intros Hr. specialize (Hk Hr). done.
    + rewrite rev_unit. cbn [app].
      apply Forall_app in Hnames as [Hnames [Hx _]%Forall_cons].
      destruct Hx as (_ & _ & _ & Hx).
      rewrite (proj2 (String.eqb_neq _ _) Hx).
      by exists names, k.
  - exists (names ++ [e]), k. rewrite rev_unit. split; [done |].
    split; [| done]. apply Forall_app. split; [done |].
    by repeat constructor.
Qed.

Lemma clean_fold_stack rooted (es out : list string) :
  Forall no_slash es → clean_stack rooted out →
  clean_stack rooted (fold_left (path.clean_step rooted) es out).
Proof.
  revert out. induction es as [| e es IH]; intros out; [done |].
  intros [He Hes]%Forall_cons Hout. cbn [fold_left].
  by apply IH, clean_step_stack.
Qed.

Lemma clean_elems_shape (p : string) :
  ∃ names k, path.clean_elems p = replicate k ".." ++ names
             ∧ Forall plain_name names
             ∧ (path.is_rooted p = true → k = 0).
Proof.
  destruct (clean_fold_stack (path.is_rooted p) (strings.Split p slash) [])
    as (names & k & Hout & Hnames & Hk).
  - apply Split_no_slash.
  - by exists [], 0.
  - exists names, k. unfold path.clean_elems. rewrite Hout.
    rewrite rev_app_distr, rev_involutive.
    split; [| done]. f_equal.
    clear. induction k as [| k IH]; [done |].
    cbn [replicate rev]. rewrite IH.
    clear. induction k as [| k IH]; [done |]. cbn [replicate app]. by rewrite IH.
Qed.

Lemma dotdot_no_slash : no_slash "..".
Proof. reflexivity. Qed.

Lemma clean_fold_dotdots (k : nat) (out : list string) :
  out = [] ∨ (∃ t, out = ".." :: t) →
  fold_left (path.clean_step false) (replicate k "..") out
  = replicate k ".." ++ out.
Proof.
  revert out. induction k as [| k IH]; intros out Hout; [done |].
  cbn [replicate fold_left].
  assert (path.clean_step false out ".." = ".." :: out) as ->.
  { destruct Hout as [-> | (t & ->)]; reflexivity. }
  rewrite IH by eauto.
  change (".." :: out) with ([".."] ++ out).
  rewrite app_assoc. f_equal.
  clear. induction k as [| k IH]; [done |]. cbn [replicate app]. by rewrite IH.
Qed.

Lemma replicate_dotdot_rev (k : nat) :
  rev (replicate k "..") = replicate k "..".
Proof.
  induction k as [| k IH]; [done |]. cbn [replicate rev]. rewrite IH.
  clear. induction k as [| k IH]; [done |]. cbn [replicate app]. by rewrite IH.
Qed.

(** Cleaning the elements of a cleaned path changes nothing. *)
Lemma clean_fold_clean rooted (names : list string) (k : nat) :
  Forall plain_name names → (rooted = true → k = 0) →
  rev (fold_left (path.clean_step rooted) (replicate k ".." ++ names) [])
  = replicate k ".." ++ names.
Proof.
  intros Hnames Hk. rewrite fold_left_app.
  assert (fold_left (path.clean_step rooted) (replicate k "..") []
          = replicate k "..") as ->.
  { destruct rooted.
    - by rewrite Hk.
    - rewrite clean_fold_dotdots by eauto. apply app_nil_r. }
  rewrite clean_fold_plain by done.
  by rewrite rev_app_distr, rev_involutive, replicate_dotdot_rev.
Qed.

Lemma plain_no_slash names : Forall plain_name names → Forall no_slash names.
Proof. intros H. eapply Forall_impl; [exact H |]. by intros n [? _]. Qed.

Lemma plain_nonempty names : Forall plain_name names → Forall (λ e, e ≠ "") names.
Proof. intros H. eapply Forall_impl; [exact H |]. by intros n (_ & ? & _). Qed.

Lemma clean_shape_no_slash (names : list string) (k : nat) :
  Forall plain_name names → Forall no_slash (replicate k ".." ++ names).
Proof.
  intros Hnames. apply Forall_app. split; [| by apply plain_no_slash].
  apply Forall_replicate, dotdot_no_slash.
Qed.

Lemma clean_shape_nonempty (names : list string) (k : nat) :
  Forall plain_name names → Forall (λ e, e ≠ "") (replicate k ".." ++ names).
Proof.
  intros Hnames. apply Forall_app. split; [| by apply plain_nonempty].
  by apply Forall_replicate.
Qed.

Lemma Clean_rooted (p : string) : path.is_rooted (path.Clean p) = path.is_rooted p.
Proof.
  unfold path.Clean. destruct (path.is_rooted p) eqn:Hr; [done |].
  destruct (clean_elems_shape p) as (names & k & Hel & Hnames & _).
  destruct (String.eqb_spec (strings.Join (path.clean_elems p) "/") "") as [| Hne];
    [done |].
  rewrite Hel in Hne |- *.
  destruct (replicate k ".." ++ names) as [| e l] eqn:Hl; [done |].
  pose proof (clean_shape_no_slash names k Hnames) as Hns.
  pose proof (clean_shape_nonempty names k Hnames) as Hnn.
  rewrite Hl in Hns, Hnn.
  apply Forall_cons in Hns as [He _]. apply Forall_cons in Hnn as [Hee _].
  rewrite Join_rooted by done. by apply no_slash_not_rooted.
Qed.

Lemma clean_elems_Clean (p : string) :
  path.clean_elems (path.Clean p) = path.clean_elems p.
Proof.
  unfold path.clean_elems at 1. rewrite Clean_rooted.
  destruct (clean_elems_shape p) as (names & k & Hel & Hnames & Hk).
  pose proof (clean_shape_no_slash names k Hnames) as Hns.
  pose proof (clean_shape_nonempty names k Hnames) as Hnn.
  unfold path.Clean. rewrite Hel.
  destruct (decide (replicate k ".." ++ names = [])) as [Hnil | Hnil].
  - rewrite Hnil. by destruct (path.is_rooted p).
  - destruct (path.is_rooted p) eqn:Hr.
    + rewrite Split_rooted, Split_Join by done. cbn [fold_left path.clean_step String.eqb].
      by apply clean_fold_clean.
    + destruct (String.eqb_spec (strings.Join (replicate k ".." ++ names) "/") "")
        as [He | _].
      { by apply Join_empty in He. }
      rewrite Split_Join by done. by apply clean_fold_clean.
Qed.

(** *** Joining plain names to a path *)

Lemma path_Join_plain (p : string) (names : list string) :
  Forall plain_name names → names ≠ [] →
  path.Join (p :: names)
  = path.Clean (if decide (p = "") then strings.Join names "/"
                else p +:+ "/" +:+ strings.Join names "/").
Proof.
  intros Hnames Hne. unfold path.Join.
  assert (filter (λ e, e ≠ "") names = names) as Hf.
  { clear Hne. induction Hnames as [| n names Hn _ IH]; [done |].
    rewrite filter_cons_True by apply Hn. by rewrite IH. }
  destruct (decide (p = "")) as [-> | Hp].
  - rewrite filter_cons_False by (by intros ?). rewrite Hf.
    by destruct names.
  - rewrite filter_cons_True by done. rewrite Hf.
    by destruct names.
Qed.

Lemma clean_elems_empty : path.clean_elems "" = [].
Proof. reflexivity. Qed.

Lemma clean_elems_plain (names : list string) :
  Forall plain_name names → names ≠ [] →
  path.clean_elems (strings.Join names "/") = names
  ∧ path.is_rooted (strings.Join names "/") = false.
Proof.
  intros Hnames Hne. unfold path.clean_elems.
  rewrite Split_Join by (by try apply plain_no_slash).
  rewrite clean_fold_plain, app_nil_r, rev_involutive by done.
  split; [done |]. destruct names as [| n names]; [done |].
  apply Forall_cons in Hnames as [(Hn & Hn' & _) _].
  rewrite Join_rooted by done. by apply no_slash_not_rooted.
Qed.

Lemma clean_elems_slash_plain (p : string) (names : list string) :
  p ≠ "" → Forall plain_name names → names ≠ [] →
  path.clean_elems (p +:+ "/" +:+ strings.Join names "/")
  = path.clean_elems p ++ names.
Proof.
  intros Hp Hnames Hne. unfold path.clean_elems.
  rewrite is_rooted_app, Split_app_slash by done.
  rewrite Split_Join by (by try apply plain_no_slash).
  rewrite fold_left_app, clean_fold_plain by done.
  by rewrite rev_app_distr, rev_involutive.
Qed.

(** The elements of [path.Join(p, names...)] are those of [p] and then
    the names. *)
Lemma clean_elems_Join (p : string) (names : list string) :
  Forall plain_name names → names ≠ [] →
  path.clean_elems (path.Join (p :: names)) = path.clean_elems p ++ names
  ∧ path.is_rooted (path.Join (p :: names)) = path.is_rooted p.
Proof.
  intros Hnames Hne. rewrite path_Join_plain, clean_elems_Clean, Clean_rooted by done.
  destruct (decide (p = "")) as [-> | Hp].
  - by apply clean_elems_plain.
  - rewrite clean_elems_slash_plain by done. split; [done |].
    by apply is_rooted_app.
Qed.

Lemma key_of_Join (p : string) (names : list string) :
  Forall plain_name names → names ≠ [] →
  key_of (path.Join (p :: names)) = key_of p ++ names.
Proof.
  intros Hnames Hne. unfold key_of.
  destruct (clean_elems_Join p names Hnames Hne) as [-> ->].
  rewrite fold_left_app, clean_fold_plain by done.
  by rewrite rev_app_distr, rev_involutive.
Qed.

Lemma key_of_Clean (p : string) : key_of (path.Clean p) = key_of p.
Proof. unfold key_of. by rewrite clean_elems_Clean, Clean_rooted. Qed.

Lemma walk_path_snoc root rel name :
  walk_path root (rel ++ [name]) = path.Join [walk_path root rel; name].
Proof. unfold walk_path. by rewrite fold_left_app. Qed.

Lemma walk_path_elems (root : string) (rel : list string) :
  Forall plain_name rel →
  path.clean_elems (walk_path root rel) = path.clean_elems root ++ rel
  ∧ path.is_rooted (walk_path root rel) = path.is_rooted root.
Proof.
  induction rel as [| name rel IH] using rev_ind; intros Hrel.
  - by rewrite app_nil_r.
  - apply Forall_app in Hrel as [Hrel Hname].
    rewrite walk_path_snoc.
    destruct (clean_elems_Join (walk_path root rel) [name]) as [-> ->];
      [done | done |].
    destruct (IH Hrel) as [-> ->]. by rewrite app_assoc.
Qed.

Lemma key_of_walk_path (root : string) (rel : list string) :
  Forall plain_name rel → key_of (walk_path root rel) = key_of root ++ rel.
Proof.
  intros Hrel. unfold key_of at 1.
  destruct (walk_path_elems root rel Hrel) as [-> ->].
  rewrite fold_left_app, clean_fold_plain by done.
  by rewrite rev_app_distr, rev_involutive.
Qed.

(** *** The last element of a path *)

Lemma Join_Split (s : string) : strings.Join (strings.Split s slash) "/" = s.
Proof.
  induction s as [| a s IH]; [done |]. cbn [strings.Split].
  destruct (Split_cons s) as (h & t & Hs). rewrite Hs in IH |- *.
  destruct (Ascii.eqb_spec a slash) as [-> | Ha].
  - change (strings.Join ("" :: h :: t) "/")
      with ("" +:+ "/" +:+ strings.Join (h :: t) "/").
    by rewrite IH.
  - destruct t as [| h2 t].
    + simpl in IH |- *. by rewrite IH.
    + change (strings.Join (String a h :: h2 :: t) "/")
        with (String a (h +:+ "/" +:+ strings.Join (h2 :: t) "/")).
      change (strings.Join (h :: h2 :: t) "/")
        with (h +:+ "/" +:+ strings.Join (h2 :: t) "/") in IH.
      by rewrite IH.
Qed.

Lemma strip_trailing_id (s : string) :
  s = "" ∨ List.last (strings.Split s slash) "" ≠ "" → path.strip_trailing s = s.
Proof.
  induction s as [| a s IH]; [done |]. intros [| Hlast]; [done |].
  cbn [path.strip_trailing].
  assert (s = "" ∨ List.last (strings.Split s slash) "" ≠ "") as Hs.
  { destruct (decide (s = "")) as [| Hne]; [by left | right].
    cbn [strings.Split] in Hlast.
    destruct (Split_cons s) as (h & t & Hsplit). rewrite Hsplit in Hlast |- *.
    destruct (Ascii.eqb a slash); [exact Hlast |].
    destruct t as [| h2 t]; [| exact Hlast].
    pose proof (Join_Split s) as Hj. rewrite Hsplit in Hj. simpl in Hj.
    simpl. congruence. }
  rewrite (IH Hs).
  destruct (Ascii.eqb_spec a slash) as [-> | Ha]; [| done].
  destruct (String.eqb_spec s "") as [-> | Hne]; [| done].
  by simpl in Hlast.
Qed.

Lemma Base_last (s : string) :
  List.last (strings.Split s slash) "" ≠ "" →
  path.Base s = List.last (strings.Split s slash) "".
Proof.
  intros Hlast. unfold path.Base.
  destruct (String.eqb_spec s "") as [-> | Hne]; [done |].
  rewrite strip_trailing_id by eauto.
  destruct (String.eqb_spec s ""); done.
Qed.

Lemma Base_Join (l : list string) (n : string) :
  Forall no_slash l → no_slash n → n ≠ "" →
  path.Base (strings.Join (l ++ [n]) "/") = n.
Proof.
  intros Hl Hn Hne.
  assert (strings.Split (strings.Join (l ++ [n]) "/") slash = l ++ [n]) as Hs.
  { apply Split_Join; [| by destruct l].
    apply Forall_app. split; [done |]. by repeat constructor. }
  rewrite Base_last; rewrite Hs, last_last; done.
Qed.

Lemma Base_Clean (p : string) (l : list string) (n : string) :
  path.clean_elems p = l ++ [n] → path.Base (path.Clean p) = n.
Proof.
  intros Hel.
  destruct (clean_elems_shape p) as (names & k & Hshape & Hnames & _).
  pose proof (clean_shape_no_slash names k Hnames) as Hns.
  pose proof (clean_shape_nonempty names k Hnames) as Hnn.
  rewrite <- Hshape, Hel in Hns, Hnn.
  assert (strings.Join (l ++ [n]) "/" ≠ "") as Hj.
  { intros Hj. apply Join_empty in Hj; [by destruct l | exact Hnn]. }
  apply Forall_app in Hns as [Hl [Hn _]%Forall_cons].
  apply Forall_app in Hnn as [_ [Hne _]%Forall_cons].
  unfold path.Clean. rewrite Hel.
  destruct (path.is_rooted p).
  - rewrite Base_last.
    + rewrite Split_rooted, Split_Join; [| | by destruct l].
      * change ("" :: l ++ [n]) with (("" :: l) ++ [n]). by rewrite last_last.
      * apply Forall_app. split; [done |]. by repeat constructor.
    + rewrite Split_rooted, Split_Join; [| | by destruct l].
      * change ("" :: l ++ [n]) with (("" :: l) ++ [n]). by rewrite last_last.
      * apply Forall_app. split; [done |]. by repeat constructor.
  - destruct (String.eqb_spec (strings.Join (l ++ [n]) "/") ""); [done |].
    by apply Base_Join.
Qed.

Lemma Base_walk_path (root : string) (rel : list string) (name : string) :
  Forall plain_name (rel ++ [name]) →
  path.Base (walk_path root (rel ++ [name])) = name.
Proof.
  intros Hrel. rewrite walk_path_snoc.
  apply Forall_app in Hrel as [Hrel Hname].
  rewrite path_Join_plain by done.
  destruct (clean_elems_Join (walk_path root rel) [name]) as [Hel _];
    [done | done |].
  rewrite path_Join_plain, clean_elems_Clean in Hel by done.
  by apply Base_Clean in Hel.
Qed.

(** *** Relative paths *)

Lemma drop_common_app (c b t : list string) :
  path.drop_common (c ++ b) (c ++ t) = path.drop_common b t.
Proof.
  induction c as [| x c IH]; [done |]. cbn [app path.drop_common].
  by rewrite String.eqb_refl.
Qed.

Lemma drop_common_split (b t : list string) :
  ∃ c, b = c ++ (path.drop_common b t).1 ∧ t = c ++ (path.drop_common b t).2.
Proof.
  revert t. induction b as [| x b IH]; intros t; [by exists [] |].
  destruct t as [| y t]; [by exists [] |]. cbn [path.drop_common].
  destruct (String.eqb_spec x y) as [-> | Hne]; [| by exists []].
  destruct (IH t) as (c & Hb & Ht). exists (y :: c). simpl. by rewrite <- Hb, <- Ht.
Qed.




(** ** Proofs *)

(** *** Root discovery *)

Lemma expectedFolders_lookup (c : string) :
  expectedFolders !! c
  = if bool_decide (c ∈ expected_categories) then Some false else None.
Proof.
  case_bool_decide as Hc.
  - unfold expected_categories in Hc.
    repeat (apply elem_of_cons in Hc as [-> | Hc]; [reflexivity |]).
    by apply elem_of_nil in Hc.
  - apply not_elem_of_list_to_map_1. simpl. exact Hc.
Qed.

Lemma mark_found_lookup (m : gmap string bool) (f : ArtifactTree) (c : string) :
  mark_found m f !! c
  = (λ b : bool, b || String.eqb (Name f) c) <$> m !! c.
Proof.
  unfold mark_found.
  destruct (String.eqb_spec (Name f) c) as [-> | Hne].
  - destruct (m !! c) as [b |] eqn:Hm; simpl.
    + rewrite lookup_insert_eq. by rewrite orb_true_r.
    + by rewrite Hm.
  - destruct (m !! Name f) eqn:Hf.
    + rewrite lookup_insert_ne by done.
      destruct (m !! c); simpl; [by rewrite orb_false_r | done].
    + destruct (m !! c); simpl; [by rewrite orb_false_r | done].
Qed.

Lemma fold_mark_found_lookup (l : list ArtifactTree) (m : gmap string bool)
    (c : string) :
  fold_left mark_found l m !! c
  = (λ b : bool, b || existsb (λ f, String.eqb (Name f) c) l) <$> m !! c.
Proof.
  revert m. induction l as [| f l IH]; intros m; simpl.
  - destruct (m !! c); simpl; [by rewrite orb_false_r | done].
  - rewrite IH, mark_found_lookup.
    destruct (m !! c); simpl; [by rewrite orb_assoc | done].
Qed.

Lemma allFound_true (m : gmap string bool) :
  allFound m = true ↔ ∀ c b, m !! c = Some b → b = true.
Proof.
  unfold allFound. rewrite forallb_forall. split.
  - intros H c b Hc. apply (H (c, b)).
    apply list_elem_of_In, elem_of_map_to_list. exact Hc.
  - intros H [c b] Hin. apply (H c).
    apply elem_of_map_to_list, list_elem_of_In. exact Hin.
Qed.

Lemma observed_S obs n c :
  observed obs (S n) c
  = observed obs n c
    || match obs n with
       | Some l => existsb (λ f, String.eqb (Name f) c) l
       | None => false
       end.
Proof.
  unfold observed. rewrite seq_S, existsb_app. simpl.
  by rewrite orb_false_r.
Qed.

Lemma checklist_start obs : checklist_of obs 0 expectedFolders.
Proof. intros c. rewrite expectedFolders_lookup. by case_bool_decide. Qed.

Lemma checklist_step obs n m l :
  checklist_of obs n m → obs n = Some l →
  checklist_of obs (S n) (fold_left mark_found l m).
Proof.
  intros Hm Hl c. rewrite fold_mark_found_lookup, Hm, observed_S, Hl.
  by case_bool_decide.
Qed.

Lemma checklist_allFound obs n m :
  checklist_of obs n m → allFound m = covered obs n.
Proof.
  intros Hm. apply eq_true_iff_eq.
  rewrite allFound_true. unfold covered. rewrite forallb_forall. split.
  - intros H c Hc. apply (H c). rewrite Hm.
    apply list_elem_of_In in Hc. by rewrite bool_decide_eq_true_2.
  - intros H c b. rewrite Hm. case_bool_decide as Hc; [| done].
    intros [= <-]. apply H, list_elem_of_In, Hc.
Qed.

Lemma covered_failed obs n : obs n = None → covered obs (S n) = covered obs n.
Proof.
  intros Hn. unfold covered. generalize expected_categories as l.
  induction l as [| c l IH]; simpl; [done |].
  by rewrite observed_S, Hn, orb_false_r, IH.
Qed.

Lemma first_from_ge P i n k : first_from P i n = Some k → i ≤ k < i + n.
Proof.
  revert i. induction n as [| n IH]; intros i; simpl; [done |].
  destruct (P i).
  - intros [= <-]. lia.
  - intros H%IH. lia.
Qed.

Lemma attempts_trace_S token folder k :
  attempts_trace token folder (S k)
  = [EvSleep 5; EvGet (artifact_url +:+ folder) token]
    ++ attempts_trace token folder k.
Proof. reflexivity. Qed.

Lemma getFolder_loop_spec token folder c0 n :
  ∀ i m lastRetrieved w,
    let obs := attempt_listing c0 token folder in
    clock w = c0 + i →
    checklist_of obs i m →
    covered obs i = false →
    lastRetrieved = last_obtained obs i →
    ∃ k, i + k ≤ i + n ∧
      (match first_from (λ j, covered obs (S j)) i n with
       | Some j => i + k = S j
       | None => k = n
       end) ∧
      getFolder_loop n token folder m lastRetrieved w
      = (Ret (match first_from (λ j, covered obs (S j)) i n with
              | Some j => default [] (obs j)
              | None => last_obtained obs (i + n)
              end),
         mkWorld (fs w) (trace w ++ attempts_trace token folder k)
                 (c0 + (i + k))).
Proof.
  induction n as [| n IH]; intros i m lastRetrieved w obs Hclock Hm Hcov Hlast.
  - exists 0. split; [lia |]. split; [done |]. simpl.
    unfold mret, M_ret. rewrite Nat.add_0_r, app_nil_r, <- Hclock, Hlast.
    by destruct w.
  - cbn [getFolder_loop first_from].
    unfold mbind, M_bind, Sleep, emit, SendGetRequest. cbn [fs trace clock].
    rewrite Hclock.
    pose proof (eq_refl : obs i = attempt_listing c0 token folder i) as Hobs.
    unfold attempt_listing in Hobs.
    set (w1 := mkWorld (fs w)
                 ((trace w ++ [EvSleep 5])
                  ++ [EvGet (artifact_url +:+ folder) token]) (S (c0 + i))).
    assert (Hrec : ∀ m' last',
               checklist_of obs (S i) m' → covered obs (S i) = false →
               last' = last_obtained obs (S i) →
               ∃ k, i + k ≤ i + S n ∧
                 (match first_from (λ j, covered obs (S j)) (S i) n with
                  | Some j => i + k = S j
                  | None => k = S n
                  end) ∧
                 getFolder_loop n token folder m' last' w1
                 = (Ret (match first_from (λ j, covered obs (S j)) (S i) n with
                         | Some j => default [] (obs j)
                         | None => last_obtained obs (i + S n)
                         end),
                    mkWorld (fs w)
                      (trace w ++ attempts_trace token folder k)
                      (c0 + (i + k)))).
    { intros m' last' Hm' Hcov' Hlast'.
      destruct (IH (S i) m' last' w1) as (k & Hk & Hfirst & Hrun);
        [simpl; lia | done | done | done |].
      exists (S k). split; [lia |]. split.
      - destruct (first_from _ (S i) n); lia.
      - rewrite Hrun. subst w1. cbn [fs trace].
        rewrite attempts_trace_S, <- !app_assoc.
        replace (S i + n) with (i + S n) by lia.
        replace (c0 + (S i + k)) with (c0 + (i + S k)) by lia.
        reflexivity. }
    destruct (transport (c0 + i) (artifact_url +:+ folder) token) as [r |].
    2:{ rewrite covered_failed, Hcov by done.
        apply Hrec.
        - intros c. rewrite observed_S, Hobs, orb_false_r. apply Hm.
        - by rewrite covered_failed.
        - simpl. by rewrite Hobs. }
    destruct (Body r) as [body |].
    2:{ rewrite covered_failed, Hcov by done.
        apply Hrec.
        - intros c. rewrite observed_S, Hobs, orb_false_r. apply Hm.
        - by rewrite covered_failed.
        - simpl. by rewrite Hobs. }
    pose proof (checklist_step obs i m _ Hm Hobs) as Hm'.
    rewrite (checklist_allFound _ _ _ Hm').
    destruct (covered obs (S i)) eqn:Hcov'.
    + exists 1. split; [lia |]. split; [lia |].
      subst w1. unfold mret, M_ret. rewrite Hobs. simpl.
      unfold attempts_trace. simpl. rewrite <- app_assoc.
      replace (c0 + (i + 1)) with (S (c0 + i)) by lia. reflexivity.
    + apply Hrec; [done | done |]. simpl. by rewrite Hobs.
Qed.

(** Whatever the transport does, root discovery returns, having only
    slept and sent requests. *)
Lemma getFolder_returns (token folder : string) (w : World) :
  ∃ roots k,
    getFolder token folder w
    = (Ret roots,
       mkWorld (fs w) (trace w ++ attempts_trace token folder k)
               (clock w + k)).
Proof.
  destruct (getFolder_loop_spec token folder (clock w) 5 0 expectedFolders [] w)
    as (k & _ & _ & Hrun); [lia | apply checklist_start | done | done |].
  unfold getFolder. rewrite Hrun. by eexists _, _.
Qed.

(** C2. Root discovery does what the specification says of it: at most
    five attempts, a sleep of the fixed interval before each of them, the
    first one included; it returns the listing of the first attempt by
    which every expected category has been observed, and, when the five
    attempts pass without that, the last listing obtained (none obtained:
    the empty one), an attempt that fails at transport level obtaining
    nothing and counting all the same. The file system is left alone. *)
Theorem getFolder_refines_discovery_spec (token folder : string) (w : World) :
  let spec := discovery_spec (attempt_listing (clock w) token folder) in
  getFolder token folder w
  = (Ret spec.2,
     mkWorld (fs w) (trace w ++ attempts_trace token folder spec.1)
             (clock w + spec.1))
  ∧ 1 ≤ spec.1 ≤ 5.
Proof.
  intros spec.
  destruct (getFolder_loop_spec token folder (clock w) 5 0 expectedFolders [] w)
    as (k & Hk & Hfirst & Hrun).
  - lia.
  - apply checklist_start.
  - reflexivity.
  - reflexivity.
  - unfold getFolder. rewrite Hrun. subst spec. unfold discovery_spec.
    destruct (first_from _ 0 5) as [j |] eqn:Hj.
    + apply first_from_ge in Hj. simpl in Hfirst. subst k. simpl. split; [done | lia].
    + subst k. simpl. split; [done | lia].
Qed.

(** *** Tree walker *)



Lemma started_app tr1 tr2 : started (tr1 ++ tr2) = started tr1 ++ started tr2.
Proof. apply omap_app. Qed.




(** A nil response to the listing of a folder: the walk panics. *)
Lemma walker_panics_on_nil_response fuel token folderID whereToSave w :
  transport (clock w) (artifact_url +:+ folderID) token = None →
  (getFoldersRecursively (S fuel) token folderID whereToSave w).1
  = Panicked nil_dereference.
Proof.
  intros Hnil. simpl. unfold mbind, M_bind, SendGetRequest. by rewrite Hnil.
Qed.

(** *** Directories *)

Lemma mkdir_all_mono f pre rest k n :
  f !! k = Some n → (mkdir_all f pre rest).1 !! k = Some n.
Proof.
  revert f pre. induction rest as [| x rest IH]; intros f pre Hk; [done |].
  cbn [mkdir_all]. destruct (f !! (pre ++ [x])) as [[c |] |] eqn:Hx.
  - done.
  - by apply IH.
  - apply IH. rewrite lookup_insert_ne; [done |]. congruence.
Qed.

Lemma mkdir_all_lookup f pre rest k n :
  (mkdir_all f pre rest).1 !! k = Some n →
  f !! k = Some n
  ∨ (f !! k = None ∧ n = NDir ∧ ∃ r, r ≠ [] ∧ r `prefix_of` rest ∧ k = pre ++ r).
Proof.
  revert f pre. induction rest as [| x rest IH]; intros f pre Hk; [by left |].
  cbn [mkdir_all] in Hk.
  assert (∀ r, r ≠ [] ∧ r `prefix_of` rest ∧ k = (pre ++ [x]) ++ r →
            ∃ r', r' ≠ [] ∧ r' `prefix_of` x :: rest ∧ k = pre ++ r') as Hpre.
  { intros r (Hr & Hpr & ->). exists (x :: r).
    split; [done |]. split; [by apply prefix_cons | by rewrite <- app_assoc]. }
  destruct (f !! (pre ++ [x])) as [[c |] |] eqn:Hx.
  - by left.
  - destruct (IH _ _ Hk) as [| (? & ? & r & Hr)]; [by left | right].
    split; [done |]. split; [done |]. by apply (Hpre r).
  - destruct (IH _ _ Hk) as [Hin | (Hnone & ? & r & Hr)].
    + destruct (decide (k = pre ++ [x])) as [-> | Hne].
      * rewrite lookup_insert_eq in Hin. right. split; [done |].
        split; [congruence |]. exists [x]. split; [done |]. split; [| done].
        by apply prefix_cons, prefix_nil.
      * rewrite lookup_insert_ne in Hin by done. by left.
    + right. destruct (decide (k = pre ++ [x])) as [-> | Hne].
      * by rewrite lookup_insert_eq in Hnone.
      * rewrite lookup_insert_ne in Hnone by done.
        split; [done |]. split; [done |]. by apply (Hpre r).
Qed.

Lemma mkdir_all_made f pre rest r :
  (mkdir_all f pre rest).2 = true → r ≠ [] → r `prefix_of` rest →
  (mkdir_all f pre rest).1 !! (pre ++ r) = Some NDir.
Proof.
  revert f pre r. induction rest as [| x rest IH]; intros f pre r Hok Hr Hpr.
  - by apply prefix_nil_inv in Hpr.
  - destruct r as [| y r]; [done |].
    apply prefix_cons_inv_1 in Hpr as Hy. subst y.
    apply prefix_cons_inv_2 in Hpr.
    cbn [mkdir_all] in Hok |- *.
    replace (pre ++ x :: r) with ((pre ++ [x]) ++ r) by by rewrite <- app_assoc.
    destruct (f !! (pre ++ [x])) as [[c |] |] eqn:Hx; [done | |].
    + destruct r as [| z r].
      * rewrite app_nil_r. by apply mkdir_all_mono.
      * by apply IH.
    + destruct r as [| z r].
      * rewrite app_nil_r. apply mkdir_all_mono, lookup_insert_eq.
      * by apply IH.
Qed.

Lemma mkdir_all_ok f pre rest :
  (∀ r c, r `prefix_of` rest → f !! (pre ++ r) ≠ Some (NFile c)) →
  (mkdir_all f pre rest).2 = true.
Proof.
  revert f pre. induction rest as [| x rest IH]; intros f pre Hfree; [done |].
  cbn [mkdir_all].
  assert (∀ f', (∀ k c, f' !! k = Some (NFile c) → f !! k = Some (NFile c)) →
            (mkdir_all f' (pre ++ [x]) rest).2 = true) as Hrec.
  { intros f' Hf'. apply IH. intros r c Hr Hfile.
    apply Hf' in Hfile. rewrite <- app_assoc in Hfile.
    by apply (Hfree (x :: r) c); [apply prefix_cons |]. }
  destruct (f !! (pre ++ [x])) as [[c |] |] eqn:Hx.
  - exfalso. apply (Hfree [x] c); [by apply prefix_cons, prefix_nil | done].
  - by apply Hrec.
  - apply Hrec. intros k c Hk.
    destruct (decide (k = pre ++ [x])) as [-> | Hne].
    + by rewrite lookup_insert_eq in Hk.
    + by rewrite lookup_insert_ne in Hk.
Qed.

Lemma mkdir_all_lookup_dir f rest :
  (mkdir_all f [] rest).2 = true →
  lookup_node (mkdir_all f [] rest).1 rest = Some NDir.
Proof.
  intros Hok. destruct rest as [| x rest]; [done |].
  cbn [lookup_node]. by apply (mkdir_all_made f [] (x :: rest) (x :: rest)).
Qed.

Lemma mkdir_all_other f rest k :
  ¬ k `prefix_of` rest → (mkdir_all f [] rest).1 !! k = f !! k.
Proof.
  intros Hk. destruct ((mkdir_all f [] rest).1 !! k) as [n |] eqn:Hn.
  - by destruct (mkdir_all_lookup _ _ _ _ _ Hn) as [| (_ & _ & r & _ & Hr & ->)].
  - destruct (f !! k) as [n |] eqn:Hf; [| done].
    apply (mkdir_all_mono f [] rest) in Hf. congruence.
Qed.

(** *** File materializer *)

Lemma Join_plain_nonempty (names : list string) :
  Forall plain_name names → names ≠ [] → strings.Join names "/" ≠ "".
Proof.
  intros Hnames Hne Hj. apply Join_empty in Hj; [done |]. by apply plain_nonempty.
Qed.

Lemma path_Join_two (p q : string) :
  path.Join [p; q]
  = if decide (p = "") then (if decide (q = "") then "" else path.Clean q)
    else if decide (q = "") then path.Clean p
         else path.Clean (p +:+ "/" +:+ q).
Proof.
  unfold path.Join. rewrite !filter_cons, filter_nil.
  destruct (decide (p = "")), (decide (q = "")); by repeat case_decide.
Qed.

Lemma local_path_plain (root : string) (segs : list string) :
  Forall plain_name segs → segs ≠ [] →
  key_of (local_dir root (strings.Join segs "/")) = key_of root ++ removelast segs
  ∧ key_of (local_path root (strings.Join segs "/")) = key_of root ++ segs.
Proof.
  intros Hsegs Hne. unfold local_path, local_dir.
  rewrite Split_Join by (by try apply plain_no_slash).
  destruct segs as [| n init _] using rev_ind; [done |].
  rewrite removelast_last, last_last.
  apply Forall_app in Hsegs as [Hinit Hn].
  assert (key_of (path.Join [root; strings.Join init "/"]) = key_of root ++ init)
    as Hdir.
  { destruct init as [| i init].
    - rewrite app_nil_r, path_Join_two. cbn [strings.Join].
      rewrite (decide_True (P := "" = "")) by done.
      case_decide as Hroot; [subst root; reflexivity |].
      rewrite decide_True by done.
      apply key_of_Clean.
    - rewrite <- key_of_Join by done. f_equal.
      rewrite (path_Join_plain root (i :: init)), path_Join_two by done.
      pose proof (Join_plain_nonempty (i :: init) Hinit ltac:(done)) as Hj.
      rewrite (decide_False (P := strings.Join (i :: init) "/" = "")) by exact Hj.
      by repeat case_decide. }
  split; [done |]. rewrite key_of_Join, Hdir by done. by rewrite app_assoc.
Qed.

Lemma downloadFile_empty token whereToSave w :
  downloadFile token "" whereToSave w = (Ret (Some "empty fileID provided"), w).
Proof. reflexivity. Qed.

Lemma downloadFile_unfold token fileID whereToSave :
  fileID ≠ "" →
  downloadFile token fileID whereToSave
  = (err ← MkdirAll (local_dir whereToSave fileID) ;
     match err with
     | Some e => mret (Some ("failed to create directory: " +:+ e))
     | None =>
         resp ← SendGetRequest (content_request fileID) token ;
         match resp with
         | None => panic nil_dereference
         | Some r =>
             match Body r with
             | None => panic nil_dereference
             | Some body =>
                 err ← Create (local_path whereToSave fileID) ;
                 match err with
                 | Some e => mret (Some ("got error while os.Create: " +:+ e))
                 | None =>
                     err ← Copy (local_path whereToSave fileID) body ;
                     match err with
                     | Some e => mret (Some ("error writing file: " +:+ e))
                     | None => mret None
                     end
                 end
             end
         end
     end).
Proof.
  intros Hne. unfold downloadFile.
  rewrite (proj2 (String.eqb_neq _ _) Hne).
  assert ((if decide (1 < length (strings.Split fileID slash))
           then strings.Join (removelast (strings.Split fileID slash)) "/"
           else "")
          = strings.Join (removelast (strings.Split fileID slash)) "/") as ->.
  { case_decide as Hlen; [done |].
    destruct (Split_cons fileID) as (h & t & Hs). rewrite Hs in Hlen |- *.
    destruct t; [done |]. simpl in Hlen. lia. }
  reflexivity.
Qed.



(** *** Prefixes *)

Lemma prefix_comparable {A} (k l1 l2 : list A) :
  k `prefix_of` l1 ++ l2 → k `prefix_of` l1 ∨ l1 `prefix_of` k.
Proof.
  revert k. induction l1 as [| x l1 IH]; intros k Hk; [right; apply prefix_nil |].
  destruct k as [| y k]; [left; apply prefix_nil |].
  simpl in Hk. apply prefix_cons_inv_1 in Hk as Hxy. subst y.
  apply prefix_cons_inv_2 in Hk. destruct (IH k Hk) as [H | H].
  - left. by apply prefix_cons.
  - right. by apply prefix_cons.
Qed.

Lemma prefix_app_inv {A} (l k1 k2 : list A) :
  l ++ k1 `prefix_of` l ++ k2 → k1 `prefix_of` k2.
Proof. intros [rest Hrest]. exists rest. rewrite <- app_assoc in Hrest. by apply app_inv_head in Hrest. Qed.

Lemma prefix_removelast {A} (l : list A) : removelast l `prefix_of` l.
Proof.
  destruct l as [| x l _] using rev_ind; [done |].
  rewrite removelast_last. by apply prefix_app_r.
Qed.

Lemma prefix_removelast_strict {A} (l : list A) :
  l ≠ [] → ¬ l `prefix_of` removelast l.
Proof.
  intros Hne Hp%prefix_length.
  destruct l as [| x l _] using rev_ind; [done |].
  rewrite removelast_last, length_app in Hp. simpl in Hp. lia.
Qed.

(** *** The nodes below a directory *)

Lemma below_Some (src k rel : list string) :
  below src k = Some rel ↔ k = src ++ rel ∧ rel ≠ [].
Proof.
  unfold below. case_decide as Hp.
  - destruct Hp as [r ->]. rewrite drop_app_length. split.
    + destruct r; [done |]. by intros [= <-].
    + intros [<-%app_inv_head Hne]. by destruct r.
  - split; [done |]. intros [-> _]. destruct Hp. by apply prefix_app_r.
Qed.

Lemma NoDup_omap_inj {A B} (f : A → option B) (l : list A) :
  (∀ x y z, f x = Some z → f y = Some z → x = y) →
  NoDup l → NoDup (omap f l).
Proof.
  intros Hinj. induction 1 as [| x l Hx _ IH]; [constructor |]. simpl.
  destruct (f x) as [z |] eqn:Hfx; [| done]. constructor; [| done].
  intros (y & Hy & Hfy)%list_elem_of_omap.
  by rewrite (Hinj _ _ _ Hfx Hfy) in Hx.
Qed.

Lemma elem_of_keys_below f src rel :
  rel ∈ keys_below f src ↔ rel ≠ [] ∧ is_Some (f !! (src ++ rel)).
Proof.
  unfold keys_below. rewrite merge_sort_Permutation, list_elem_of_omap. split.
  - intros (k & Hk & [-> Hne]%below_Some). split; [done |].
    apply list_elem_of_fmap in Hk as ([k' n] & -> & Hin).
    apply elem_of_map_to_list in Hin. by eexists.
  - intros [Hne [n Hn]]. exists (src ++ rel). split; [| by apply below_Some].
    apply list_elem_of_fmap. exists (src ++ rel, n).
    split; [done |]. by apply elem_of_map_to_list.
Qed.

Lemma NoDup_keys_below f src : NoDup (keys_below f src).
Proof.
  unfold keys_below. rewrite merge_sort_Permutation.
  apply NoDup_omap_inj; [| apply NoDup_fst_map_to_list].
  intros x y z [-> _]%below_Some [-> _]%below_Some. done.
Qed.

Lemma elem_of_subtree f src rel n :
  (rel, n) ∈ subtree f src ↔ rel ≠ [] ∧ f !! (src ++ rel) = Some n.
Proof.
  unfold subtree. rewrite list_elem_of_omap. split.
  - intros (r & [Hne _]%elem_of_keys_below & Hr).
    destruct (f !! (src ++ r)) eqn:Hf; simpl in Hr; [| done].
    by injection Hr as -> ->.
  - intros [Hne Hn]. exists rel. rewrite Hn. split; [| done].
    apply elem_of_keys_below. split; [done | by eexists].
Qed.

Lemma subtree_keys f src : (subtree f src).*1 `sublist_of` keys_below f src.
Proof.
  unfold subtree. induction (keys_below f src) as [| r l IH]; [done |]. simpl.
  destruct (f !! (src ++ r)); simpl; [by constructor | by constructor].
Qed.

Lemma NoDup_subtree f src : NoDup (subtree f src).*1.
Proof. eapply sublist_NoDup; [apply NoDup_keys_below | apply subtree_keys]. Qed.

(** *** The names in a directory *)

Lemma child_name_Some dir k name :
  child_name dir k = Some name ↔ k = dir ++ [name].
Proof.
  unfold child_name. destruct (below dir k) as [rel |] eqn:Hrel.
  - apply below_Some in Hrel as [-> Hne].
    destruct rel as [| x [| y rel]]; [done | |].
    + split; [by intros [= ->] | by intros [= ->]%app_inv_head].
    + split; [done | by intros [=]%app_inv_head].
  - split; [done |]. intros ->.
    assert (below dir (dir ++ [name]) = Some [name]) as H by by apply below_Some.
    congruence.
Qed.

Lemma elem_of_dir_names f dir name :
  name ∈ dir_names f dir ↔ is_Some (f !! (dir ++ [name])).
Proof.
  unfold dir_names. rewrite merge_sort_Permutation, list_elem_of_omap. split.
  - intros (k & Hk & ->%child_name_Some).
    apply list_elem_of_fmap in Hk as ([k' n] & -> & Hin).
    apply elem_of_map_to_list in Hin. by eexists.
  - intros [n Hn]. exists (dir ++ [name]). split; [| by apply child_name_Some].
    apply list_elem_of_fmap. exists (dir ++ [name], n).
    split; [done |]. by apply elem_of_map_to_list.
Qed.

Lemma NoDup_dir_names f dir : NoDup (dir_names f dir).
Proof.
  unfold dir_names. rewrite merge_sort_Permutation.
  apply NoDup_omap_inj; [| apply NoDup_fst_map_to_list].
  intros x y z ->%child_name_Some ->%child_name_Some. done.
Qed.

Lemma elem_of_read_dir f dir name n :
  (name, n) ∈ read_dir f dir ↔ f !! (dir ++ [name]) = Some n.
Proof.
  unfold read_dir. rewrite list_elem_of_omap. split.
  - intros (x & _ & Hx). destruct (f !! (dir ++ [x])) eqn:Hf; simpl in Hx; [| done].
    by injection Hx as -> ->.
  - intros Hn. exists name. rewrite Hn. split; [| done].
    apply elem_of_dir_names. by eexists.
Qed.

Lemma read_dir_names f dir : (read_dir f dir).*1 `sublist_of` dir_names f dir.
Proof.
  unfold read_dir. induction (dir_names f dir) as [| x l IH]; [done |]. simpl.
  destruct (f !! (dir ++ [x])); simpl; by constructor.
Qed.

Lemma NoDup_read_dir f dir : NoDup (read_dir f dir).*1.
Proof. eapply sublist_NoDup; [apply NoDup_dir_names | apply read_dir_names]. Qed.

(** *** The path to a node *)

Lemma stat_walk_found f pre rest n :
  stat_walk f pre rest = inl n →
  lookup_node f (pre ++ rest) = Some n
  ∧ ∀ p, p ≠ [] → p `prefix_of` rest → p ≠ rest → f !! (pre ++ p) = Some NDir.
Proof.
  revert pre. induction rest as [| x rest IH]; intros pre Hst.
  - cbn [stat_walk] in Hst. rewrite app_nil_r.
    destruct (lookup_node f pre) eqn:E; [| done]. injection Hst as ->.
    split; [done |]. by intros p Hp ->%prefix_nil_inv.
  - cbn [stat_walk] in Hst.
    destruct (f !! (pre ++ [x])) as [m |] eqn:Hx; [| done].
    destruct rest as [| y rest].
    + injection Hst as ->. split.
      * by destruct pre.
      * intros [| z p] Hp Hpre Hne; [done |].
        apply prefix_cons_inv_1 in Hpre as Hz. subst z.
        apply prefix_cons_inv_2, prefix_nil_inv in Hpre. by subst p.
    + destruct m as [c |]; [done |].
      destruct (IH (pre ++ [x]) Hst) as [Hfound Hdirs].
      rewrite <- app_assoc in Hfound. split; [done |].
      intros [| z p] Hp Hpre Hne; [done |].
      apply prefix_cons_inv_1 in Hpre as Hz. subst z.
      apply prefix_cons_inv_2 in Hpre.
      destruct p as [| z p]; [done |].
      replace (pre ++ x :: z :: p) with ((pre ++ [x]) ++ z :: p)
        by by rewrite <- app_assoc.
      apply Hdirs; [done | done | congruence].
Qed.

Lemma stat_walk_missing f pre rest :
  rest ≠ [] →
  (∀ p, p ≠ [] → p `prefix_of` rest → p ≠ rest → f !! (pre ++ p) = Some NDir) →
  f !! (pre ++ rest) = None →
  stat_walk f pre rest = inr ENOENT.
Proof.
  revert pre. induction rest as [| x rest IH]; intros pre Hne Hdirs Hnone; [done |].
  cbn [stat_walk]. destruct rest as [| y rest].
  - by rewrite Hnone.
  - rewrite (Hdirs [x]); [| done | by apply prefix_cons, prefix_nil | done].
    apply IH; [done | |].
    + intros p Hp Hpre Hne'. rewrite <- app_assoc. apply (Hdirs (x :: p)).
      * done.
      * by apply prefix_cons.
      * congruence.
    + by rewrite <- app_assoc.
Qed.

(** *** The copy of a tree *)

Lemma fcopy_keeps f src dest k n :
  f !! k = Some n → k ≠ dest → (fcopy f src dest).1 !! k = Some n.
Proof.
  intros Hk Hne. unfold fcopy.
  pose proof (mkdir_all_mono f [] (removelast dest) k n Hk) as Hf1.
  destruct (mkdir_all f [] (removelast dest)) as [f1 ok]. cbn [fst] in Hf1.
  destruct ok; [| done].
  destruct (lookup_node f1 dest) as [[c' |] |]; [| done |].
  all: destruct (<[dest := NFile []]> f1 !! src) as [[c |] |]; cbn [fst];
    by rewrite ?lookup_insert_ne.
Qed.

Lemma stays_refl f : stays f f.
Proof. intros k n Hk. by exists n. Qed.

Lemma stays_trans f1 f2 f3 : stays f1 f2 → stays f2 f3 → stays f1 f3.
Proof.
  intros H12 H23 k n Hk.
  destruct (H12 k n Hk) as (n2 & Hk2 & Hd2).
  destruct (H23 k n2 Hk2) as (n3 & Hk3 & Hd3).
  exists n3. split; [done |]. by intros ->%Hd2%Hd3.
Qed.

Lemma stays_mkdir_all f pre rest : stays f (mkdir_all f pre rest).1.
Proof. intros k n Hk. exists n. split; [by apply mkdir_all_mono | done]. Qed.

Lemma stays_fcopy f src dest : stays f (fcopy f src dest).1.
Proof.
  intros k n Hk. destruct (decide (k = dest)) as [-> | Hne].
  2:{ exists n. split; [by apply fcopy_keeps | done]. }
  unfold fcopy.
  pose proof (mkdir_all_mono f [] (removelast dest) dest n Hk) as Hf1.
  destruct (mkdir_all f [] (removelast dest)) as [f1 ok]. cbn [fst] in Hf1.
  destruct ok; [| by exists n].
  assert (lookup_node f1 dest = Some NDir ∨ lookup_node f1 dest = Some n) as Hl.
  { destruct dest; [by left | by right]. }
  destruct (lookup_node f1 dest) as [[c' |] |] eqn:E; [| by exists n |].
  - destruct Hl as [[=] | [= <-]].
    destruct (<[dest := NFile []]> f1 !! src) as [[c |] |]; cbn [fst];
      rewrite lookup_insert_eq; by eexists.
  - by destruct Hl.
Qed.

Lemma copy_fold_failed copy src dest L st :
  st.2 = false → fold_left (copy_step copy src dest) L st = st.
Proof.
  revert st. induction L as [| e L IH]; intros st Hst; [done |].
  cbn [fold_left]. unfold copy_step at 2. rewrite Hst. by apply IH.
Qed.

Lemma copy_fold_ok copy src dest L st :
  (fold_left (copy_step copy src dest) L st).2 = true → st.2 = true.
Proof.
  intros Hok. destruct (st.2) eqn:Hst; [done |].
  by rewrite copy_fold_failed, Hst in Hok.
Qed.

Lemma stays_copy_node fuel f src dest info :
  stays f (copy_node fuel f src dest info).1.
Proof.
  revert f src dest info. induction fuel as [| fuel IH]; intros f src dest info.
  - destruct info; [apply stays_fcopy | apply stays_refl].
  - destruct info; [apply stays_fcopy |]. cbn [copy_node].
    pose proof (stays_mkdir_all f [] dest) as Hmk.
    destruct (mkdir_all f [] dest) as [f0 ok]. cbn [fst] in Hmk.
    destruct ok; [| done].
    assert (∀ L st, stays f st.1 →
              stays f (fold_left (copy_step (copy_node fuel) src dest) L st).1)
      as Hfold.
    { induction L as [| e L IHL]; intros st Hst; [done |].
      cbn [fold_left]. apply IHL. unfold copy_step. destruct st.2; [| done].
      eapply stays_trans; [exact Hst | apply IH]. }
    by apply Hfold.
Qed.

Lemma stays_copy_tree f src dest : stays f (copy_tree f src dest).1.
Proof.
  unfold copy_tree. destruct (stat_walk f [] src); [| apply stays_refl].
  apply stays_copy_node.
Qed.

Lemma copy_tree_dom f src dest k :
  is_Some (f !! k) → is_Some ((copy_tree f src dest).1 !! k).
Proof.
  intros [n Hk]. destruct (stays_copy_tree f src dest k n Hk) as (n' & Hn' & _).
  by exists n'.
Qed.

(** A copy to [dest] leaves alone what is neither below [dest] nor on
    the way to it. *)
Lemma fcopy_other f src dest k :
  ¬ k `prefix_of` dest → (fcopy f src dest).1 !! k = f !! k.
Proof.
  intros Hk. unfold fcopy.
  pose proof (mkdir_all_other f (removelast dest) k) as Hf1.
  destruct (mkdir_all f [] (removelast dest)) as [f1 ok]. cbn [fst] in Hf1.
  rewrite <- Hf1.
  2:{ intros Hp. apply Hk. etrans; [exact Hp | apply prefix_removelast]. }
  destruct ok; [| done].
  assert (k ≠ dest) as Hne by by intros ->.
  destruct (lookup_node f1 dest) as [[c' |] |]; [| done |].
  all: destruct (<[dest := NFile []]> f1 !! src) as [[c |] |]; cbn [fst];
    by rewrite ?lookup_insert_ne.
Qed.

Lemma copy_node_outside fuel f src dest info k :
  ¬ dest `prefix_of` k → ¬ k `prefix_of` dest →
  (copy_node fuel f src dest info).1 !! k = f !! k.
Proof.
  revert f src dest info.
  induction fuel as [| fuel IH]; intros f src dest info Hbelow Hway.
  - destruct info; [by apply fcopy_other | done].
  - destruct info; [by apply fcopy_other |]. cbn [copy_node].
    pose proof (mkdir_all_other f dest k Hway) as Hmk.
    destruct (mkdir_all f [] dest) as [f0 ok]. cbn [fst] in Hmk.
    destruct ok; [| done]. rewrite <- Hmk.
    assert (∀ L st,
              (fold_left (copy_step (copy_node fuel) src dest) L st).1 !! k
              = st.1 !! k) as Hfold.
    { induction L as [| e L IHL]; intros st; [done |].
      cbn [fold_left]. rewrite IHL. unfold copy_step. destruct st.2; [| done].
      apply IH.
      - intros Hp. apply Hbelow. etrans; [| exact Hp]. by apply prefix_app_r.
      - intros Hp. by destruct (prefix_comparable _ _ _ Hp). }
    by rewrite Hfold.
Qed.

Lemma copy_tree_outside f src dest k :
  ¬ dest `prefix_of` k → ¬ k `prefix_of` dest →
  (copy_tree f src dest).1 !! k = f !! k.
Proof.
  intros Hbelow Hway. unfold copy_tree.
  destruct (stat_walk f [] src); [| done]. by apply copy_node_outside.
Qed.

(** *** The depth of a copy *)

Lemma height_lookup f : no_deeper (height f) f.
Proof.
  intros k [n Hk]. unfold height. apply max_list_elem_of_le.
  apply list_elem_of_fmap. exists k. split; [done |].
  apply list_elem_of_fmap. exists (k, n). split; [done |].
  by apply elem_of_map_to_list.
Qed.

Lemma no_deeper_mkdir_all h g d :
  no_deeper h g → length d ≤ h → no_deeper h (mkdir_all g [] d).1.
Proof.
  intros Hg Hd k [n Hk].
  destruct (mkdir_all_lookup _ _ _ _ _ Hk) as [Hold | (_ & _ & r & _ & Hr & ->)].
  - apply Hg. by eexists.
  - apply prefix_length in Hr. cbn [app]. lia.
Qed.

Lemma no_deeper_fcopy h g s d :
  no_deeper h g → length d ≤ h → no_deeper h (fcopy g s d).1.
Proof.
  intros Hg Hd. unfold fcopy.
  assert (no_deeper h (mkdir_all g [] (removelast d)).1) as Hg1.
  { apply no_deeper_mkdir_all; [done |].
    pose proof (prefix_length _ _ (prefix_removelast d)). lia. }
  destruct (mkdir_all g [] (removelast d)) as [f1 ok]. cbn [fst] in Hg1.
  destruct ok; [| done].
  assert (∀ n g', no_deeper h g' → no_deeper h (<[d := n]> g')) as Hins.
  { intros n g' Hg' k [m Hk]. destruct (decide (k = d)) as [-> | Hne]; [done |].
    rewrite lookup_insert_ne in Hk by done. apply Hg'. by eexists. }
  destruct (lookup_node f1 d) as [[c' |] |]; [| done |].
  all: destruct (<[d := NFile []]> f1 !! s) as [[c |] |]; cbn [fst];
    by repeat apply Hins.
Qed.

(** When the destination is no deeper than the source, a copy is never
    deeper than the longest path: more fuel than that changes nothing. *)
Lemma copy_node_fuel h fuel1 fuel2 g s d info :
  no_deeper h g → length d ≤ length s → s = [] ∨ is_Some (g !! s) →
  h < length s + fuel1 → h < length s + fuel2 →
  copy_node fuel1 g s d info = copy_node fuel2 g s d info
  ∧ no_deeper h (copy_node fuel1 g s d info).1.
Proof.
  revert fuel2 g s d info.
  induction fuel1 as [| fuel1 IH]; intros fuel2 g s d info Hg Hd Hs H1 H2.
  all: assert (length s ≤ h) as Hsh
    by (destruct Hs as [-> | Hs]; [simpl; lia | by apply Hg]).
  all: destruct info as [c0 |];
    [split; [by destruct fuel2 | apply no_deeper_fcopy; [done | lia]] |].
  - lia.
  - destruct fuel2 as [| fuel2]; [lia |]. cbn [copy_node].
    assert (no_deeper h (mkdir_all g [] d).1) as Hg0
      by (apply no_deeper_mkdir_all; [done | lia]).
    destruct (mkdir_all g [] d) as [g0 ok]. cbn [fst] in Hg0.
    destruct ok; [| done].
    assert (∀ L st,
              no_deeper h st.1 →
              (∀ e, e ∈ L → is_Some (st.1 !! (s ++ [e.1]))) →
              fold_left (copy_step (copy_node fuel1) s d) L st
              = fold_left (copy_step (copy_node fuel2) s d) L st
              ∧ no_deeper h
                  (fold_left (copy_step (copy_node fuel1) s d) L st).1) as Hfold.
    { induction L as [| e L IHL]; intros st Hst HL; [done |].
      cbn [fold_left].
      assert (copy_step (copy_node fuel1) s d st e
              = copy_step (copy_node fuel2) s d st e
              ∧ no_deeper h (copy_step (copy_node fuel1) s d st e).1
              ∧ stays st.1 (copy_step (copy_node fuel1) s d st e).1)
        as (Heq & Hdeep & Hstays).
      { unfold copy_step. destruct st.2; [| by split; [| split; [| apply stays_refl]]].
        destruct (IH fuel2 st.1 (s ++ [e.1]) (d ++ [e.1]) e.2) as [Heq Hdeep].
        - done.
        - rewrite !length_app. simpl. lia.
        - right. apply HL, list_elem_of_here.
        - rewrite length_app. simpl. lia.
        - rewrite length_app. simpl. lia.
        - split; [done |]. split; [done | apply stays_copy_node]. }
      rewrite <- Heq. apply IHL; [done |].
      intros e' He'.
      destruct (HL e' ltac:(by apply list_elem_of_further)) as [n Hn].
      destruct (Hstays _ _ Hn) as (n' & Hn' & _). by eexists. }
    apply Hfold; [done |].
    intros [x n] Hx%elem_of_read_dir. by eexists.
Qed.

Lemma copy_tree_fuel f src dest info fuel :
  stat_walk f [] src = inl info → length dest ≤ length src →
  height f < fuel →
  copy_node fuel f src dest info = copy_tree f src dest.
Proof.
  intros Hstat Hd Hfuel. unfold copy_tree. rewrite Hstat.
  apply stat_walk_found in Hstat as [Hsrc _]. cbn [app] in Hsrc.
  apply (copy_node_fuel (height f)); [apply height_lookup | done | | lia | lia].
  destruct src; [by left | right]. by eexists.
Qed.

(** *** A copy that does not write into its source *)

Lemma prefix_snoc_inv {A} (k d : list A) (x : A) :
  k `prefix_of` d ++ [x] → k `prefix_of` d ∨ k = d ++ [x].
Proof.
  intros [r Hr]. destruct r as [| y r _] using rev_ind.
  - right. by rewrite app_nil_r in Hr.
  - left. rewrite app_assoc in Hr. apply app_inj_tail in Hr as [-> _].
    by apply prefix_app_r.
Qed.

Lemma mkdir_all_source_kept f src g d :
  source_kept f src g →
  (∀ k, k ≠ [] → k `prefix_of` d → g !! k = None → ¬ src `prefix_of` k) →
  source_kept f src (mkdir_all g [] d).1.
Proof.
  intros HA HPre k Hk. rewrite <- (HA k Hk).
  destruct ((mkdir_all g [] d).1 !! k) as [n |] eqn:E.
  - destruct (mkdir_all_lookup _ _ _ _ _ E) as [-> | (Hnone & _ & r & Hr & Hpre & ->)];
      [done |].
    by destruct (HPre r Hr Hpre Hnone).
  - destruct (g !! k) as [n |] eqn:G; [| done].
    apply (mkdir_all_mono g [] d) in G. congruence.
Qed.

Lemma fcopy_apart f src g s d c :
  source_kept f src g → src `prefix_of` s → ¬ src `prefix_of` d →
  f !! s = Some (NFile c) →
  source_kept f src (fcopy g s d).1
  ∧ ((fcopy g s d).2 = true → (fcopy g s d).1 !! d = Some (NFile c)).
Proof.
  intros HA Hs Hd Hfile. unfold fcopy.
  assert (source_kept f src (mkdir_all g [] (removelast d)).1) as HA1.
  { apply mkdir_all_source_kept; [done |]. intros k _ Hk _ Hsrc. apply Hd.
    etrans; [exact Hsrc |]. etrans; [exact Hk | apply prefix_removelast]. }
  destruct (mkdir_all g [] (removelast d)) as [f1 ok]. cbn [fst] in HA1.
  destruct ok; [| done].
  assert (s ≠ d) as Hsd by by intros ->.
  assert (<[d := NFile []]> f1 !! s = Some (NFile c)) as Hread.
  { rewrite lookup_insert_ne by done. by rewrite HA1. }
  assert (∀ n g', source_kept f src g' → source_kept f src (<[d := n]> g'))
    as Hins.
  { intros n g' HA' k Hk. rewrite lookup_insert_ne; [by apply HA' |].
    by intros ->. }
  destruct (lookup_node f1 d) as [[c' |] |]; [| done |].
  all: rewrite Hread; cbn [fst snd]; split;
    [by apply Hins, Hins | by rewrite lookup_insert_eq].
Qed.

Lemma copy_node_apart f src fuel g s d info :
  source_kept f src g → src `prefix_of` s → copied_apart f src s d →
  (∀ k, k ≠ [] → k `prefix_of` d → g !! k = None → ¬ src `prefix_of` k) →
  (∀ c0, info = NFile c0 →
         (∃ c, f !! s = Some (NFile c)) ∧ ¬ src `prefix_of` d) →
  let r := copy_node fuel g s d info in
  source_kept f src r.1
  ∧ (∀ k m, g !! k = Some m →
       (∀ rel c, entry_rel info rel → f !! (s ++ rel) = Some (NFile c) →
                 k ≠ d ++ rel) →
       r.1 !! k = Some m)
  ∧ (r.2 = true →
     ∀ rel c, entry_rel info rel → f !! (s ++ rel) = Some (NFile c) →
              dirs_between f s rel → r.1 !! (d ++ rel) = Some (NFile c)).
Proof.
  revert g s d info.
  assert (∀ fuel g s d c0,
            source_kept f src g → src `prefix_of` s →
            (∃ c, f !! s = Some (NFile c)) ∧ ¬ src `prefix_of` d →
            let r := copy_node fuel g s d (NFile c0) in
            source_kept f src r.1
            ∧ (∀ k m, g !! k = Some m →
                 (∀ rel c, entry_rel (NFile c0) rel →
                           f !! (s ++ rel) = Some (NFile c) → k ≠ d ++ rel) →
                 r.1 !! k = Some m)
            ∧ (r.2 = true →
               ∀ rel c, entry_rel (NFile c0) rel →
                        f !! (s ++ rel) = Some (NFile c) →
                        dirs_between f s rel →
                        r.1 !! (d ++ rel) = Some (NFile c))) as Hfilecase.
  { intros fuel' g s d c0 HA Hs [[c Hc] Hd] r.
    assert (r = fcopy g s d) as -> by by destruct fuel'.
    destruct (fcopy_apart f src g s d c HA Hs Hd Hc) as [HA1 Hthere].
    split; [done |]. split.
    - intros k m Hk Hprem. apply fcopy_keeps; [done |].
      specialize (Hprem [] c eq_refl). rewrite !app_nil_r in Hprem. by apply Hprem.
    - intros Hok rel c' -> Hc' _. rewrite app_nil_r in Hc' |- *.
      rewrite Hc in Hc'. injection Hc' as <-. by apply Hthere. }
  induction fuel as [| fuel IH]; intros g s d info HA Hs Hsep HPre Hinfo.
  - destruct info as [c0 |]; [apply Hfilecase; [done | done | by apply (Hinfo c0)] |].
    cbn [copy_node fst snd]. split; [done |]. by split.
  - destruct info as [c0 |]; [apply Hfilecase; [done | done | by apply (Hinfo c0)] |]. clear Hinfo.
    cbn [copy_node].
    pose proof (mkdir_all_source_kept f src g d HA HPre) as HA0.
    pose proof (mkdir_all_mono g [] d) as Hmono.
    pose proof (mkdir_all_made g [] d) as Hmade.
    destruct (mkdir_all g [] d) as [g0 ok]. cbn [fst snd] in HA0, Hmono, Hmade.
    destruct ok; cbn [fst snd].
    2:{ split; [done |]. split; [| done]. intros k m Hk _. by apply Hmono. }
    assert (∀ k, k ≠ [] → k `prefix_of` d → is_Some (g0 !! k)) as Hpres0.
    { intros k Hne Hk. exists NDir. by apply (Hmade k). }
    assert (∀ L st,
              NoDup L.*1 →
              (∀ x n, (x, n) ∈ L → f !! (s ++ [x]) = Some n) →
              source_kept f src st.1 →
              (∀ k, k ≠ [] → k `prefix_of` d → is_Some (st.1 !! k)) →
              let r := fold_left (copy_step (copy_node fuel) s d) L st in
              source_kept f src r.1
              ∧ (∀ k m, st.1 !! k = Some m →
                   (∀ x rel c, x ∈ L.*1 →
                               f !! (s ++ x :: rel) = Some (NFile c) →
                               k ≠ d ++ x :: rel) →
                   r.1 !! k = Some m)
              ∧ (r.2 = true →
                 ∀ x rel c, x ∈ L.*1 →
                            f !! (s ++ x :: rel) = Some (NFile c) →
                            dirs_between f s (x :: rel) →
                            r.1 !! (d ++ x :: rel) = Some (NFile c))) as Hfold.
    { induction L as [| [x n] L IHL]; intros st Hnd HL HAst Hpres.
      { cbn. split; [done |]. split; [by intros |].
        intros _ x rel c Hx. by apply elem_of_nil in Hx. }
      cbn [fold_left]. rewrite fmap_cons in Hnd |- *. cbn [fst] in Hnd |- *.
      apply NoDup_cons in Hnd as [Hx Hnd].
      destruct st.2 eqn:Hst.
      2:{ rewrite copy_fold_failed by (unfold copy_step; by rewrite Hst).
          unfold copy_step. rewrite Hst. split; [done |]. split; [by intros |].
          by rewrite Hst. }
      assert (copy_step (copy_node fuel) s d st (x, n)
              = copy_node fuel st.1 (s ++ [x]) (d ++ [x]) n) as ->
        by (unfold copy_step; by rewrite Hst).
      assert (f !! (s ++ [x]) = Some n) as Hn by apply HL, list_elem_of_here.
      assert (¬ src `prefix_of` d ++ [x]) as Hdx by (apply Hsep; [done | by eexists]).
      destruct (IH st.1 (s ++ [x]) (d ++ [x]) n) as (HA1 & Hkeep1 & Hfile1).
      { done. }
      { by apply prefix_app_r. }
      { intros rel Hne Hsome. rewrite <- !app_assoc in *. by apply (Hsep (x :: rel)). }
      { intros k Hne Hk Hnone.
        destruct (prefix_snoc_inv _ _ _ Hk) as [Hkd | ->]; [| done].
        destruct (Hpres k Hne Hkd) as [m Hm]. congruence. }
      { intros c0 ->. split; [by eexists | done]. }
      set (st1 := copy_node fuel st.1 (s ++ [x]) (d ++ [x]) n) in *.
      destruct (IHL st1 Hnd) as (HA2 & Hkeep2 & Hfile2).
      { intros x' n' Hx'. by apply HL, list_elem_of_further. }
      { done. }
      { intros k Hne Hk. destruct (Hpres k Hne Hk) as [m Hm]. exists m.
        apply Hkeep1; [done |]. intros rel c _ _ ->.
        apply prefix_length in Hk. rewrite !length_app in Hk. simpl in Hk. lia. }
      split; [exact HA2 |]. split.
      - intros k m Hk Hprem. apply Hkeep2.
        + apply Hkeep1; [done |]. intros rel c _ Hf. rewrite <- !app_assoc in *.
          apply (Hprem x rel c); [apply list_elem_of_here | done].
        + intros x' rel c Hx' Hf.
          apply (Hprem x' rel c); [by apply list_elem_of_further | done].
      - intros Hok x' rel c Hx' Hf Hdirs.
        pose proof (copy_fold_ok _ _ _ _ _ Hok) as Hok1.
        apply elem_of_cons in Hx' as [-> | Hx']; [| by apply Hfile2].
        apply Hkeep2.
        + replace (d ++ x :: rel) with ((d ++ [x]) ++ rel) by by rewrite <- app_assoc.
          apply Hfile1; [done | | by rewrite <- app_assoc |].
          * destruct rel as [| y rel].
            -- rewrite Hn in Hf. by injection Hf as ->.
            -- specialize (Hdirs 1 ltac:(simpl; lia)). cbn [take] in Hdirs.
               rewrite Hn in Hdirs. by injection Hdirs as ->.
          * intros i Hi. rewrite <- app_assoc.
            apply (Hdirs (S i)). simpl. lia.
        + intros x' rel' c' Hx' _ Heq. apply app_inv_head in Heq.
          injection Heq as -> _. done. }
    destruct (Hfold (read_dir g0 s) (g0, true)) as (HAr & Hkeepr & Hfiler).
    { apply NoDup_read_dir. }
    { intros x n Hx%elem_of_read_dir. rewrite <- HA0; [done |].
      by apply prefix_app_r. }
    { done. }
    { done. }
    split; [done |]. split.
    + intros k m Hk Hprem. apply Hkeepr; [by apply Hmono |].
      intros x rel c _ Hf. by apply (Hprem (x :: rel) c).
    + intros Hok rel c He Hf Hdirs. destruct rel as [| x rel]; [done |].
      apply Hfiler; [done | | done | done].
      assert (is_Some (f !! (s ++ [x]))) as [n0 Hn0].
      { destruct rel as [| y rel]; [by eexists |].
        exists NDir. apply (Hdirs 1). simpl. lia. }
      apply list_elem_of_fmap. exists (x, n0). split; [done |].
      apply elem_of_read_dir. rewrite HA0; [done | by apply prefix_app_r].
Qed.

(** *** Layout reconciliation *)

Lemma remove_all_below f src k : src `prefix_of` k → remove_all f src !! k = None.
Proof.
  intros Hk. unfold remove_all. apply map_lookup_filter_None. right.
  intros n _ Hn. by apply Hn.
Qed.

Lemma remove_all_other f src k : ¬ src `prefix_of` k → remove_all f src !! k = f !! k.
Proof.
  intros Hk. unfold remove_all. destruct (f !! k) as [n |] eqn:Hf.
  - by apply map_lookup_filter_Some.
  - apply map_lookup_filter_None. by left.
Qed.

Lemma copy_tree_missing f src dest e :
  stat_walk f [] src = inr e → copy_tree f src dest = (f, false).
Proof. unfold copy_tree. by intros ->. Qed.

Lemma copy_tree_found f src dest :
  (copy_tree f src dest).2 = true → ∃ n, stat_walk f [] src = inl n.
Proof. unfold copy_tree. destruct (stat_walk f [] src); [by eexists | done]. Qed.

Lemma copy_tree_apart f src dest :
  stat_walk f [] src = inl NDir →
  (src `prefix_of` dest → src = dest) →
  copied_apart f src src dest →
  let r := copy_tree f src dest in
  source_kept f src r.1
  ∧ (∀ k m, f !! k = Some m →
       (∀ rel c, rel ≠ [] → f !! (src ++ rel) = Some (NFile c) → k ≠ dest ++ rel) →
       r.1 !! k = Some m)
  ∧ (r.2 = true →
     ∀ rel c, rel ≠ [] → f !! (src ++ rel) = Some (NFile c) →
              dirs_between f src rel → r.1 !! (dest ++ rel) = Some (NFile c)).
Proof.
  intros Hstat Hout Hsep. unfold copy_tree. rewrite Hstat.
  apply stat_walk_found in Hstat as [Hsrc _]. cbn [app] in Hsrc.
  apply (copy_node_apart f src (S (height f)) f src dest NDir); try done.
  intros k Hne Hk Hnone Hsk.
  assert (src = dest) as <- by (apply Hout; by etrans).
  assert (k = src) as -> by by apply (anti_symm prefix).
  destruct src; [done |]. cbn [lookup_node] in Hsrc. congruence.
Qed.

(** C6. Layout reconciliation. Nothing at the path of the run
    directory: a logged no-op. A regular file on the way to it: the copy
    is tried, fails and is logged, and nothing changes. A copy that
    fails: logged, and nothing is removed. A run directory whose copy
    succeeds: nothing is left of it. When moreover no node of the run
    directory is copied to a place in the run directory itself: every
    file of it is afterwards at the same relative place below the root,
    over whatever was there, and every other node, at a place no node
    of the run directory is copied to, is as it was. *)
Theorem relocateContents_merges_then_removes (root runId : string) (w : World) :
  let runIdDir := path.Join [root; runId] in
  let src := key_of runIdDir in
  let dest := key_of root in
  let w' := (relocateContents root runId w).2 in
  (relocateContents root runId w).1 = Ret tt
  ∧ (stat_walk (fs w) [] src = inr ENOENT →
     w' = mkWorld (fs w)
            (trace w ++ [EvStat runIdDir;
                         EvPrint (runId
                                  +:+ " directory does not exist. Skipping relocation.")])
            (clock w))
  ∧ (stat_walk (fs w) [] src = inr ENOTDIR →
     w' = mkWorld (fs w)
            (trace w ++ [EvStat runIdDir; EvCopy runIdDir root;
                         EvPrint ("Error copying files: copy " +:+ runIdDir
                                  +:+ " failed")])
            (clock w))
  ∧ (stat_walk (fs w) [] src ≠ inr ENOENT →
     (copy_tree (fs w) src dest).2 = false →
     (∀ k, is_Some (fs w !! k) → is_Some (fs w' !! k))
     ∧ trace w' = trace w ++ [EvStat runIdDir; EvCopy runIdDir root;
                              EvPrint ("Error copying files: copy " +:+ runIdDir
                                       +:+ " failed")])
  ∧ (stat_walk (fs w) [] src = inl NDir →
     (copy_tree (fs w) src dest).2 = true →
     List.last (strings.Split runIdDir slash) "" ≠ "." →
     (∀ k, src `prefix_of` k → fs w' !! k = None)
     ∧ trace w' = trace w ++ [EvStat runIdDir; EvCopy runIdDir root;
                              EvRemoveAll runIdDir]
     ∧ ((src `prefix_of` dest → src = dest) →
        (∀ rel, rel ≠ [] → is_Some (fs w !! (src ++ rel)) →
                ¬ src `prefix_of` dest ++ rel) →
        (∀ rel c, rel ≠ [] → fs w !! (src ++ rel) = Some (NFile c) →
                  dirs_between (fs w) src rel →
                  fs w' !! (dest ++ rel) = Some (NFile c))
        ∧ (∀ k n, fs w !! k = Some n → ¬ src `prefix_of` k →
                  (∀ rel, rel ≠ [] → is_Some (fs w !! (src ++ rel)) →
                          k ≠ dest ++ rel) →
                  fs w' !! k = Some n))).
Proof.
  intros runIdDir src dest w'. subst w'.
  unfold relocateContents. fold runIdDir.
  unfold mbind, M_bind, mret, M_ret, Stat, CopyTree, RemoveAll, Println, emit.
  fold src. cbn [fs trace clock]. fold src dest.
  pose proof (copy_tree_dom (fs w) src dest) as Hdom.
  pose proof (copy_tree_apart (fs w) src dest) as Hapart.
  pose proof (copy_tree_missing (fs w) src dest) as Hmiss.
  destruct (stat_walk (fs w) [] src) as [n0 | [|]] eqn:Hsrc.
  2:{ cbn [fst snd fs trace clock]. split; [done |]. split.
      - intros _. by rewrite <- app_assoc.
      - by repeat split. }
  2:{ cbv beta. cbn [fs trace clock]. rewrite (Hmiss ENOTDIR eq_refl).
      cbn [fst snd fs trace clock]. split; [done |]. split; [done |].
      split; [intros _; by rewrite <- !app_assoc |].
      split; [| done]. intros _ _. split; [done |]. by rewrite <- !app_assoc. }
  clear Hmiss.
  cbv beta. cbn [fs trace clock].
  destruct (copy_tree (fs w) src dest) as [f2 ok] eqn:Hcopy.
  cbn [fst snd] in Hdom, Hapart.
  destruct ok; cbn [fs trace clock fst snd].
  - destruct (String.eqb _ ".") eqn:Hdot; cbn [fs trace clock fst snd].
    + split; [done |]. split; [done |]. split; [done |]. split; [done |].
      intros _ _ Hlast. by apply String.eqb_eq in Hdot.
    + split; [done |]. split; [done |]. split; [done |]. split; [done |].
      intros [= ->] _ _. split; [| split].
      * intros k Hk. by apply remove_all_below.
      * by rewrite <- !app_assoc.
      * intros Hout Hsep.
        destruct (Hapart eq_refl Hout Hsep) as (_ & Hkeeps & Hfile).
        split.
        -- intros rel c Hne Hrel Hdirs. rewrite remove_all_other.
           ++ by apply Hfile.
           ++ apply Hsep; [done | by eexists].
        -- intros k n Hk Hnot Hfree. rewrite remove_all_other by done.
           apply Hkeeps; [done |]. intros rel c Hne Hrel.
           apply Hfree; [done | by eexists].
  - split; [done |]. split; [done |]. split; [done |]. split; [| done].
    intros _ _. split; [done |]. by rewrite <- !app_assoc.
Qed.
(** *** Reference repair *)



Lemma later_nil w : later w [] = w.
Proof. unfold later. rewrite app_nil_r. by destruct w. Qed.

Lemma later_later w tr1 tr2 : later (later w tr1) tr2 = later w (tr1 ++ tr2).
Proof. unfold later. cbn [fs trace clock]. by rewrite app_assoc. Qed.

Lemma repair_attachment_pure index dir a w :
  ∃ tr, repair_attachment index dir a w = (Ret (repaired index dir a), later w tr).
Proof.
  unfold repair_attachment, repaired.
  destruct a as [| | | | | o]; try (exists []; by rewrite later_nil).
  destruct (obj_get "source" o) as [[| | | s | |] |];
    try (exists []; by rewrite later_nil).
  destruct (index !! path.Base s) as [p |]; [| exists []; by rewrite later_nil].
  destruct (path.Rel dir p) as [r |]; [exists []; by rewrite later_nil |].
  by eexists [_].
Qed.

Lemma mapM_repair_pure index dir atts w :
  ∃ tr, mapM (repair_attachment index dir) atts w
        = (Ret (map (repaired index dir) atts), later w tr).
Proof.
  revert w. induction atts as [| a atts IH]; intros w.
  - exists []. by rewrite later_nil.
  - cbn [mapM map]. unfold mbind at 1, M_bind at 1.
    destruct (repair_attachment_pure index dir a w) as (tr1 & ->).
    unfold mbind at 1, M_bind at 1.
    destruct (IH (later w tr1)) as (tr2 & ->).
    exists (tr1 ++ tr2). by rewrite later_later.
Qed.

Local Ltac more_events :=
  eexists; unfold Println, emit, later; cbn [fs trace clock];
  rewrite <- ?app_assoc; reflexivity.

Lemma repair_file_fs index dir name w :
  ∃ tr, repair_file index dir name w
        = (Ret tt, mkWorld (step_fs index dir (fs w) name) (trace w ++ tr) (clock w)).
Proof.
  unfold repair_file, step_fs, new_content.
  destruct (String.eqb (path.Ext name) ".json").
  2:{ exists []. rewrite app_nil_r. by destruct w. }
  unfold mbind at 1, M_bind at 1, ReadFile. cbn [fs trace clock].
  destruct (fs w !! key_of (path.Join [dir; name])) as [[data |] |] eqn:Hf;
    try more_events.
  destruct (unmarshal_doc data) as [doc |]; [| more_events].
  destruct (obj_get "attachments" doc) as [[| | | | atts |] |];
    try more_events.
  unfold mbind at 1, M_bind at 1.
  destruct (mapM_repair_pure index dir atts
              (mkWorld (fs w) (trace w ++ [EvReadFile (path.Join [dir; name])])
                       (clock w))) as (tr & ->).
  unfold mbind, M_bind, WriteFile, write_ok, later. cbv beta zeta.
  cbn [fs trace clock].
  destruct (key_of (path.Join [dir; name])) as [| k0 k]; [more_events |].
  rewrite Hf.
  destruct (lookup_node (fs w) (removelast (k0 :: k))) as [[c |] |];
    cbn [fs trace clock]; more_events.
Qed.

Lemma for_each_repair_fs index dir names w :
  ∃ tr, for_each names (repair_file index dir) w
        = (Ret tt, mkWorld (fold_left (step_fs index dir) names (fs w))
                           (trace w ++ tr) (clock w)).
Proof.
  revert w. induction names as [| name names IH]; intros w.
  - exists []. rewrite app_nil_r. by destruct w.
  - cbn [for_each fold_left]. unfold mbind, M_bind.
    destruct (repair_file_fs index dir name w) as (tr1 & ->).
    destruct (IH (mkWorld (step_fs index dir (fs w) name) (trace w ++ tr1) (clock w)))
      as (tr2 & ->).
    exists (tr1 ++ tr2). cbn [fs trace clock]. by rewrite app_assoc.
Qed.


Lemma shape_lookup f1 f2 k :
  shape f1 = shape f2 → is_dir <$> f1 !! k = is_dir <$> f2 !! k.
Proof. intros Hs. unfold shape in Hs. by rewrite <- !lookup_fmap, Hs. Qed.

Lemma shape_lookup_node f1 f2 k :
  shape f1 = shape f2 → is_dir <$> lookup_node f1 k = is_dir <$> lookup_node f2 k.
Proof. intros Hs. destruct k; [done |]. by apply shape_lookup. Qed.

Lemma shape_dir_at f1 f2 k : shape f1 = shape f2 → dir_at f1 k = dir_at f2 k.
Proof.
  intros Hs. unfold dir_at. pose proof (shape_lookup_node f1 f2 k Hs) as H.
  by destruct (lookup_node f1 k) as [[] |], (lookup_node f2 k) as [[] |].
Qed.



Lemma write_ok_dir_at f k :
  write_ok f k
  = match k with
    | [] => false
    | _ => dir_at f (removelast k)
           && negb (match f !! k with Some n => is_dir n | None => false end)
    end.
Proof.
  unfold write_ok, dir_at. destruct k as [| k0 k]; [done |].
  destruct (lookup_node f (removelast (k0 :: k))) as [[] |]; [done | | done].
  by destruct (f !! (k0 :: k)) as [[] |].
Qed.

Lemma write_ok_file f k c :
  k ≠ [] → f !! k = Some (NFile c) → dir_at f (removelast k) = true →
  write_ok f k = true.
Proof.
  intros Hne Hk Hdir. rewrite write_ok_dir_at, Hdir, Hk. by destruct k.
Qed.

Lemma shape_write_ok f1 f2 k : shape f1 = shape f2 → write_ok f1 k = write_ok f2 k.
Proof.
  intros Hs. rewrite !write_ok_dir_at. destruct k as [| k0 k]; [done |].
  rewrite (shape_dir_at f1 f2) by done. f_equal. f_equal.
  pose proof (shape_lookup f1 f2 (k0 :: k) Hs) as H.
  destruct (f1 !! (k0 :: k)), (f2 !! (k0 :: k)); simpl in H; congruence.
Qed.

Lemma shape_insert_file f k c d :
  f !! k = Some (NFile c) → shape (<[k := NFile d]> f) = shape f.
Proof.
  intros Hk. unfold shape. rewrite fmap_insert. apply insert_id.
  by rewrite lookup_fmap, Hk.
Qed.

Lemma new_content_Some index dir f name d :
  new_content index dir f name = Some d →
  ∃ data, f !! key_of (path.Join [dir; name]) = Some (NFile data).
Proof.
  unfold new_content. destruct (String.eqb _ _); [| done].
  destruct (f !! _) as [[data |] |]; [| done | done]. by eauto.
Qed.

Lemma shape_step index dir f name : shape (step_fs index dir f name) = shape f.
Proof.
  unfold step_fs. destruct (new_content index dir f name) as [d |] eqn:Hd; [| done].
  apply new_content_Some in Hd as [data Hdata]. by eapply shape_insert_file.
Qed.

Lemma shape_fold index dir names f :
  shape (fold_left (step_fs index dir) names f) = shape f.
Proof.
  revert f. induction names as [| name names IH]; intros f; [done |].
  cbn [fold_left]. by rewrite IH, shape_step.
Qed.

Lemma new_content_ext index dir f1 f2 name :
  f1 !! key_of (path.Join [dir; name]) = f2 !! key_of (path.Join [dir; name]) →
  shape f1 = shape f2 →
  new_content index dir f1 name = new_content index dir f2 name.
Proof.
  intros Hk Hs. unfold new_content. by rewrite Hk, (shape_write_ok f1 f2).
Qed.

Lemma step_fs_other index dir f name k :
  k ≠ key_of (path.Join [dir; name]) → step_fs index dir f name !! k = f !! k.
Proof.
  intros Hk. unfold step_fs. destruct (new_content index dir f name); [| done].
  by rewrite lookup_insert_ne.
Qed.

Lemma fold_step_other index dir names f k :
  (∀ name, name ∈ names → k ≠ key_of (path.Join [dir; name])) →
  fold_left (step_fs index dir) names f !! k = f !! k.
Proof.
  revert f. induction names as [| name names IH]; intros f Hk; [done |].
  cbn [fold_left]. rewrite IH.
  - apply step_fs_other, Hk, list_elem_of_here.
  - intros n Hn. by apply Hk, list_elem_of_further.
Qed.

Lemma step_fs_at index dir f1 f2 name :
  f1 !! key_of (path.Join [dir; name]) = f2 !! key_of (path.Join [dir; name]) →
  shape f1 = shape f2 →
  step_fs index dir f1 name !! key_of (path.Join [dir; name])
  = step_fs index dir f2 name !! key_of (path.Join [dir; name]).
Proof.
  intros Hk Hs. unfold step_fs. rewrite (new_content_ext index dir f1 f2) by done.
  destruct (new_content index dir f2 name); [| done].
  by rewrite !lookup_insert_eq.
Qed.

(** The file of [name] after the loop is what its own round makes of it. *)
Lemma fold_step_at index dir names f name :
  NoDup names → name ∈ names →
  (∀ n1 n2, n1 ∈ names → n2 ∈ names →
     key_of (path.Join [dir; n1]) = key_of (path.Join [dir; n2]) → n1 = n2) →
  fold_left (step_fs index dir) names f !! key_of (path.Join [dir; name])
  = step_fs index dir f name !! key_of (path.Join [dir; name]).
Proof.
  revert f. induction names as [| n names IH]; intros f Hnd Hin Hinj.
  - by apply elem_of_nil in Hin.
  - apply NoDup_cons in Hnd as [Hfresh Hnd]. cbn [fold_left].
    apply elem_of_cons in Hin as [-> | Hin].
    + apply fold_step_other. intros n' Hn' Heq.
      apply Hinj in Heq; [| apply list_elem_of_here | by apply list_elem_of_further].
      by subst.
    + rewrite IH; [| done | done |].
      * apply step_fs_at; [| apply shape_step].
        apply step_fs_other. intros Heq.
        apply Hinj in Heq; [| by apply list_elem_of_further | apply list_elem_of_here].
        by subst.
      * intros n1 n2 H1 H2. apply Hinj; by apply list_elem_of_further.
Qed.


(** *** The filename index *)


Lemma dir_at_Some f k : dir_at f k = true ↔ lookup_node f k = Some NDir.
Proof. unfold dir_at. by destruct (lookup_node f k) as [[] |]. Qed.

Lemma wf_plain f k n : fs_wf f → f !! k = Some n → Forall plain_name k.
Proof. intros Hwf Hk. by destruct (Hwf k n Hk). Qed.

Lemma wf_parent f k n : fs_wf f → f !! k = Some n → dir_at f (removelast k) = true.
Proof. intros Hwf Hk. by destruct (Hwf k n Hk). Qed.

Lemma plain_report : Forall plain_name ["report"; "allure-results"].
Proof. repeat constructor; done. Qed.

Lemma key_of_metadata_dir root :
  key_of (metadata_dir root) = key_of root ++ ["report"; "allure-results"].
Proof. apply key_of_Join; [apply plain_report | done]. Qed.

Lemma wf_root_dir f root :
  fs_wf f → dir_at f (key_of (metadata_dir root)) = true →
  dir_at f (key_of root) = true.
Proof.
  intros Hwf Hdir. rewrite key_of_metadata_dir in Hdir.
  apply dir_at_Some in Hdir.
  assert (f !! (key_of root ++ ["report"; "allure-results"]) = Some NDir) as H2.
  { by destruct (key_of root). }
  apply (wf_parent _ _ _ Hwf) in H2.
  change ["report"; "allure-results"] with (["report"] ++ ["allure-results"]) in H2.
  rewrite app_assoc, removelast_last in H2. apply dir_at_Some in H2.
  assert (f !! (key_of root ++ ["report"]) = Some NDir) as H1.
  { by destruct (key_of root). }
  apply (wf_parent _ _ _ Hwf) in H1. by rewrite removelast_last in H1.
Qed.


Lemma index_of_visits f root :
  lookup_node f (key_of root) = Some NDir →
  fold_left index_file
    ((root, true)
     :: map (λ e, (walk_path root e.1, is_dir e.2)) (subtree f (key_of root))) ∅
  = filename_index f root.
Proof.
  intros _. cbn [fold_left]. unfold index_file at 2. cbn [snd].
  unfold subtree, filename_index.
  generalize (∅ : gmap string string) as acc.
  induction (keys_below f (key_of root)) as [| rel l IH]; intros acc; [done |].
  destruct (f !! (key_of root ++ rel)) as [[c |] |] eqn:Hrel;
    cbn -[path.Base walk_path key_of]; rewrite Hrel;
    cbn -[path.Base walk_path key_of]; apply IH.
Qed.

(** *** One pass of the repair *)

Lemma updateJsonPaths_run root w :
  fs_wf (fs w) →
  ∃ tr, updateJsonPaths root w
        = (Ret tt, mkWorld (pass_fs root (fs w)) (trace w ++ tr) (clock w)).
Proof.
  intros Hwf. unfold updateJsonPaths, pass_fs. fold (metadata_dir root).
  unfold mbind at 1, M_bind at 1, Walk. cbn [fs trace clock].
  pose proof (wf_root_dir (fs w) root Hwf) as Hroot.
  destruct (dir_at (fs w) (key_of (metadata_dir root))) eqn:Hdir.
  - specialize (Hroot eq_refl). apply dir_at_Some in Hroot, Hdir.
    rewrite Hroot. unfold mbind at 1, M_bind at 1, ReadDir. cbn [fs trace clock].
    rewrite Hdir, index_of_visits by done.
    destruct (for_each_repair_fs (filename_index (fs w) root) (metadata_dir root)
                (dir_names (fs w) (key_of (metadata_dir root)))
                (mkWorld (fs w)
                   ((trace w ++ [EvWalk root]) ++ [EvReadDir (metadata_dir root)])
                   (clock w))) as (tr & ->).
    cbn [fs trace clock]. eexists. by rewrite <- !app_assoc.
  - clear Hroot.
    assert (lookup_node (fs w) (key_of (metadata_dir root)) ≠ Some NDir) as Hno.
    { intros H%dir_at_Some. congruence. }
    destruct (lookup_node (fs w) (key_of root)) as [n |]; [| more_events].
    unfold mbind at 1, M_bind at 1, ReadDir. cbn [fs trace clock].
    destruct (lookup_node (fs w) (key_of (metadata_dir root))) as [[c |] |];
      [more_events | done | more_events].
Qed.

Lemma new_content_inv index dir f name d :
  new_content index dir f name = Some d →
  ∃ data doc atts,
    path.Ext name = ".json"
    ∧ f !! key_of (path.Join [dir; name]) = Some (NFile data)
    ∧ unmarshal_doc data = Some doc
    ∧ obj_get "attachments" doc = Some (JArr atts)
    ∧ write_ok f (key_of (path.Join [dir; name])) = true
    ∧ d = marshal_indent
            (obj_set "attachments" (JArr (map (repaired index dir) atts)) doc).
Proof.
  unfold new_content.
  destruct (String.eqb_spec (path.Ext name) ".json") as [Hext |]; [| done].
  destruct (f !! _) as [[data |] |]; [| done | done].
  destruct (unmarshal_doc data) as [doc |] eqn:Hdoc; [| done].
  destruct (obj_get "attachments" doc) as [[| | | | atts |] |] eqn:Hatts; try done.
  destruct (write_ok f _) eqn:Hw; [| done].
  intros [= <-]. by exists data, doc, atts.
Qed.




(** The names in the metadata directory of a well-formed file system. *)
Lemma metadata_names root f name :
  fs_wf f → name ∈ dir_names f (key_of (metadata_dir root)) →
  plain_name name
  ∧ key_of (path.Join [metadata_dir root; name]) = key_of (metadata_dir root) ++ [name].
Proof.
  intros Hwf [n Hn]%elem_of_dir_names.
  apply (wf_plain _ _ _ Hwf) in Hn. apply Forall_app in Hn as [_ [Hname _]%Forall_cons].
  split; [done |]. apply key_of_Join; [by constructor | done].
Qed.

Lemma metadata_names_inj root f n1 n2 :
  fs_wf f →
  n1 ∈ dir_names f (key_of (metadata_dir root)) →
  n2 ∈ dir_names f (key_of (metadata_dir root)) →
  key_of (path.Join [metadata_dir root; n1])
  = key_of (path.Join [metadata_dir root; n2]) →
  n1 = n2.
Proof.
  intros Hwf [_ H1]%(metadata_names root f n1 Hwf) [_ H2]%(metadata_names root f n2 Hwf).
  rewrite H1, H2. by intros [= ->]%app_inv_head.
Qed.

(** C7. For a [.json] file directly in the report metadata directory of
    a well-formed destination tree whose content decodes to a document:
    with an attachments array, the file is rewritten with the indented
    serialization of the document in which every element of the array
    whose source has a base name in the filename index has, for source,
    the path of the indexed file relative to the metadata directory, and
    every element whose source is not indexed is as it was; without an
    attachments array the file is left with the bytes it had. *)
Theorem updateJsonPaths_repairs_attachments
    (root name : string) (data : list byte) (doc : list (string * json))
    (w : World) :
  let dir := metadata_dir root in
  let index := filename_index (fs w) root in
  let w' := (updateJsonPaths root w).2 in
  fs_wf (fs w) →
  fs w !! (key_of dir ++ [name]) = Some (NFile data) →
  path.Ext name = ".json" →
  unmarshal_doc data = Some doc →
  (updateJsonPaths root w).1 = Ret tt
  ∧ (∀ atts, obj_get "attachments" doc = Some (JArr atts) →
       fs w' !! (key_of dir ++ [name])
       = Some (NFile (marshal_indent
                        (obj_set "attachments"
                           (JArr (map (repaired index dir) atts)) doc)))
       ∧ (∀ i o s p r,
            atts !! i = Some (JObj o) →
            obj_get "source" o = Some (JStr s) →
            index !! path.Base s = Some p →
            path.Rel dir p = Some r →
            map (repaired index dir) atts !! i
            = Some (JObj (obj_set "source" (JStr r) o)))
       ∧ (∀ i a,
            atts !! i = Some a →
            (∀ o s, a = JObj o → obj_get "source" o = Some (JStr s) →
                    index !! path.Base s = None) →
            map (repaired index dir) atts !! i = Some a))
  ∧ ((∀ atts, obj_get "attachments" doc ≠ Some (JArr atts)) →
     fs w' !! (key_of dir ++ [name]) = Some (NFile data)).
Proof.
  intros dir index w' Hwf Hfile Hext Hdoc. subst w'.
  destruct (updateJsonPaths_run root w Hwf) as (tr & ->). cbn [fst snd fs].
  split; [done |].
  assert (name ∈ dir_names (fs w) (key_of dir)) as Hname.
  { apply elem_of_dir_names. by eexists. }
  destruct (metadata_names root (fs w) name Hwf Hname) as [Hplain Hkey].
  fold dir in Hkey.
  pose proof (wf_parent _ _ _ Hwf Hfile) as Hdir. rewrite removelast_last in Hdir.
  unfold pass_fs. fold dir index. rewrite Hdir, <- Hkey.
  rewrite fold_step_at;
    [| apply NoDup_dir_names | done
     | intros n1 n2; apply (metadata_names_inj root (fs w) n1 n2 Hwf)].
  unfold step_fs, new_content.
  rewrite (proj2 (String.eqb_eq _ _) Hext), Hkey, Hfile, Hdoc.
  assert (write_ok (fs w) (key_of dir ++ [name]) = true) as Hw.
  { apply (write_ok_file _ _ data);
      [by destruct (key_of dir) | done | by rewrite removelast_last]. }
  rewrite Hw. split.
  - intros atts ->. rewrite lookup_insert_eq. split; [done |]. split.
    + intros i o s p r Hi Hs Hp Hr. rewrite list_lookup_fmap, Hi. simpl.
      by rewrite Hs, Hp, Hr.
    + intros i a Hi Hno. rewrite list_lookup_fmap, Hi. simpl. f_equal.
      unfold repaired. destruct a as [| | | | | o]; try done.
      destruct (obj_get "source" o) as [[| | | s | |] |] eqn:Hs; try done.
      by rewrite (Hno o s eq_refl Hs).
  - intros Hno.
    destruct (obj_get "attachments" doc) as [[| | | | atts |] |]; try done.
    by destruct (Hno atts).
Qed.


(** *** The goroutines of [GetArtifacts] *)

Lemma count_insert P tasks i t t' :
  tasks !! i = Some t →
  count P (<[i := t']> tasks) + (if P t.2 then 1 else 0)
  = count P tasks + (if P t'.2 then 1 else 0).
Proof.
  unfold count. revert i. induction tasks as [| x tasks IH]; intros i Hi; [done |].
  destruct i as [| i]; simpl in Hi |- *.
  - injection Hi as ->. lia.
  - specialize (IH i Hi). lia.
Qed.

Lemma count_app P tasks t :
  count P (tasks ++ [t]) = count P tasks + (if P t.2 then 1 else 0).
Proof. unfold count. rewrite sum_list_with_app. simpl. lia. Qed.

Lemma count_downloading_le tasks : count downloading tasks ≤ count holds_slot tasks.
Proof.
  unfold count. induction tasks as [| [id t] tasks IH]; simpl; [done |].
  destruct t; simpl; lia.
Qed.

Lemma all_done_count tasks : all_done tasks → count unfinished tasks = 0.
Proof.
  unfold count. induction 1 as [| [id t] tasks Ht _ IH]; [done |].
  simpl in Ht |- *. by rewrite Ht, IH.
Qed.

Lemma count_all_done tasks : count unfinished tasks = 0 → all_done tasks.
Proof.
  unfold count, all_done. induction tasks as [| [id t] tasks IH]; [done |].
  simpl. intros H. constructor.
  - destruct t; simpl in H |- *; done || lia.
  - apply IH. destruct (unfinished t); lia.
Qed.

Lemma all_done_lookup tasks i id t :
  all_done tasks → tasks !! i = Some (id, t) → t = TDone.
Proof.
  intros Hall Hi. by apply (proj1 (Forall_lookup _ _) Hall i (id, t)).
Qed.

Lemma invariant_initial w : process_invariant (initial w).
Proof. split; simpl; try done. unfold maxConcurrentDownloads. lia. Qed.

Section OrchestrationProofs.

Variables token runId whereToSave : string.

Lemma invariant_step p p' :
  step token runId whereToSave p p' → process_invariant p → process_invariant p'.
Proof.
  destruct 1; try exact (λ _, I); intros [Hsem Hcap Hwg Hbar Hclosed Hstart];
    try match goal with
        | H : g_tasks ?s !! ?i = Some _
          |- context [set_task ?s ?i ?t'] =>
            pose proof (count_insert holds_slot _ i _ t' H) as Hh;
            pose proof (count_insert unfinished _ i _ t' H) as Hu;
            pose proof (λ Hp, all_done_lookup _ _ _ _ (Hbar Hp) H) as Hnd;
            pose proof (λ Hm, eq_ind _ (λ l, l !! i = Some _) H _ (Hstart Hm))
              as Hne;
            cbn [snd holds_slot unfinished] in Hh, Hu
        end;
    split;
    cbn [g_sem g_wg g_tasks g_main g_closed g_sink g_world set_main set_world
         set_sink set_task set_sem set_wg past_barrier process_invariant];
    rewrite ?count_app; cbn [snd holds_slot unfinished];
    unfold maxConcurrentDownloads in *;
    try done; try lia.
  all: try (destruct err; cbn [snd holds_slot unfinished] in *; lia).
  all: try (intros Hx;
    first
      [ discriminate Hx
      | by specialize (Hnd Hx)
      | by specialize (Hne Hx)
      | by rewrite (Hstart H)
      | rewrite (Hstart H); constructor
      | by apply Hbar; rewrite H
      | by apply Hclosed in Hx; rewrite H in Hx
      | apply count_all_done; congruence ]).
Qed.

Lemma invariant_reachable w0 p :
  reachable token runId whereToSave w0 p → process_invariant p.
Proof.
  unfold reachable. revert p. apply rtc_ind_r.
  - apply invariant_initial.
  - intros p p' _ Hstep IH. by eapply invariant_step.
Qed.


(** C4. In every state the process can be in, at most
    [maxConcurrentDownloads] = 5 download goroutines are inside
    [downloadFile]. The semaphore counts exactly the goroutines between
    their acquire and their release, so no capacity leaks; and a
    goroutine whose download has returned, with an error or without,
    can always release. *)
Theorem at_most_five_downloads_in_flight (w0 : World) (s : GState) :
  reachable token runId whereToSave w0 (Running s) →
  count downloading (g_tasks s) ≤ maxConcurrentDownloads
  ∧ maxConcurrentDownloads = 5
  ∧ g_sem s = count holds_slot (g_tasks s)
  ∧ g_sem s ≤ maxConcurrentDownloads
  ∧ (∀ i id err,
       g_tasks s !! i = Some (id, TRelease err) →
       ∃ n, g_sem s = S n
            ∧ step token runId whereToSave (Running s)
                (Running (set_sem
                   (set_task s i (id, match err with
                                      | Some e => TReport e
                                      | None => TFinish
                                      end))
                   n))).
Proof.
  intros [Hsem Hcap _ _ _ _]%invariant_reachable.
  pose proof (count_downloading_le (g_tasks s)) as Hle.
  split; [lia |]. split; [done |]. split; [done |]. split; [done |].
  intros i id err Hi.
  destruct (g_sem s) as [| n] eqn:Hn.
  - exfalso.
    pose proof (count_insert holds_slot _ i _ (id, TDone) Hi) as Hh.
    simpl in Hh. lia.
  - exists n. split; [done |]. by apply step_release.
Qed.

Lemma step_keeps_repair s s' :
  step token runId whereToSave (Running s) (Running s') →
  g_main s' = PcRepair →
  g_main s = PcRepair
  ∨ (g_main s = PcRelocate
     ∧ s' = set_main
              (set_world s (relocateContents whereToSave runId (g_world s)).2)
              PcRepair).
Proof.
  inversion 1; subst; cbn [g_main set_main set_world set_sink set_task set_sem
                           set_wg]; try done; try (by left).
  intros _. right. split; [done |].
  match goal with H : relocateContents _ _ _ = _ |- _ => by rewrite H end.
Qed.

(** C9. The main goroutine reaches layout reconciliation only when
    every download goroutine that was started has finished (the wait
    group is at zero and the semaphore is empty), and it reaches
    reference repair only through a completed reconciliation that
    started in such a state. *)
Theorem reconciliation_waits_for_downloads (w0 : World) (s : GState) :
  reachable token runId whereToSave w0 (Running s) →
  (g_main s = PcRelocate ∨ g_main s = PcRepair →
   all_done (g_tasks s) ∧ g_wg s = 0 ∧ g_sem s = 0)
  ∧ (g_main s = PcRepair →
     ∃ s0, reachable token runId whereToSave w0 (Running s0)
           ∧ g_main s0 = PcRelocate
           ∧ all_done (g_tasks s0)
           ∧ rtc (step token runId whereToSave)
                 (Running (set_main
                    (set_world s0
                       (relocateContents whereToSave runId (g_world s0)).2)
                    PcRepair))
                 (Running s)).
Proof.
  intros Hreach. split.
  - apply invariant_reachable in Hreach as [Hsem _ Hwg Hbar _ _].
    intros Hpc.
    assert (all_done (g_tasks s)) as Hdone.
    { apply Hbar. by destruct Hpc as [-> | ->]. }
    split; [done |]. split.
    + by rewrite Hwg, all_done_count.
    + rewrite Hsem. clear -Hdone. unfold count.
      induction Hdone as [| [id t] tasks Ht _ IH]; [done |].
      simpl in Ht |- *. by rewrite Ht, IH.
  - intros Hpc. revert s Hreach Hpc.
    assert (∀ p, rtc (step token runId whereToSave) (initial w0) p →
              (λ p, ∀ s, p = Running s → g_main s = PcRepair →
               ∃ s0, reachable token runId whereToSave w0 (Running s0)
                     ∧ g_main s0 = PcRelocate
                     ∧ all_done (g_tasks s0)
                     ∧ rtc (step token runId whereToSave)
                           (Running (set_main
                              (set_world s0
                                 (relocateContents whereToSave runId
                                    (g_world s0)).2)
                              PcRepair))
                           (Running s)) p) as Hgen;
      [| by intros s Hreach Hpc; apply (Hgen _ Hreach s eq_refl Hpc)].
    apply (rtc_ind_r
             (λ p, ∀ s, p = Running s → g_main s = PcRepair →
               ∃ s0, reachable token runId whereToSave w0 (Running s0)
                     ∧ g_main s0 = PcRelocate
                     ∧ all_done (g_tasks s0)
                     ∧ rtc (step token runId whereToSave)
                           (Running (set_main
                              (set_world s0
                                 (relocateContents whereToSave runId
                                    (g_world s0)).2)
                              PcRepair))
                           (Running s))).
    + by intros s [= <-].
    + intros p p' Hreach Hstep IH s' -> Hpc.
      destruct p as [s | w]; [| inversion Hstep].
      destruct (step_keeps_repair s s' Hstep Hpc) as [Hs | [Hs ->]].
      * destruct (IH s eq_refl Hs) as (s0 & H0 & H1 & H2 & H3).
        exists s0. split; [done |]. split; [done |]. split; [done |].
        by eapply rtc_r.
      * exists s. split; [done |]. split; [done |]. split; [| done].
        apply (invariant_reachable w0 (Running s)) in Hreach.
        apply (inv_barrier s Hreach). by rewrite Hs.
Qed.

Lemma walked_nil s todo :
  g_main s = PcWalk todo → walked s (g_world s) todo [] = s.
Proof.
  intros Hpc. unfold walked. destruct s. simpl in *.
  by rewrite app_nil_r, Nat.add_0_r, Hpc.
Qed.

Lemma walked_walked s w1 w2 todo1 todo2 ids1 ids2 :
  walked (walked s w1 todo1 ids1) w2 todo2 ids2 = walked s w2 todo2 (ids1 ++ ids2).
Proof.
  unfold walked. cbn [g_tasks g_sem g_wg g_closed g_sink].
  rewrite map_app, length_app, <- app_assoc. f_equal. lia.
Qed.

Lemma walk_loop fuel :
  (∀ id todo s,
     g_main s = PcWalk (WCall id :: todo) →
     walk_result token runId whereToSave s todo (getFoldersRecursively fuel token id whereToSave (g_world s))) →
  ∀ folders todo s,
    g_main s = PcWalk (map WNode folders ++ todo) →
    walk_result token runId whereToSave s todo
      (for_each folders (λ folder,
         if IsFile folder then Go (ID folder)
         else getFoldersRecursively fuel token (ID folder) whereToSave) (g_world s)).
Proof.
  intros Hcall. induction folders as [| f folders IH]; intros todo s Hpc.
  - exists []. cbn [for_each mret M_ret fst snd]. rewrite app_nil_r.
    split; [done |]. by rewrite walked_nil.
  - cbn [for_each]. unfold mbind, M_bind. cbn [map app] in Hpc.
    destruct (IsFile f) eqn:Hfile.
    + pose proof (step_go token runId whereToSave s f _ Hpc Hfile) as Hstep.
      match type of Hstep with step _ _ _ _ (Running ?x) => set (s1 := x) in * end.
      specialize (IH todo s1 eq_refl).
      change (Go (ID f) (g_world s)) with (Ret tt, g_world s1).
      unfold walk_result in IH |- *.
      destruct (for_each folders _ (g_world s1)) as [[[] | msg |] w'];
        cbn [fst snd] in IH |- *; [| by eapply rtc_l | done].
      destruct IH as (ids & Htr & Hrun). exists (ID f :: ids). split.
      * rewrite Htr. subst s1. cbn [g_world trace Go emit snd].
        rewrite started_app. cbn. by rewrite <- app_assoc.
      * eapply rtc_l; [exact Hstep |].
        replace (walked s w' todo (ID f :: ids)) with (walked s1 w' todo ids); [done |].
        unfold walked. subst s1. cbn [g_tasks g_sem g_wg g_closed g_sink map length].
        rewrite <- app_assoc. f_equal. lia.
    + pose proof (step_descend token runId whereToSave s f _ Hpc Hfile) as Hstep.
      match type of Hstep with step _ _ _ _ (Running ?x) => set (s1 := x) in * end.
      pose proof (Hcall (ID f) (map WNode folders ++ todo) s1 eq_refl) as H1.
      change (g_world s1) with (g_world s) in H1.
      unfold walk_result in H1 |- *.
      destruct (getFoldersRecursively fuel token (ID f) whereToSave (g_world s))
        as [[[] | msg |] w1]; cbn [fst snd] in H1 |- *; [| by eapply rtc_l | done].
      destruct H1 as (ids1 & Htr1 & Hrun1).
      specialize (IH todo (walked s1 w1 (map WNode folders ++ todo) ids1) eq_refl).
      unfold walk_result in IH. cbn [walked g_world] in IH.
      destruct (for_each folders _ w1) as [[[] | msg |] w'];
        cbn [fst snd] in IH |- *.
      * destruct IH as (ids2 & Htr2 & Hrun2). exists (ids1 ++ ids2). split.
        -- by rewrite Htr2, Htr1, app_assoc.
        -- eapply rtc_l; [exact Hstep |]. etrans; [exact Hrun1 |].
           rewrite walked_walked in Hrun2.
           replace (walked s w' todo (ids1 ++ ids2))
             with (walked s1 w' todo (ids1 ++ ids2)); done.
      * eapply rtc_l; [exact Hstep |]. by etrans.
      * done.
Qed.

Lemma walk_refines fuel :
  ∀ id todo s,
    g_main s = PcWalk (WCall id :: todo) →
    walk_result token runId whereToSave s todo (getFoldersRecursively fuel token id whereToSave (g_world s)).
Proof.
  induction fuel as [| fuel IH]; intros id todo s Hpc; [done |].
  cbn [getFoldersRecursively]. unfold mbind at 1, M_bind at 1.
  destruct (SendGetRequest (artifact_url +:+ id) token (g_world s)) as [o w] eqn:Hreq.
  assert (o = Ret (transport (clock (g_world s)) (artifact_url +:+ id) token)) as ->
    by by injection Hreq.
  assert (started (trace w) = started (trace (g_world s))) as Hw.
  { injection Hreq as <-. cbn [trace]. rewrite started_app. apply app_nil_r. }
  destruct (transport _ _ _) as [[[[data err] |]] |].
  - cbn [Body body_err body_data]. destruct err.
    + pose proof (step_list_read_error token runId whereToSave s id todo data w Hpc Hreq)
        as Hstep.
      exists []. cbn [fst snd Println emit trace]. split.
      * rewrite started_app. cbn [started omap list_omap go_id].
        by rewrite !app_nil_r.
      * apply rtc_once.
        match type of Hstep with step _ _ _ _ (Running ?x) =>
          replace (walked s _ todo []) with x; [done |] end.
        unfold walked. cbn. by rewrite app_nil_r, Nat.add_0_r.
    + destruct (unmarshal_listing data) as [folders [|]] eqn:Hdata.
      * pose proof (step_list_malformed token runId whereToSave s id todo data w Hpc Hreq)
          as Hstep.
        rewrite Hdata in Hstep. specialize (Hstep eq_refl).
        exists []. cbn [fst snd Println emit trace]. split.
        -- rewrite started_app. cbn [started omap list_omap go_id].
           by rewrite !app_nil_r.
        -- apply rtc_once.
           match type of Hstep with step _ _ _ _ (Running ?x) =>
             replace (walked s _ todo []) with x; [done |] end.
           unfold walked. cbn. by rewrite app_nil_r, Nat.add_0_r.
      * pose proof (step_list token runId whereToSave s id todo data w Hpc Hreq) as Hstep.
        rewrite Hdata in Hstep. specialize (Hstep eq_refl). cbn [fst] in Hstep.
        match type of Hstep with step _ _ _ _ (Running ?x) => set (s1 := x) in * end.
        pose proof (walk_loop fuel IH folders todo s1 eq_refl) as Hloop.
        change (g_world s1) with w in Hloop. unfold walk_result in Hloop |- *.
        destruct (for_each folders _ w) as [[[] | msg |] w']; cbn [fst snd] in Hloop |- *.
        -- destruct Hloop as (ids & Htr & Hrun). exists ids. split.
           ++ rewrite Htr. subst s1. cbn [g_world set_main set_world]. by rewrite Hw.
           ++ eapply rtc_l; [exact Hstep |].
              replace (walked s w' todo ids) with (walked s1 w' todo ids); done.
        -- by eapply rtc_l.
        -- done.
  - apply rtc_once. eapply step_list_nil; [done | exact Hreq | by right].
  - apply rtc_once. eapply step_list_nil; [done | exact Hreq | by left].
Qed.

Lemma crashed_stuck w p : ¬ step token runId whereToSave (Crashed w) p.
Proof. inversion 1. Qed.

Lemma returned_early_stuck w p :
  ¬ step token runId whereToSave (returned_early w) p.
Proof.
  unfold returned_early. inversion 1; subst; simpl in *; discriminate.
Qed.

Lemma getFolder_frame (w : World) :
  ∃ roots tr c,
    getFolder token runId w = (Ret roots, mkWorld (fs w) (trace w ++ tr) c)
    ∧ Forall (λ e, is_fs_event e = false ∧ go_id e = None) tr.
Proof.
  destruct (getFolder_returns token runId w) as (roots & n & ->).
  eexists _, _, _. split; [done |]. unfold attempts_trace. clear roots.
  induction n as [| n IH]; [constructor |].
  cbn [replicate concat app]. by repeat constructor.
Qed.

(** C10. When root discovery yields no root node, [GetArtifacts] prints
    the failure message and returns: that state is reached, the process
    can be in no other state than it and the initial one, and nothing
    moves from it. No download goroutine exists in either, neither
    reconciliation nor repair has run, and the file system is the one
    [GetArtifacts] found: all that has happened are the sleeps and
    requests of the discovery and the message. *)
Theorem GetArtifacts_returns_without_roots (w0 : World) :
  (getFolder token runId w0).1 = Ret [] →
  let w1 := (getFolder token runId w0).2 in
  reachable token runId whereToSave w0 (returned_early w1)
  ∧ (∀ p, reachable token runId whereToSave w0 p →
          p = initial w0 ∨ p = returned_early w1)
  ∧ (∀ p, ¬ step token runId whereToSave (returned_early w1) p)
  ∧ fs (later w1 [EvPrint "Failed to retrieve root folders."]) = fs w0
  ∧ ∃ tr, trace (later w1 [EvPrint "Failed to retrieve root folders."])
          = trace w0 ++ tr
          ∧ Forall (λ e, is_fs_event e = false ∧ go_id e = None) tr.
Proof.
  intros Hroots w1.
  assert (getFolder token runId w0 = (Ret [], w1)) as Hrun.
  { subst w1. by destruct (getFolder token runId w0) as [o w]; simpl in *; subst. }
  assert (step token runId whereToSave (initial w0) (returned_early w1)) as Hstep.
  { by apply (step_no_roots token runId whereToSave
                (mkG w0 PcStart [] 0 0 false SinkNone) [] w1). }
  split; [by apply rtc_once |]. split; [| split; [apply returned_early_stuck |]].
  - unfold reachable. apply rtc_ind_r; [by left |].
    intros p p' _ Hp [-> | ->]; [| by apply returned_early_stuck in Hp].
    right. inversion Hp; subst; simpl in *; try discriminate.
    + rewrite Hrun in *. by simplify_eq.
    + rewrite Hrun in *. by simplify_eq.
  - destruct (getFolder_frame w0) as (roots & tr & c & Hrun' & Htr).
    rewrite Hrun in Hrun'. injection Hrun' as _ ->.
    split; [done |]. exists (tr ++ [EvPrint "Failed to retrieve root folders."]).
    cbn [later trace fs]. split; [by rewrite app_assoc |].
    apply Forall_app. split; [done |]. by repeat constructor.
Qed.

End OrchestrationProofs.

(** *** More on root discovery *)

Lemma first_from_None (P : nat → bool) (i n : nat) :
  (∀ j, i ≤ j < i + n → P j = false) → first_from P i n = None.
Proof.
  revert i. induction n as [| n IH]; intros i HP; [done |].
  cbn [first_from]. rewrite HP by lia. apply IH. intros j Hj. apply HP. lia.
Qed.

Lemma observed_never (obs : nat → option (list ArtifactTree)) (n : nat) (c : string) :
  (∀ j l, j < n → obs j = Some l → Forall (λ f, Name f ≠ c) l) →
  observed obs n c = false.
Proof.
  intros Hnever. unfold observed.
  apply not_true_is_false. intros (j & Hj & Hobs)%existsb_exists.
  apply in_seq in Hj. destruct (obs j) as [l |] eqn:Hl; [| done].
  apply existsb_exists in Hobs as (f & Hf & Hname).
  apply String.eqb_eq in Hname.
  pose proof (Hnever j l ltac:(lia) Hl) as Hall.
  by apply (proj1 (Forall_forall _ _) Hall f); [apply list_elem_of_In |].
Qed.

(** X1. When one of the expected categories is in none of the
    listings the five attempts obtain, whatever else they hold, root
    discovery makes all five attempts, with their five sleeps of five
    seconds, and returns the last listing obtained: a run without one of
    the seven categories always costs the five attempts. *)
Theorem getFolder_makes_all_attempts_when_a_category_is_missing
    (token folder c : string) (w : World) :
  let obs := attempt_listing (clock w) token folder in
  c ∈ expected_categories →
  (∀ j l, j < 5 → obs j = Some l → Forall (λ f, Name f ≠ c) l) →
  getFolder token folder w
  = (Ret (last_obtained obs 5),
     mkWorld (fs w) (trace w ++ attempts_trace token folder 5) (clock w + 5)).
Proof.
  intros obs Hc Hnever.
  assert (∀ n, n ≤ 5 → covered obs n = false) as Hcov.
  { intros n Hn. unfold covered. apply not_true_is_false.
    intros Hall. rewrite forallb_forall in Hall.
    specialize (Hall c (proj1 (list_elem_of_In _ _) Hc)).
    rewrite observed_never in Hall; [done |].
    intros j l Hj. apply Hnever. lia. }
  assert (first_from (λ j, covered obs (S j)) 0 5 = None) as Hfirst.
  { apply first_from_None. intros j Hj. apply Hcov. lia. }
  destruct (getFolder_loop_spec token folder (clock w) 5 0 expectedFolders [] w)
    as (k & _ & Hk & Hrun);
    [lia | apply checklist_start | done | done |].
  fold obs in Hk, Hrun. rewrite Hfirst in Hk, Hrun. subst k.
  unfold getFolder. by rewrite Hrun.
Qed.
(** *** More on the tree walker *)

Lemma extends_by_refl ok w : extends_by ok w w.
Proof.
  split; [done |]. exists []. rewrite app_nil_r. split; [done |].
  split; [constructor | simpl; lia].
Qed.

Lemma requested_app tr1 tr2 : requested (tr1 ++ tr2) = requested tr1 ++ requested tr2.
Proof. apply omap_app. Qed.

Lemma printed_app tr1 tr2 : printed (tr1 ++ tr2) = printed tr1 ++ printed tr2.
Proof. apply omap_app. Qed.

Lemma extends_by_trans ok w1 w2 w3 :
  extends_by ok w1 w2 → extends_by ok w2 w3 → extends_by ok w1 w3.
Proof.
  intros (Hfs1 & tr1 & Htr1 & Hok1 & Hc1) (Hfs2 & tr2 & Htr2 & Hok2 & Hc2).
  split; [congruence |]. exists (tr1 ++ tr2).
  split; [by rewrite Htr2, Htr1, app_assoc |].
  split; [by apply Forall_app |].
  rewrite requested_app, length_app. lia.
Qed.

Lemma extends_by_emit ok e w :
  ok e = true → requested [e] = [] → extends_by ok w (emit e w).2.
Proof.
  intros Hok He. split; [done |]. exists [e]. split; [done |].
  split; [by repeat constructor |]. rewrite He. simpl. lia.
Qed.

(** A loop whose rounds only add events of one kind only adds events of
    that kind, however it ends. *)
Lemma for_each_extends {A} ok (l : list A) (body : A → M unit) :
  (∀ x w, x ∈ l → extends_by ok w (body x w).2) →
  ∀ w, extends_by ok w (for_each l body w).2.
Proof.
  induction l as [| x l IH]; intros Hbody w; [apply extends_by_refl |].
  cbn [for_each]. unfold mbind, M_bind.
  pose proof (Hbody x w (list_elem_of_here _ _)) as Hx.
  destruct (body x w) as [[[] | msg |] w1]; [| done | done].
  eapply extends_by_trans; [exact Hx |].
  apply IH. intros y w' Hy. apply Hbody. by apply list_elem_of_further.
Qed.

Lemma walker_extends fuel token folderID whereToSave w :
  extends_by walker_event w (getFoldersRecursively fuel token folderID whereToSave w).2.
Proof.
  revert folderID w. induction fuel as [| fuel IH]; intros folderID w;
    [apply extends_by_refl |].
  cbn [getFoldersRecursively]. unfold mbind at 1, M_bind at 1.
  unfold SendGetRequest.
  set (w1 := mkWorld _ _ _).
  assert (extends_by walker_event w w1) as H1.
  { split; [done |]. exists [EvGet (artifact_url +:+ folderID) token].
    split; [done |]. split; [by repeat constructor |]. simpl. lia. }
  destruct (transport _ _ _) as [[[body |]] |]; cbn [Body]; [| done | done].
  destruct (body_err body).
  { eapply extends_by_trans; [exact H1 |]. by apply extends_by_emit. }
  destruct (unmarshal_listing (body_data body)) as [folders [|]].
  { eapply extends_by_trans; [exact H1 |]. by apply extends_by_emit. }
  eapply extends_by_trans; [exact H1 |].
  apply for_each_extends. intros folder w2 _.
  destruct (IsFile folder); [by apply extends_by_emit | apply IH].
Qed.

(** X2. Whatever the remote side answers and however the
    walk ends (it returns, it panics on a nil response, or the tree goes
    deeper than the fuel), [getFoldersRecursively] leaves the file system
    as it was: all it does is send listing requests, print, and start
    download goroutines; it never sleeps, and [whereToSave] is only
    handed on. *)
Theorem walker_leaves_the_files_alone
    (fuel : nat) (token folderID whereToSave : string) (w : World) :
  let w' := (getFoldersRecursively fuel token folderID whereToSave w).2 in
  fs w' = fs w
  ∧ ∃ tr, trace w' = trace w ++ tr
          ∧ Forall (λ e, walker_event e = true) tr
          ∧ Forall (λ e, is_fs_event e = false) tr
          ∧ clock w' = clock w + length (requested tr).
Proof.
  destruct (walker_extends fuel token folderID whereToSave w)
    as (Hfs & tr & Htr & Hok & Hclock).
  split; [done |]. exists tr. split; [done |]. split; [done |].
  split; [| done].
  eapply Forall_impl; [exact Hok |]. by intros [].
Qed.

Lemma ltree_rect' (P : ltree → Prop) :
  (∀ id name, P (LFile id name)) →
  (∀ id name children, Forall P children → P (LFolder id name children)) →
  (∀ id name body, P (LBroken id name body)) →
  ∀ t, P t.
Proof.
  intros Hfile Hfolder Hbroken. fix IH 1.
  intros [id name | id name children | id name body];
    [apply Hfile | apply Hfolder | apply Hbroken].
  induction children as [| c l IHl]; constructor; [apply IH | exact IHl].
Qed.

Lemma answers_folder token id name children :
  answers token (LFolder id name children)
  ↔ (∀ n, ∃ data,
        transport n (artifact_url +:+ id) token
        = Some (mkResponse (Some (mkBody data false)))
        ∧ unmarshal_listing data = (map lnode children, false))
    ∧ Forall (answers token) children.
Proof.
  simpl. apply and_iff_compat_l.
  induction children as [| c l IH]; [by split |].
  rewrite Forall_cons. by rewrite IH.
Qed.

Lemma ldepth_child c children :
  c ∈ children → ldepth c ≤ list_max (map ldepth children).
Proof.
  induction children as [| c' l IH]; simpl; [by intros ?%elem_of_nil |].
  intros [-> | Hc]%elem_of_cons; [lia |].
  specialize (IH Hc). lia.
Qed.

Lemma flat_map_omap {A B C} (f : B → option C) (g : A → list B) (h : A → list C)
    (l : list A) :
  Forall (λ x, omap f (g x) = h x) l →
  omap f (flat_map g l) = flat_map h l.
Proof.
  induction 1 as [| x l Hx _ IH]; [done |].
  simpl. by rewrite omap_app, Hx, IH.
Qed.

Lemma started_walk_events token t : started (walk_events token t) = lleaves t.
Proof.
  induction t as [id name | id name children IH | id name body] using ltree_rect';
    [done | | done].
  cbn [walk_events lleaves started omap go_id].
  by apply flat_map_omap.
Qed.

Lemma printed_walk_events token t : printed (walk_events token t) = lcomplaints t.
Proof.
  induction t as [id name | id name children IH | id name body] using ltree_rect';
    [done | | done].
  cbn [walk_events lcomplaints printed omap].
  by apply flat_map_omap.
Qed.

Lemma requested_walk_events token t :
  requested (walk_events token t)
  = map (λ id, (artifact_url +:+ id, token)) (lfolders t).
Proof.
  induction t as [id name | id name children IH | id name body] using ltree_rect';
    [done | | done].
  cbn [walk_events lfolders map].
  change (requested (?e :: ?l)) with (requested ([e] ++ l)).
  rewrite requested_app. cbn [requested omap app]. simpl. f_equal.
  induction IH as [| c l Hc _ IHl]; [done |].
  cbn [flat_map]. by rewrite requested_app, map_app, Hc, IHl.
Qed.

Lemma world_eq (f : gmap (list string) node) tr1 tr2 c1 c2 :
  tr1 = tr2 → c1 = c2 → mkWorld f tr1 c1 = mkWorld f tr2 c2.
Proof. by intros -> ->. Qed.

Lemma after_events_nil w : after_events w [] = w.
Proof. destruct w. unfold after_events. simpl. rewrite app_nil_r. f_equal. lia. Qed.

Lemma after_events_app w tr1 tr2 :
  after_events (after_events w tr1) tr2 = after_events w (tr1 ++ tr2).
Proof.
  unfold after_events. cbn [fs trace clock].
  rewrite requested_app, length_app, app_assoc. f_equal. lia.
Qed.

(** The rounds of the loop over the entries of [children], given the walk
    of each of them that is a folder. *)
Lemma lwalk_children fuel token whereToSave (children : list ltree) :
  (∀ c w, c ∈ children → IsFile (lnode c) = false →
     getFoldersRecursively fuel token (ID (lnode c)) whereToSave w
     = (Ret tt, after_events w (walk_events token c))) →
  ∀ w,
    for_each (map lnode children) (λ folder,
      if IsFile folder then Go (ID folder)
      else getFoldersRecursively fuel token (ID folder) whereToSave) w
    = (Ret tt, after_events w (flat_map (walk_events token) children)).
Proof.
  induction children as [| c l IH]; intros Hwalk w.
  - simpl. by rewrite after_events_nil.
  - cbn [map for_each flat_map]. unfold mbind, M_bind.
    assert ((if IsFile (lnode c) then Go (ID (lnode c))
             else getFoldersRecursively fuel token (ID (lnode c)) whereToSave) w
            = (Ret tt, after_events w (walk_events token c))) as ->.
    { destruct (IsFile (lnode c)) eqn:Hfile.
      - destruct c; try done. unfold Go, emit, after_events. simpl.
        f_equal. apply world_eq; [done | lia].
      - apply Hwalk; [apply list_elem_of_here | done]. }
    rewrite IH, after_events_app; [done |].
    intros c' w' Hc'. apply Hwalk. by apply list_elem_of_further.
Qed.

(** The walk of a folder of a tree the remote side answers for does
    [walk_events], with fuel for the depth of the tree. *)
Lemma lwalk_folder token whereToSave fuel :
  ∀ t w,
    ldepth t ≤ fuel → IsFile (lnode t) = false → answers token t →
    getFoldersRecursively fuel token (ID (lnode t)) whereToSave w
    = (Ret tt, after_events w (walk_events token t)).
Proof.
  induction fuel as [| fuel IH]; intros t w Hdepth Hfile Hans.
  { destruct t; simpl in Hdepth, Hfile; done || lia. }
  destruct t as [id name | id name children | id name body]; [done | |].
  - apply answers_folder in Hans as [Hlist Hchildren].
    destruct (Hlist (clock w)) as (data & Hresp & Hdata).
    cbn [getFoldersRecursively lnode ID]. unfold mbind at 1, M_bind at 1.
    unfold SendGetRequest. rewrite Hresp. cbn [Body body_err body_data].
    rewrite Hdata.
    rewrite lwalk_children.
    + unfold after_events. cbn [fs trace clock walk_events].
      change (requested (?e :: ?l)) with (requested ([e] ++ l)).
      rewrite requested_app, length_app, <- app_assoc. simpl.
      f_equal. apply world_eq; [done | lia].
    + intros c w2 Hc Hcfile. apply IH; [| done |].
      * pose proof (ldepth_child _ _ Hc) as Hd. simpl in Hdepth. lia.
      * by apply (proj1 (Forall_forall _ _) Hchildren).
  - destruct Hans as [Hresp Hbad].
    cbn [getFoldersRecursively lnode ID]. unfold mbind at 1, M_bind at 1.
    unfold SendGetRequest. rewrite Hresp. cbn [Body].
    cbn [walk_events]. unfold listing_complaint, after_events, Println, emit.
    cbn [fs trace clock].
    destruct (body_err body) eqn:Herr.
    + simpl. rewrite <- app_assoc. f_equal. apply world_eq; [done | lia].
    + destruct Hbad as [Hbad | Hbad]; [done |].
      destruct (unmarshal_listing (body_data body)) as [folders err].
      simpl in Hbad. subst err. simpl. rewrite <- app_assoc.
      f_equal. apply world_eq; [done | lia].
Qed.

(** X3. When the listing of a folder comes with a body that ends
    in a read error or does not decode, the walk prints a message, gives
    up that folder and goes on with its siblings: on a finite tree with
    such folders the walk returns, and it has started one download
    goroutine for every file that is under no such folder, in the order
    of the tree, and none for the others. *)
Theorem walker_gives_up_only_the_unreadable_folder
    (token whereToSave : string) (t : ltree) (w : World) :
  IsFile (lnode t) = false →
  answers token t →
  ∃ w',
    getFoldersRecursively (ldepth t) token (ID (lnode t)) whereToSave w = (Ret tt, w')
    ∧ started (trace w') = started (trace w) ++ lleaves t
    ∧ printed (trace w') = printed (trace w) ++ lcomplaints t
    ∧ fs w' = fs w.
Proof.
  intros Hfile Hans. eexists. split.
  - by apply lwalk_folder.
  - unfold after_events. cbn [trace fs].
    by rewrite started_app, started_walk_events, printed_app, printed_walk_events.
Qed.

(** X4. The walk of a finite tree sends one listing request for
    every folder it gets to, the root first and each folder before the
    entries after it, always with the token it was given, and no request
    for a file. *)
Theorem walker_lists_every_folder_once
    (token whereToSave : string) (t : ltree) (w : World) :
  IsFile (lnode t) = false →
  answers token t →
  let w' := (getFoldersRecursively (ldepth t) token (ID (lnode t)) whereToSave w).2 in
  requested (trace w')
  = requested (trace w) ++ map (λ id, (artifact_url +:+ id, token)) (lfolders t)
  ∧ clock w' = clock w + length (lfolders t).
Proof.
  intros Hfile Hans. rewrite lwalk_folder by done.
  unfold after_events. cbn [snd trace clock].
  rewrite requested_app, requested_walk_events.
  split; [done |]. by rewrite length_map.
Qed.
(** *** Where the paths of the program lead *)

Lemma resolve_nil base : resolve base [] = base.
Proof. unfold resolve. simpl. apply rev_involutive. Qed.

Lemma resolve_app base es1 es2 :
  resolve base (es1 ++ es2) = resolve (resolve base es1) es2.
Proof. unfold resolve. by rewrite fold_left_app, rev_involutive. Qed.

Lemma resolve_plain base names :
  Forall plain_name names → resolve base names = base ++ names.
Proof.
  intros H. unfold resolve. rewrite clean_fold_plain by done.
  by rewrite rev_app_distr, !rev_involutive.
Qed.

Lemma resolve_skip base e : e = "" ∨ e = "." → resolve base [e] = base.
Proof. unfold resolve. intros [-> | ->]; simpl; apply rev_involutive. Qed.

(** Going up as many times as there are plain names at the end. *)
Lemma resolve_ups base names :
  Forall plain_name names →
  resolve (base ++ names) (map (λ _, "..") names) = base.
Proof.
  induction names as [| n names IH] using rev_ind; intros Hnames.
  - simpl. rewrite app_nil_r. apply resolve_nil.
  - apply Forall_app in Hnames as [Hnames [Hn _]%Forall_cons].
    rewrite map_app. cbn [map].
    assert (map (λ _ : string, "..") names ++ [".."]
            = ".." :: map (λ _ : string, "..") names) as ->.
    { clear. induction names as [| x l IHl]; [done |]. simpl. by rewrite IHl. }
    change (".." :: ?l) with ([".."] ++ l). rewrite resolve_app.
    assert (resolve (base ++ names ++ [n]) [".."] = base ++ names) as ->.
    { unfold resolve. rewrite app_assoc, rev_app_distr. cbn [rev app fold_left].
      unfold path.clean_step. cbn [String.eqb Ascii.eqb Bool.eqb].
      destruct Hn as (_ & _ & _ & Hn).
      rewrite (proj2 (String.eqb_neq _ _) Hn). apply rev_involutive. }
    by apply IH.
Qed.

Lemma clean_stack_top top rest :
  clean_stack false (top :: rest) → top = ".." ∨ plain_name top.
Proof.
  intros (names & k & Heq & Hnames & _).
  destruct names as [| n names _] using rev_ind.
  - destruct k; simpl in Heq; [done |]. injection Heq as -> _. by left.
  - rewrite rev_app_distr in Heq. simpl in Heq. injection Heq as -> _.
    right. by apply Forall_app in Hnames as [_ [? _]%Forall_cons].
Qed.

(** The lexical clean-up does not change where the elements lead. *)
Lemma resolve_clean_step (out : list string) (e : string) (stack : list string) :
  clean_stack false out →
  fold_left (path.clean_step true) (rev (path.clean_step false out e)) stack
  = path.clean_step true (fold_left (path.clean_step true) (rev out) stack) e.
Proof.
  intros Hout.
  assert (∀ r o, path.clean_step r o e
                 = if String.eqb e "" then o
                   else if String.eqb e "." then o
                   else if String.eqb e ".." then
                     match o with
                     | top :: rest => if String.eqb top ".." then ".." :: o else rest
                     | [] => if r then [] else [".."]
                     end
                   else e :: o) as Hcs by done.
  rewrite !Hcs.
  destruct (String.eqb e "") eqn:E1; [done |].
  destruct (String.eqb e ".") eqn:E2; [done |].
  destruct (String.eqb e "..") eqn:E3.
  2:{ cbn [rev]. rewrite fold_left_app. cbn [fold_left].
      by rewrite Hcs. }
  apply String.eqb_eq in E3. subst e. clear Hcs E1 E2.
  destruct out as [| top rest]; [done |].
  destruct (String.eqb top "..") eqn:Etop.
  - cbn [rev]. rewrite fold_left_app. cbn [fold_left].
    apply String.eqb_eq in Etop. subst top.
    cbn [rev]. by rewrite fold_left_app.
  - cbn [rev]. rewrite fold_left_app. cbn [fold_left].
    destruct (clean_stack_top _ _ Hout) as [-> | Htop]; [done |].
    rewrite (clean_step_plain true _ top Htop).
    unfold path.clean_step. cbn [String.eqb Ascii.eqb Bool.eqb]. by rewrite Etop.
Qed.

Lemma resolve_clean_fold (es out stack : list string) :
  Forall no_slash es → clean_stack false out →
  fold_left (path.clean_step true)
    (rev (fold_left (path.clean_step false) es out)) stack
  = fold_left (path.clean_step true) es
      (fold_left (path.clean_step true) (rev out) stack).
Proof.
  revert out. induction es as [| e es IH]; intros out Hes Hout; [done |].
  apply Forall_cons in Hes as [He Hes].
  cbn [fold_left]. rewrite IH by (done || by apply clean_step_stack).
  by rewrite resolve_clean_step.
Qed.

(** The key of a path, from the elements of the path as it is written. *)
Lemma key_of_raw (p : string) :
  key_of p = resolve (if path.is_rooted p then [] else cwd) (strings.Split p slash).
Proof.
  unfold key_of, resolve, path.clean_elems.
  destruct (path.is_rooted p) eqn:Hrooted.
  - destruct (clean_elems_shape p) as (names & k & Hshape & Hnames & Hk).
    specialize (Hk Hrooted). subst k. simpl in Hshape.
    unfold path.clean_elems in Hshape. rewrite Hrooted in Hshape.
    change (rev []) with (@nil string). rewrite Hshape, clean_fold_plain by done.
    by rewrite app_nil_r, rev_involutive.
  - rewrite resolve_clean_fold.
    + done.
    + apply Split_no_slash.
    + exists [], 0. by split.
Qed.

Lemma key_of_slash (p q : string) :
  p ≠ "" → key_of (p +:+ "/" +:+ q) = resolve (key_of p) (strings.Split q slash).
Proof.
  intros Hp. rewrite !key_of_raw, Split_app_slash, is_rooted_app by done.
  apply resolve_app.
Qed.

(** [path.Join] of two elements leads where the second leads from the
    first. *)
Lemma key_of_Join_two (p q : string) :
  p ≠ "" → key_of (path.Join [p; q]) = resolve (key_of p) (strings.Split q slash).
Proof.
  intros Hp. rewrite path_Join_two.
  rewrite decide_False by done.
  case_decide as Hq.
  - subst q. rewrite key_of_Clean. simpl. by rewrite resolve_skip by by left.
  - by rewrite key_of_Clean, key_of_slash.
Qed.

Lemma Clean_nonempty (p : string) : path.Clean p ≠ "".
Proof.
  unfold path.Clean. destruct (path.is_rooted p); [done |].
  destruct (String.eqb _ "") eqn:E; [done |]. by apply String.eqb_neq.
Qed.

Lemma clean_step_no_dotdot (out : list string) (e : string) :
  ".." ∉ out → ".." ∉ path.clean_step true out e.
Proof.
  intros Hout. unfold path.clean_step.
  destruct (String.eqb e ""); [done |].
  destruct (String.eqb e "."); [done |].
  destruct (String.eqb e "..") eqn:E.
  - destruct out as [| top rest]; [done |].
    apply not_elem_of_cons in Hout as [Htop Hrest].
    destruct (String.eqb top "..") eqn:Etop; [| done].
    by apply String.eqb_eq in Etop.
  - apply not_elem_of_cons. split; [| done].
    intros <-. by rewrite String.eqb_refl in E.
Qed.

Lemma elem_of_rev_list {A} (x : A) (l : list A) : x ∈ rev l ↔ x ∈ l.
Proof. rewrite !list_elem_of_In. symmetry. apply in_rev. Qed.

Lemma resolve_no_dotdot (base es : list string) :
  ".." ∉ base → ".." ∉ resolve base es.
Proof.
  intros Hbase. unfold resolve. rewrite elem_of_rev_list.
  assert (".." ∉ rev base) as Hrev by by rewrite elem_of_rev_list.
  revert Hrev. generalize (rev base) as out.
  induction es as [| e es IH]; intros out Hout; [done |].
  cbn [fold_left]. by apply IH, clean_step_no_dotdot.
Qed.

(** No key has a [..] in it, when the working directory has none. *)
Lemma key_of_no_dotdot (p : string) : ".." ∉ cwd → ".." ∉ key_of p.
Proof.
  intros Hcwd. rewrite key_of_raw. apply resolve_no_dotdot.
  destruct (path.is_rooted p); [by intros ?%elem_of_nil | done].
Qed.

Lemma resolve_up (base : list string) :
  ".." ∉ base → resolve base [".."] = removelast base.
Proof.
  intros Hbase. unfold resolve.
  destruct base as [| x base _] using rev_ind; [done |].
  rewrite rev_app_distr, removelast_last. cbn [rev app fold_left].
  unfold path.clean_step. cbn [String.eqb Ascii.eqb Bool.eqb].
  apply not_elem_of_app in Hbase as [_ [Hx _]%not_elem_of_cons].
  rewrite (proj2 (String.eqb_neq x "..")) by done.
  apply rev_involutive.
Qed.

Lemma Split_dot : strings.Split "." slash = ["."].
Proof. reflexivity. Qed.

(** [filepath.Rel] gives a path that leads from the base to the target:
    the target below a directory the base is below as well. *)
Lemma Rel_below_leads (B P : string) (cr bs rel : list string) :
  path.clean_elems B = cr ++ bs →
  path.clean_elems P = cr ++ rel →
  path.is_rooted B = path.is_rooted P →
  Forall plain_name bs → Forall plain_name rel →
  ∃ r, path.Rel B P = Some r
       ∧ ∀ X, resolve (X ++ bs) (strings.Split r slash) = X ++ rel.
Proof.
  intros HB HP Hroot Hbs Hrel. unfold path.Rel.
  destruct (String.eqb_spec (path.Clean P) (path.Clean B)) as [Heq | _].
  { exists ".". split; [done |]. intros X. rewrite Split_dot.
    rewrite resolve_skip by by right.
    apply (f_equal path.clean_elems) in Heq.
    rewrite !clean_elems_Clean, HB, HP in Heq.
    by apply app_inv_head in Heq as ->. }
  rewrite !Clean_rooted, Hroot, Bool.eqb_reflx. cbn [negb].
  unfold path.rel_elems. rewrite !Clean_rooted, !clean_elems_Clean, HB, HP, Hroot.
  assert (∃ b t, path.drop_common
                   (if path.is_rooted P then "" :: cr ++ bs
                    else match cr ++ bs with [] => [] | _ :: _ => cr ++ bs end)
                   (if path.is_rooted P then "" :: cr ++ rel
                    else match cr ++ rel with [] => ["."] | _ :: _ => cr ++ rel end)
                 = (b, t)
                 ∧ ∃ c t', bs = c ++ b ∧ rel = c ++ t'
                           ∧ (t = t' ∨ (t = ["."] ∧ t' = [])))
    as (b & t & -> & c & t' & Hb & Ht & Htt).
  { destruct (path.is_rooted P).
    - exists (path.drop_common bs rel).1, (path.drop_common bs rel).2.
      split.
      + change ("" :: cr ++ bs) with (("" :: cr) ++ bs).
        change ("" :: cr ++ rel) with (("" :: cr) ++ rel).
        rewrite drop_common_app. by destruct (path.drop_common bs rel).
      + destruct (drop_common_split bs rel) as (c & Hc1 & Hc2).
        exists c, (path.drop_common bs rel).2. by eauto.
    - assert (match cr ++ bs with [] => [] | _ :: _ => cr ++ bs end = cr ++ bs)
        as -> by (by destruct (cr ++ bs)).
      destruct (cr ++ rel) as [| x l] eqn:E.
      + apply app_eq_nil in E as [-> ->]. simpl.
        destruct bs as [| y bs'].
        * exists [], ["."]. split; [done |]. exists [], []. by eauto.
        * exists (y :: bs'), ["."]. split.
          { simpl. apply Forall_cons in Hbs as [(_ & _ & Hy & _) _].
            by rewrite (proj2 (String.eqb_neq _ _) Hy). }
          exists [], []. by eauto.
      + rewrite <- E, drop_common_app.
        exists (path.drop_common bs rel).1, (path.drop_common bs rel).2.
        split; [by destruct (path.drop_common bs rel) |].
        destruct (drop_common_split bs rel) as (c & Hc1 & Hc2).
        exists c, (path.drop_common bs rel).2. by eauto. }
  assert (∃ r, match b, t with
               | x :: _, _ :: _ =>
                   if String.eqb x ".." then None
                   else Some (strings.Join (map (λ _, "..") b ++ t) "/")
               | _, _ => Some (strings.Join (map (λ _, "..") b ++ t) "/")
               end = Some r
               ∧ r = strings.Join (map (λ _, "..") b ++ t) "/") as (r & -> & ->).
  { destruct b as [| x b]; [by eauto |]. destruct t as [| y t]; [by eauto |].
    rewrite Hb in Hbs. apply Forall_app in Hbs as [_ [Hx _]%Forall_cons].
    destruct Hx as (_ & _ & _ & Hx).
    rewrite (proj2 (String.eqb_neq _ _) Hx). by eauto. }
  eexists. split; [done |]. intros X.
  rewrite Hb in Hbs. apply Forall_app in Hbs as [Hc Hb'].
  rewrite Ht in Hrel. apply Forall_app in Hrel as [_ Ht'].
  assert (resolve (X ++ bs) (map (λ _, "..") b ++ t) = X ++ rel) as Hleads.
  { rewrite resolve_app, Hb, app_assoc, resolve_ups by done.
    rewrite Ht. destruct Htt as [-> | [-> ->]].
    - by rewrite resolve_plain, app_assoc.
    - rewrite resolve_skip by by right. by rewrite app_nil_r. }
  destruct (map (λ _, "..") b ++ t) as [| e es] eqn:El.
  { rewrite resolve_nil in Hleads.
    change (strings.Split (strings.Join [] "/") slash) with [""].
    by rewrite resolve_skip by by left. }
  rewrite Split_Join; [done | | done].
  rewrite <- El. apply Forall_app. split.
  - apply Forall_forall. intros e' (z & -> & _)%list_elem_of_fmap. reflexivity.
  - destruct Htt as [-> | [-> _]]; [by apply plain_no_slash |].
    by repeat constructor.
Qed.
(** *** More on the file materializer *)

(** The file system after [downloadFile]: the directories are made; then,
    if the request is answered and the file can be created, the body is
    at the place of the file. *)
Lemma downloadFile_fs token fileID root w :
  fileID ≠ "" →
  let f1 := (mkdir_all (fs w) [] (key_of (local_dir root fileID))).1 in
  let place := key_of (local_path root fileID) in
  fs (downloadFile token fileID root w).2 = f1
  ∨ (∃ c, fs (downloadFile token fileID root w).2 = <[place := NFile c]> f1
          ∧ f1 !! place ≠ Some NDir).
Proof.
  intros Hne f1 place. rewrite downloadFile_unfold by done.
  unfold mbind, M_bind, mret, M_ret, MkdirAll, SendGetRequest, Create, Copy, panic.
  subst f1 place.
  destruct (mkdir_all _ _ _) as [f1 [|]]; cbn [trace fs clock fst]; [| by left].
  destruct (transport _ _ _) as [[[body |]] |]; cbn [Body trace fs clock];
    [| by left | by left].
  destruct (key_of (local_path root fileID)) as [| k0 k]; [by left |].
  destruct (lookup_node f1 _) as [[c |] |]; cbn [trace fs clock];
    [by left | | by left].
  destruct (f1 !! (k0 :: k)) as [[c |] |] eqn:Hold; cbn [trace fs clock].
  - right. exists (body_data body). rewrite insert_insert_eq.
    split; [by destruct (body_err body) | done].
  - by left.
  - right. exists (body_data body). rewrite insert_insert_eq.
    split; [by destruct (body_err body) | done].
Qed.

(** X5. Whatever the identifier is and however the download
    ends, [downloadFile] removes nothing and changes no file but the one
    at the place of the identifier: every directory stays a directory,
    every other file keeps its content, and what is new is a directory
    on the way to the file, or the file itself. *)
Theorem downloadFile_changes_only_its_place
    (token fileID whereToSave : string) (w : World) :
  let w' := (downloadFile token fileID whereToSave w).2 in
  let place := key_of (local_path whereToSave fileID) in
  (∀ k, fs w !! k = Some NDir → fs w' !! k = Some NDir)
  ∧ (∀ k c, fs w !! k = Some (NFile c) → k ≠ place →
            fs w' !! k = Some (NFile c))
  ∧ (∀ k n, fs w !! k = None → fs w' !! k = Some n →
       (n = NDir ∧ k `prefix_of` key_of (local_dir whereToSave fileID))
       ∨ (k = place ∧ ∃ c, n = NFile c)).
Proof.
  intros w' place. subst w'.
  destruct (decide (fileID = "")) as [-> | Hne].
  { rewrite downloadFile_empty. cbn [snd].
    split; [done |]. split; [done |]. intros k n Hk Hn. congruence. }
  pose proof (mkdir_all_mono (fs w) [] (key_of (local_dir whereToSave fileID)))
    as Hmono.
  pose proof (mkdir_all_lookup (fs w) [] (key_of (local_dir whereToSave fileID)))
    as Hnew.
  destruct (downloadFile_fs token fileID whereToSave w Hne) as [-> | (c & -> & Hfree)].
  - split; [intros k; apply Hmono |]. split; [intros k c Hk _; by apply Hmono |].
    intros k n Hk Hn. left.
    destruct (Hnew k n Hn) as [Hold | (_ & -> & r & _ & Hr & ->)]; [congruence |].
    done.
  - fold place in Hfree |- *. split; [| split].
    + intros k Hk. apply Hmono in Hk as Hk1.
      destruct (decide (place = k)) as [<- | Hne']; [done |].
      by rewrite lookup_insert_ne.
    + intros k c' Hk Hne'. rewrite lookup_insert_ne by done. by apply Hmono.
    + intros k n Hk Hn.
      destruct (decide (place = k)) as [<- | Hne'].
      * rewrite lookup_insert_eq in Hn. injection Hn as <-. right. by eauto.
      * rewrite lookup_insert_ne in Hn by done. left.
        destruct (Hnew k n Hn) as [Hold | (_ & -> & r & _ & Hr & ->)]; [congruence |].
        done.
Qed.

(** The place of the file of an identifier: where the pieces of the
    identifier lead from the destination root. *)
Lemma local_place (root fileID : string) :
  root ≠ "" →
  key_of (local_dir root fileID)
  = resolve (key_of root) (removelast (strings.Split fileID slash))
  ∧ key_of (local_path root fileID)
    = resolve (key_of root) (strings.Split fileID slash).
Proof.
  intros Hroot.
  assert (key_of (local_dir root fileID)
          = resolve (key_of root) (removelast (strings.Split fileID slash))) as Hdir.
  { unfold local_dir. rewrite key_of_Join_two by done.
    destruct (Split_cons fileID) as (h & t & Hs). rewrite Hs.
    destruct t as [| x t].
    - simpl. by rewrite resolve_skip, resolve_nil by by left.
    - rewrite Split_Join; [done | | done].
      pose proof (Split_no_slash fileID) as Hall. rewrite Hs in Hall.
      change (h :: x :: t) with ([h] ++ x :: t) in Hall |- *.
      rewrite removelast_app by done.
      apply Forall_app in Hall as [Hh Hall]. apply Forall_app. split; [done |].
      clear -Hall. revert x Hall. induction t as [| y t IH]; intros x Hall;
        [constructor |].
      apply Forall_cons in Hall as [Hx Hall]. cbn [removelast].
      constructor; [done | by apply IH]. }
  split; [done |].
  unfold local_path.
  assert (local_dir root fileID ≠ "") as Hne.
  { unfold local_dir. rewrite path_Join_two, decide_False by done.
    case_decide; apply Clean_nonempty. }
  rewrite key_of_Join_two, Hdir by done.
  destruct (Split_cons fileID) as (h & t & Hs).
  pose proof (Split_no_slash fileID) as Hall.
  assert (strings.Split fileID slash
          = removelast (strings.Split fileID slash)
            ++ [List.last (strings.Split fileID slash) ""]) as Hsplit.
  { rewrite Hs. apply app_removelast_last. done. }
  rewrite Hsplit at 3. rewrite resolve_app. f_equal.
  assert (no_slash (List.last (strings.Split fileID slash) "")) as Hlast.
  { rewrite Hsplit in Hall. by apply Forall_app in Hall as [_ [? _]%Forall_cons]. }
  exact Hlast.
Qed.

(** The download of a file whose place is [name] in the directory of key
    [D], when the request is answered and nothing is in the way. *)
Lemma downloadFile_at token fileID root body w (D : list string) (name : string) :
  fileID ≠ "" →
  key_of (local_dir root fileID) = D →
  key_of (local_path root fileID) = D ++ [name] →
  transport (clock w) (content_request fileID) token
    = Some (mkResponse (Some body)) →
  (∀ k c, k `prefix_of` D → fs w !! k ≠ Some (NFile c)) →
  fs w !! (D ++ [name]) ≠ Some NDir →
  ∃ w',
    downloadFile token fileID root w
    = (Ret (if body_err body then Some "error writing file: unexpected EOF"
            else None), w')
    ∧ trace w' = trace w ++ download_events token root fileID
    ∧ clock w' = S (clock w)
    ∧ fs w' = <[D ++ [name] := NFile (body_data body)]> (mkdir_all (fs w) [] D).1
    ∧ lookup_node (fs w') D = Some NDir
    ∧ (∀ k, k ≠ [] → k `prefix_of` D → fs w' !! k = Some NDir).
Proof.
  intros Hid Hdir Hfile Hresp Hway Hplace.
  rewrite downloadFile_unfold by done.
  unfold mbind, M_bind, mret, M_ret, MkdirAll, SendGetRequest, Create, Copy.
  rewrite Hdir, Hfile.
  pose proof (mkdir_all_ok (fs w) [] D Hway) as Hok.
  pose proof (mkdir_all_lookup_dir _ _ Hok) as Hparent.
  pose proof (λ r, mkdir_all_made (fs w) [] D r Hok) as Hmade.
  assert ((mkdir_all (fs w) [] D).1 !! (D ++ [name]) = fs w !! (D ++ [name]))
    as Hsame.
  { apply mkdir_all_other. intros Hp%prefix_length.
    rewrite length_app in Hp. simpl in Hp. lia. }
  destruct (mkdir_all (fs w) [] D) as [f1 ok] eqn:Hmk.
  cbn [fst snd app] in Hok, Hparent, Hsame, Hmade |- *. subst ok.
  cbn [fs trace clock].
  rewrite Hresp. cbn [Body].
  assert (∀ k, k ≠ [] → k `prefix_of` D →
               <[D ++ [name] := NFile (body_data body)]> f1 !! k = Some NDir)
    as Hdirs.
  { intros k Hk Hpre. rewrite lookup_insert_ne; [by apply Hmade |].
    intros <-. apply prefix_length in Hpre. rewrite length_app in Hpre.
    simpl in Hpre. lia. }
  destruct (D ++ [name]) as [| k0 k] eqn:Hkey; [by destruct D |].
  assert (removelast (k0 :: k) = D) as Hrl.
  { rewrite <- Hkey. apply removelast_last. }
  cbn beta iota. cbn [fs trace clock Body]. rewrite Hrl, Hparent, Hsame.
  assert (lookup_node (<[k0 :: k := NFile (body_data body)]> f1) D = Some NDir)
    as Hdir'.
  { destruct D as [| d D']; [done |]. cbn [lookup_node] in Hparent |- *.
    rewrite lookup_insert_ne; [done |].
    rewrite <- Hkey. intros Heq. apply (f_equal length) in Heq.
    rewrite length_app in Heq. simpl in Heq. lia. }
  eexists.
  destruct (fs w !! (k0 :: k)) as [[c |] |] eqn:Hold; [| done |].
  all: cbn [fs trace clock]; split;
    [destruct (body_err body); reflexivity |];
    cbn [trace fs clock]; split; [by rewrite <- !app_assoc |];
    split; [done |]; by rewrite insert_insert_eq.
Qed.

(** X6. The identifier is not confined to the destination root: a
    leading [..] piece is followed. For an identifier [../segs] of plain
    pieces, when the request is answered and nothing is in the way, the
    content is written beside the root, at [segs] below the parent
    directory of the root, and the missing directories on the way are
    made there. *)
Theorem downloadFile_follows_dotdot_out_of_the_root
    (token root : string) (segs : list string) (body : ReadCloser) (w : World) :
  let fileID := strings.Join (".." :: segs) "/" in
  let parent := removelast (key_of root) in
  ".." ∉ cwd → root ≠ "" →
  Forall plain_name segs → segs ≠ [] →
  transport (clock w) (content_request fileID) token
    = Some (mkResponse (Some body)) →
  (∀ k c, k `prefix_of` parent ++ removelast segs → fs w !! k ≠ Some (NFile c)) →
  fs w !! (parent ++ segs) ≠ Some NDir →
  ∃ w',
    downloadFile token fileID root w
    = (Ret (if body_err body then Some "error writing file: unexpected EOF"
            else None), w')
    ∧ key_of (local_path root fileID) = parent ++ segs
    ∧ fs w' !! (parent ++ segs) = Some (NFile (body_data body))
    ∧ lookup_node (fs w') (parent ++ removelast segs) = Some NDir.
Proof.
  intros fileID parent Hcwd Hroot Hsegs Hne Hresp Hway Hplace.
  assert (strings.Split fileID slash = ".." :: segs) as Hsplit.
  { apply Split_Join; [| done].
    constructor; [apply dotdot_no_slash | by apply plain_no_slash]. }
  assert (fileID ≠ "") as Hid.
  { intros Heq. rewrite Heq in Hsplit. done. }
  destruct (local_place root fileID Hroot) as [Hdir Hfile].
  rewrite Hsplit in Hdir, Hfile.
  destruct segs as [| name init _] using rev_ind; [done |]. clear Hne.
  apply Forall_app in Hsegs as [Hinit [Hname _]%Forall_cons].
  rewrite removelast_last in Hway |- *.
  assert (removelast (".." :: init ++ [name]) = ".." :: init) as Hrl.
  { change (".." :: init ++ [name]) with ((".." :: init) ++ [name]).
    apply removelast_last. }
  rewrite Hrl in Hdir.
  change (".." :: ?l) with ([".."] ++ l) in Hdir, Hfile.
  pose proof (key_of_no_dotdot root Hcwd) as Hkey.
  rewrite resolve_app, (resolve_up _ Hkey), resolve_plain in Hdir by done.
  rewrite resolve_app, (resolve_up _ Hkey), resolve_plain in Hfile
    by (apply Forall_app; split; [done | by constructor]).
  fold parent in Hdir, Hfile.
  rewrite app_assoc in Hfile, Hplace |- *.
  destruct (downloadFile_at token fileID root body w (parent ++ init) name
              Hid Hdir Hfile Hresp Hway Hplace)
    as (w' & Hrun & _ & _ & Hfs & Hparent & _).
  exists w'. split; [done |]. split; [done |]. split; [| done].
  rewrite Hfs. apply lookup_insert_eq.
Qed.

Lemma mkdir_all_blocked f pre rest r c :
  r ≠ [] → r `prefix_of` rest → f !! (pre ++ r) = Some (NFile c) →
  (mkdir_all f pre rest).2 = false.
Proof.
  revert f pre r. induction rest as [| x rest IH]; intros f pre r Hne Hpre Hfile.
  { apply prefix_nil_inv in Hpre. done. }
  destruct r as [| y r]; [done |].
  apply prefix_cons_inv_1 in Hpre as Hxy. subst y.
  apply prefix_cons_inv_2 in Hpre.
  cbn [mkdir_all].
  destruct r as [| z r].
  { by rewrite Hfile. }
  assert (pre ++ x :: z :: r = (pre ++ [x]) ++ z :: r) as Heq
    by by rewrite <- app_assoc.
  rewrite Heq in Hfile.
  destruct (f !! (pre ++ [x])) as [[c' |] |] eqn:Hk; [done | |].
  - by apply (IH f (pre ++ [x]) (z :: r)).
  - apply (IH _ (pre ++ [x]) (z :: r)); [done | done |].
    rewrite lookup_insert_ne; [done |].
    intros Hbad. apply (f_equal length) in Hbad.
    rewrite !length_app in Hbad. simpl in Hbad. lia.
Qed.

(** X7. What [downloadFile] does when something is in its
    way, for an identifier of plain pieces. A regular file where a
    directory of the path should be: the error says that the directory
    could not be created, and no request has been sent. A directory
    where the file should be, the request being answered: the error is
    that of [os.Create], after the request has been sent, and the
    directory is still there. *)
Theorem downloadFile_reports_what_is_in_its_way
    (token root : string) (segs : list string) (w : World) :
  let fileID := strings.Join segs "/" in
  let r := downloadFile token fileID root w in
  Forall plain_name segs → segs ≠ [] →
  (∀ k c, k ≠ [] → k `prefix_of` key_of root ++ removelast segs →
          fs w !! k = Some (NFile c) →
     (∃ e, r.1 = Ret (Some ("failed to create directory: " +:+ e)))
     ∧ trace r.2 = trace w ++ [EvMkdirAll (local_dir root fileID)]
     ∧ clock r.2 = clock w)
  ∧ (∀ body,
       (∀ k c, k `prefix_of` key_of root ++ removelast segs →
               fs w !! k ≠ Some (NFile c)) →
       fs w !! (key_of root ++ segs) = Some NDir →
       transport (clock w) (content_request fileID) token
         = Some (mkResponse (Some body)) →
       (∃ e, r.1 = Ret (Some ("got error while os.Create: " +:+ e)))
       ∧ trace r.2 = trace w ++ [EvMkdirAll (local_dir root fileID);
                                 EvGet (content_request fileID) token;
                                 EvCreate (local_path root fileID)]
       ∧ fs r.2 !! (key_of root ++ segs) = Some NDir).
Proof.
  intros fileID r Hsegs Hne. subst r.
  destruct (local_path_plain root segs Hsegs Hne) as [Hdir Hfile].
  fold fileID in Hdir, Hfile.
  assert (fileID ≠ "") as Hid by by apply Join_plain_nonempty.
  rewrite downloadFile_unfold by done.
  unfold mbind, M_bind, mret, M_ret, MkdirAll, SendGetRequest, Create.
  rewrite Hdir, Hfile. split.
  - intros k c Hk Hpre Hblock.
    pose proof (mkdir_all_blocked (fs w) [] _ k c Hk Hpre Hblock) as Hfail.
    destruct (mkdir_all (fs w) [] (key_of root ++ removelast segs)) as [f1 ok].
    cbn [snd] in Hfail. subst ok. cbn [fst snd fs trace clock].
    split; [by eexists | done].
  - intros body Hway Hplace Hresp.
    pose proof (mkdir_all_ok (fs w) [] (key_of root ++ removelast segs) Hway) as Hok.
    pose proof (mkdir_all_lookup_dir _ _ Hok) as Hparent.
    pose proof (mkdir_all_mono (fs w) [] (key_of root ++ removelast segs) _ _ Hplace)
      as Hstill.
    destruct (mkdir_all (fs w) [] (key_of root ++ removelast segs)) as [f1 ok].
    cbn [fst snd] in Hok, Hparent, Hstill. subst ok. cbn [fs trace clock].
    rewrite Hresp. cbn [Body].
    assert (removelast (key_of root ++ segs) = key_of root ++ removelast segs) as Hrl.
    { destruct segs as [| n init _] using rev_ind; [done |].
      by rewrite app_assoc, !removelast_last. }
    destruct (key_of root ++ segs) as [| k0 k] eqn:Hkey.
    { by destruct (key_of root), segs. }
    cbn beta iota. cbn [fs trace clock]. rewrite Hrl, Hparent, Hstill.
    cbn [fst snd fs trace clock].
    split; [by eexists |]. split; [by rewrite <- !app_assoc | done].
Qed.
(** *** More on the layout reconciliation *)

Lemma relocateContents_skips root runId w :
  stat_walk (fs w) [] (key_of (path.Join [root; runId])) = inr ENOENT →
  relocateContents root runId w
  = (Ret tt,
     later w [EvStat (path.Join [root; runId]);
              EvPrint (runId +:+ " directory does not exist. Skipping relocation.")]).
Proof.
  intros Hsrc. unfold relocateContents, mbind, M_bind, Stat, Println, emit, later.
  cbn [fs trace clock]. rewrite Hsrc. cbn [fs trace clock].
  by rewrite <- app_assoc.
Qed.

Lemma relocateContents_moves root runId w :
  is_Some (lookup_node (fs w) (key_of (path.Join [root; runId]))) →
  (copy_tree (fs w) (key_of (path.Join [root; runId])) (key_of root)).2 = true →
  List.last (strings.Split (path.Join [root; runId]) slash) "" ≠ "." →
  relocateContents root runId w
  = (Ret tt,
     mkWorld (remove_all (copy_tree (fs w) (key_of (path.Join [root; runId]))
                            (key_of root)).1
                (key_of (path.Join [root; runId])))
       (trace w ++ [EvStat (path.Join [root; runId]);
                    EvCopy (path.Join [root; runId]) root;
                    EvRemoveAll (path.Join [root; runId])])
       (clock w)).
Proof.
  intros _ Hok Hlast. destruct (copy_tree_found _ _ _ Hok) as [n Hsrc].
  unfold relocateContents, mbind, M_bind, mret, M_ret, Stat, CopyTree, RemoveAll.
  cbn [fs trace clock]. rewrite Hsrc. cbv beta. cbn [fs trace clock].
  destruct (copy_tree _ _ _) as [f2 ok]. cbn [fst snd] in Hok |- *. subst ok.
  cbn [fs trace clock].
  rewrite (proj2 (String.eqb_neq _ _) Hlast). by rewrite <- !app_assoc.
Qed.

(** X8. Once the run directory has been merged into the
    root and removed, a second reconciliation finds no run directory: it
    prints that it skips the relocation and changes nothing. The path of
    the run directory must not be empty, nor lead to the root of the file
    system. *)
Theorem relocateContents_again_skips (root runId : string) (w : World) :
  let runIdDir := path.Join [root; runId] in
  let w1 := (relocateContents root runId w).2 in
  runIdDir ≠ "" →
  key_of runIdDir ≠ [] →
  is_Some (lookup_node (fs w) (key_of runIdDir)) →
  (copy_tree (fs w) (key_of runIdDir) (key_of root)).2 = true →
  List.last (strings.Split runIdDir slash) "" ≠ "." →
  relocateContents root runId w1
  = (Ret tt,
     later w1 [EvStat runIdDir;
               EvPrint (runId +:+ " directory does not exist. Skipping relocation.")])
  ∧ lookup_node (fs w1) (key_of runIdDir) = None.
Proof.
  intros runIdDir w1 _ Hkey Hsrc Hok Hlast. subst w1.
  rewrite (relocateContents_moves root runId w Hsrc Hok Hlast). cbn [snd].
  fold runIdDir.
  assert (remove_all (copy_tree (fs w) (key_of runIdDir) (key_of root)).1
            (key_of runIdDir) !! key_of runIdDir = None) as Hgone
    by by apply remove_all_below.
  split; [| by destruct (key_of runIdDir)].
  apply relocateContents_skips. fold runIdDir. cbn [fs].
  destruct (copy_tree_found _ _ _ Hok) as [n [_ Hdirs]%stat_walk_found].
  apply stat_walk_missing; [done | | done].
  intros p Hp Hpre Hne. cbn [app]. rewrite remove_all_other.
  - destruct (stays_copy_tree (fs w) (key_of runIdDir) (key_of root) p NDir)
      as (n' & Hn' & Hdir); [by apply Hdirs |].
    by rewrite Hn', Hdir.
  - intros Hsp. apply Hne. by apply (anti_symm prefix).
Qed.

(** X9. A file whose identifier starts with the run
    identifier is downloaded into the run directory and ends, after the
    reconciliation, at the rest of its identifier below the root, the run
    directory being gone: [run123/logs/a.txt] ends at [root/logs/a.txt].
    The first piece after the run identifier must not be the run
    identifier again, nothing may be in the run directory under the
    name of the run identifier, and the copy of the run directory must
    succeed. *)
Theorem downloaded_file_ends_below_the_root
    (token root runId : string) (segs : list string) (body : ReadCloser)
    (w : World) :
  let fileID := strings.Join (runId :: segs) "/" in
  let runIdDir := path.Join [root; runId] in
  let w1 := (downloadFile token fileID root w).2 in
  let w2 := (relocateContents root runId w1).2 in
  plain_name runId → Forall plain_name segs → segs ≠ [] →
  head segs ≠ Some runId →
  transport (clock w) (content_request fileID) token
    = Some (mkResponse (Some body)) →
  (∀ k c, k `prefix_of` key_of root ++ runId :: removelast segs →
          fs w !! k ≠ Some (NFile c)) →
  fs w !! (key_of root ++ runId :: segs) ≠ Some NDir →
  (∀ k, key_of root ++ [runId; runId] `prefix_of` k → fs w !! k = None) →
  (copy_tree (fs w1) (key_of runIdDir) (key_of root)).2 = true →
  List.last (strings.Split runIdDir slash) "" ≠ "." →
  fs w1 !! (key_of root ++ runId :: segs) = Some (NFile (body_data body))
  ∧ fs w2 !! (key_of root ++ segs) = Some (NFile (body_data body))
  ∧ (∀ k, key_of root ++ [runId] `prefix_of` k → fs w2 !! k = None).
Proof.
  intros fileID runIdDir w1 w2 Hrun Hsegs Hne Hhead Hresp Hway Hplace Hnest
    Hok Hlast.
  assert (Forall plain_name (runId :: segs)) as Hall by by constructor.
  destruct (local_path_plain root (runId :: segs) Hall ltac:(done)) as [Hdir Hfile].
  fold fileID in Hdir, Hfile.
  assert (fileID ≠ "") as Hid by by apply Join_plain_nonempty.
  assert (key_of runIdDir = key_of root ++ [runId]) as Hsrc.
  { unfold runIdDir. apply key_of_Join; [by constructor | done]. }
  destruct segs as [| name init _] using rev_ind; [done |]. clear Hne.
  assert (removelast (runId :: init ++ [name]) = runId :: init) as Hrl.
  { change (runId :: init ++ [name]) with ((runId :: init) ++ [name]).
    apply removelast_last. }
  rewrite Hrl in Hdir. rewrite removelast_last in Hway.
  change (runId :: init ++ [name]) with ((runId :: init) ++ [name])
    in Hfile, Hplace |- *.
  rewrite !app_assoc in Hfile, Hplace |- *.
  destruct (downloadFile_at token fileID root body w (key_of root ++ runId :: init)
              name Hid Hdir Hfile Hresp Hway Hplace)
    as (w' & Hdl & _ & _ & Hfs & _ & Hdirs).
  assert (w1 = w') as Hw1 by (subst w1; by rewrite Hdl).
  assert (fs w1 !! ((key_of root ++ runId :: init) ++ [name])
          = Some (NFile (body_data body))) as Hthere.
  { rewrite Hw1, Hfs. apply lookup_insert_eq. }
  split; [done |].
  assert (∀ rel, is_Some (fs w1 !! (key_of root ++ runId :: runId :: rel)) → False)
    as Hnest1.
  { intros rel [n Hn]. rewrite Hw1, Hfs in Hn.
    destruct (decide ((key_of root ++ runId :: init) ++ [name]
                      = key_of root ++ runId :: runId :: rel)) as [Heq | Hneq].
    - rewrite <- !app_assoc in Heq. apply app_inv_head in Heq.
      injection Heq as Heq. destruct init; simpl in Heq, Hhead; congruence.
    - rewrite lookup_insert_ne in Hn by done.
      destruct (mkdir_all_lookup _ _ _ _ _ Hn) as [Hold | (_ & _ & r & _ & Hr & Heq)].
      + rewrite Hnest in Hold; [done |]. exists rel. by rewrite <- app_assoc.
      + cbn [app] in Heq. subst r. apply prefix_app_inv in Hr.
        apply prefix_cons_inv_2 in Hr.
        destruct init as [| x init]; [by apply prefix_nil_inv in Hr |].
        apply prefix_cons_inv_1 in Hr. simpl in Hhead. congruence. }
  assert (stat_walk (fs w1) [] (key_of runIdDir) = inl NDir) as Hstat.
  { destruct (copy_tree_found _ _ _ Hok) as [n Hn]. rewrite Hn. f_equal.
    apply stat_walk_found in Hn as [Hn _]. cbn [app] in Hn.
    rewrite Hsrc in Hn.
    assert (fs w1 !! (key_of root ++ [runId]) = Some NDir) as Hrundir.
    { rewrite Hw1. apply Hdirs; [by destruct (key_of root) |].
      exists init. by rewrite <- app_assoc. }
    assert (lookup_node (fs w1) (key_of root ++ [runId])
            = fs w1 !! (key_of root ++ [runId])) as Hlook
      by by destruct (key_of root).
    congruence. }
  destruct (copy_tree_apart (fs w1) (key_of runIdDir) (key_of root) Hstat)
    as (_ & _ & Hfile').
  { rewrite Hsrc. intros Hp%prefix_length. rewrite length_app in Hp. simpl in Hp. lia. }
  { rewrite Hsrc. intros rel _ Hsome Hp. apply prefix_app_inv in Hp.
    destruct rel as [| x rel]; [by apply prefix_nil_inv in Hp |].
    apply prefix_cons_inv_1 in Hp. subst x. rewrite <- app_assoc in Hsome.
    by apply (Hnest1 rel). }
  subst w2.
  rewrite (relocateContents_moves root runId w1); [| | done | done].
  2:{ apply stat_walk_found in Hstat as [Hn _]. by eexists. }
  cbn [snd fs]. fold runIdDir. rewrite Hsrc in Hfile' |- *.
  split; [| intros k Hk; by apply remove_all_below].
  rewrite remove_all_other.
  - rewrite Hsrc in Hok.
    apply (Hfile' Hok); [by destruct init | |].
    + rewrite <- Hthere. f_equal. by rewrite <- !app_assoc.
    + intros i Hi. rewrite Hw1. apply Hdirs; [by destruct (key_of root) |].
      rewrite <- app_assoc. apply prefix_app, prefix_cons.
      rewrite length_app in Hi. simpl in Hi.
      rewrite take_app_le by lia. apply prefix_take.
  - intros [rest Hrest].
    rewrite <- !app_assoc in Hrest. apply app_inv_head in Hrest.
    destruct init as [| x init]; simpl in Hrest, Hhead; congruence.
Qed.

(** X10. With an empty run identifier the run directory is the
    destination root itself: [filepath.Join(whereToSave, "")] is the
    cleaned root. The root is then copied onto itself and, when that copy
    reports no error, removed with everything in it. *)
Theorem relocateContents_with_an_empty_run_identifier_removes_the_root
    (root : string) (w : World) :
  let w' := (relocateContents root "" w).2 in
  root ≠ "" →
  is_Some (lookup_node (fs w) (key_of root)) →
  (copy_tree (fs w) (key_of root) (key_of root)).2 = true →
  List.last (strings.Split (path.Clean root) slash) "" ≠ "." →
  path.Join [root; ""] = path.Clean root
  ∧ trace w' = trace w ++ [EvStat (path.Clean root);
                           EvCopy (path.Clean root) root;
                           EvRemoveAll (path.Clean root)]
  ∧ (∀ k, key_of root `prefix_of` k → fs w' !! k = None).
Proof.
  intros w' Hroot Hsrc Hok Hlast. subst w'.
  assert (path.Join [root; ""] = path.Clean root) as Hjoin.
  { rewrite path_Join_two. by rewrite decide_False, decide_True by done. }
  split; [done |].
  rewrite relocateContents_moves; rewrite ?Hjoin, ?key_of_Clean; try done.
  cbn [snd trace fs]. split; [done |].
  intros k Hk. by apply remove_all_below.
Qed.

(** X11. Whatever the root and the run identifier are and
    however the reconciliation ends, it leaves alone every node that is
    neither below the destination root, nor on the way to it, nor below
    the run directory. *)
Theorem relocateContents_stays_in_its_directories
    (root runId : string) (w : World) (k : list string) :
  let w' := (relocateContents root runId w).2 in
  ¬ key_of root `prefix_of` k →
  ¬ k `prefix_of` key_of root →
  ¬ key_of (path.Join [root; runId]) `prefix_of` k →
  fs w' !! k = fs w !! k.
Proof.
  intros w' Hbelow Hway Hrun. subst w'.
  unfold relocateContents, mbind, M_bind, mret, M_ret, Stat, CopyTree, RemoveAll,
    Println, emit.
  cbn [fs trace clock].
  pose proof (copy_tree_outside (fs w) (key_of (path.Join [root; runId]))
                (key_of root) k Hbelow Hway) as Hcopy.
  destruct (stat_walk (fs w) _ _) as [n | [|]]; [| done |].
  all: cbv beta; cbn [fs trace clock].
  all: destruct (copy_tree _ _ _) as [f2 ok]; cbn [fst] in Hcopy.
  all: destruct ok; cbn [fs trace clock snd]; [| done].
  all: destruct (String.eqb _ "."); cbn [fs trace clock snd]; [done |].
  all: by rewrite remove_all_other.
Qed.
(** *** More on the goroutines of [GetArtifacts] *)

Lemma count_pos_lookup P (tasks : list (string * task_pc)) :
  0 < count P tasks → ∃ i id t, tasks !! i = Some (id, t) ∧ P t = true.
Proof.
  unfold count. induction tasks as [| [id t] tasks IH]; simpl; [lia |].
  destruct (P t) eqn:HP.
  - intros _. by exists 0, id, t.
  - intros H. destruct IH as (i & id' & t' & Hi & Ht); [lia |].
    by exists (S i), id', t'.
Qed.

(** [downloadFile] returns or panics; and it panics only on a nil
    response to its content request, which is then the last thing that
    happened. *)
Lemma downloadFile_outcome token fileID whereToSave w :
  (∃ err, (downloadFile token fileID whereToSave w).1 = Ret err)
  ∨ ((downloadFile token fileID whereToSave w).1 = Panicked nil_dereference
     ∧ ∃ tr n,
         trace (downloadFile token fileID whereToSave w).2
         = tr ++ [EvGet (content_request fileID) token]
         ∧ clock (downloadFile token fileID whereToSave w).2 = S n
         ∧ nil_response (transport n (content_request fileID) token)).
Proof.
  destruct (decide (fileID = "")) as [-> | Hne].
  { left. rewrite downloadFile_empty. by eexists. }
  rewrite downloadFile_unfold by done.
  unfold mbind, M_bind, MkdirAll.
  destruct (mkdir_all (fs w) [] (key_of (local_dir whereToSave fileID)))
    as [f [|]]; [| left; by eexists].
  unfold SendGetRequest. cbn [fs trace clock].
  destruct (transport (clock w) (content_request fileID) token) as [[[body |]] |]
    eqn:Hresp.
  - left. cbn [Body]. unfold Create, Copy, mret, M_ret. cbn [fs trace clock].
    destruct (key_of (local_path whereToSave fileID)) as [| x k];
      [by eexists |].
    destruct (lookup_node f (removelast (x :: k))) as [[|] |];
      try (by eexists).
    destruct (f !! (x :: k)) as [[|] |]; cbn [fs trace clock];
      destruct (body_err body); by eexists.
  - right. split; [done |]. eexists _, _. split; [done |]. split; [done |].
    by right.
  - right. split; [done |]. eexists _, _. split; [done |]. split; [done |].
    by left.
Qed.

Lemma relocateContents_returns root runId w :
  (relocateContents root runId w).1 = Ret tt.
Proof.
  unfold relocateContents, mbind, M_bind, Stat, CopyTree, RemoveAll.
  cbn [fs trace clock].
  destruct (stat_walk (fs w) _ _) as [n | [|]]; [| done |].
  all: destruct (copy_tree _ _ _) as [f [|]]; cbn [fs trace clock]; [| done].
  all: by destruct (String.eqb _ _).
Qed.

Lemma updateJsonPaths_returns root w : (updateJsonPaths root w).1 = Ret tt.
Proof.
  unfold updateJsonPaths, mbind, M_bind, Walk, ReadDir. cbn [fs trace clock].
  destruct (lookup_node (fs w) (key_of root)); [| done].
  cbn [fs trace clock].
  destruct (lookup_node (fs w) _) as [[|] |]; try done.
  match goal with
  | |- (for_each ?names (repair_file ?index ?dir) ?w1).1 = _ =>
      destruct (for_each_repair_fs index dir names w1) as [tr ->]
  end.
  done.
Qed.

Lemma sum_list_with_insert {A} (f : A → nat) (l : list A) (i : nat) (x y : A) :
  l !! i = Some x →
  sum_list_with f (<[i := y]> l) + f x = sum_list_with f l + f y.
Proof.
  revert i. induction l as [| z l IH]; intros i Hi; [done |].
  destruct i as [| i]; simpl in Hi |- *.
  - injection Hi as ->. lia.
  - specialize (IH i Hi). lia.
Qed.

Section OrchestrationMore.

Variables token runId whereToSave : string.

Lemma sink_invariant_step s s' :
  step token runId whereToSave (Running s) (Running s') →
  sink_invariant s → sink_invariant s'.
Proof.
  unfold sink_invariant, sink_listening.
  inversion 1; subst;
    cbn [g_sem g_wg g_tasks g_main g_closed g_sink g_world set_main set_world
         set_sink set_task set_sem set_wg];
    intros Hinv Hc Hs Hr;
    try done; try (by left); try (by right; eexists);
    try (apply Hinv; congruence); congruence.
Qed.

Lemma sink_invariant_reachable w0 s :
  reachable token runId whereToSave w0 (Running s) → sink_invariant s.
Proof.
  unfold reachable.
  assert (∀ p, rtc (step token runId whereToSave) (initial w0) p →
               ∀ s, p = Running s → sink_invariant s) as Hgen;
    [| by intros H; apply (Hgen _ H)].
  apply (rtc_ind_r (λ p, ∀ s, p = Running s → sink_invariant s)).
  - intros s0 [= <-]. by intros _ Hs.
  - intros p p' _ Hstep IH s' ->. destruct p as [s0 | w].
    + eapply sink_invariant_step; [done | by apply IH].
    + by apply crashed_stuck in Hstep.
Qed.

(** X12. [GetArtifacts] never deadlocks: in every state the process
    can be in, as long as [GetArtifacts] has not returned, some goroutine
    can make a step. A goroutine waiting for the semaphore waits for one
    that holds a slot and can go on; one that sends on the unbuffered
    [errors] finds the sink at its receive, or about to come back to it;
    and [wg.Wait()] waits for goroutines that can all go on. *)
Theorem GetArtifacts_never_deadlocks (w0 : World) (s : GState) :
  reachable token runId whereToSave w0 (Running s) →
  g_main s ≠ PcReturn →
  ∃ p, step token runId whereToSave (Running s) p.
Proof.
  intros Hreach Hret.
  pose proof (sink_invariant_reachable _ _ Hreach) as Hsink.
  apply invariant_reachable in Hreach as [Hsem Hcap Hwg Hbar Hclosed Hstart].
  assert (∀ i id t, g_tasks s !! i = Some (id, t) → holds_slot t = true →
                    ∃ p, step token runId whereToSave (Running s) p) as Hslot.
  { intros i id t Hi Ht. destruct t as [| | err | | |]; try discriminate Ht.
    - destruct (downloadFile token id whereToSave (g_world s)) as [o w'] eqn:Hd.
      destruct (downloadFile_outcome token id whereToSave (g_world s))
        as [[err He] | [Hp _]]; rewrite Hd in *; simpl in *; subst o.
      + eexists. by eapply step_download.
      + eexists. by eapply step_download_panic.
    - destruct (g_sem s) as [| n] eqn:Hn.
      + pose proof (count_insert holds_slot _ i _ (id, TDone) Hi) as Hh.
        simpl in Hh. lia.
      + eexists. by eapply step_release. }
  destruct (g_main s) as [| [| [id | folder] todo] | | | | |] eqn:Hpc; [| | | | | | | | done].
  - destruct (getFolder_returns token runId (g_world s)) as (roots & k & Hroots).
    destruct roots as [| r roots].
    + eexists. by eapply step_no_roots.
    + eexists. by eapply step_roots.
  - eexists. by apply step_walked.
  - destruct (transport (clock (g_world s)) (artifact_url +:+ id) token)
      as [[[[data [|]] |]] |] eqn:Hresp.
    + eexists. eapply step_list_read_error; [done |].
      unfold SendGetRequest. by rewrite Hresp.
    + destruct (unmarshal_listing data).2 eqn:Herr.
      * eexists. eapply step_list_malformed; [done | | done].
        unfold SendGetRequest. by rewrite Hresp.
      * eexists. eapply step_list; [done | | done].
        unfold SendGetRequest. by rewrite Hresp.
    + eexists. eapply step_list_nil; [done | | by right].
      unfold SendGetRequest. by rewrite Hresp.
    + eexists. eapply step_list_nil; [done | | by left].
      unfold SendGetRequest. by rewrite Hresp.
  - destruct (IsFile folder) eqn:Hfile.
    + eexists. by eapply step_go.
    + eexists. by eapply step_descend.
  - destruct (g_wg s) as [| n] eqn:Hn.
    { eexists. by apply step_wait. }
    destruct (count_pos_lookup unfinished (g_tasks s)) as (i & id & t & Hi & Ht);
      [lia |].
    destruct t as [| | err | e | |]; try discriminate Ht.
    + destruct (decide (g_sem s < maxConcurrentDownloads)) as [Hfree | Hfull].
      * eexists. by eapply step_acquire.
      * destruct (count_pos_lookup holds_slot (g_tasks s))
          as (j & id' & t' & Hj & Ht'); [unfold maxConcurrentDownloads in *; lia |].
        by eapply Hslot.
    + by eapply Hslot.
    + by eapply Hslot.
    + destruct (g_closed s) eqn:Hc; [by specialize (Hclosed eq_refl) |].
      destruct (Hsink Hc ltac:(congruence) ltac:(congruence)) as [Hrecv | [e' Hprint]].
      * eexists. by eapply step_report.
      * eexists. by eapply step_sink_print.
    + eexists. by eapply step_finish.
  - eexists. by apply step_close.
  - destruct (relocateContents whereToSave runId (g_world s)) as [o w'] eqn:Hr.
    pose proof (relocateContents_returns whereToSave runId (g_world s)) as Ho.
    rewrite Hr in Ho. simpl in Ho. subst o.
    eexists. by eapply step_relocate.
  - destruct (updateJsonPaths whereToSave (g_world s)) as [o w'] eqn:Hr.
    pose proof (updateJsonPaths_returns whereToSave (g_world s)) as Ho.
    rewrite Hr in Ho. simpl in Ho. subst o.
    eexists. by eapply step_repair.
Qed.

(** X13. Whatever crashes the process is a nil response: when the
    process has crashed, the last thing that happened is a request, of
    the walk or of a download, whose response was nil or had a nil body.
    In particular no download goroutine ever sends on the closed [errors]
    channel, and the wait group never goes below zero. *)
Theorem crash_comes_from_a_nil_response (w0 w : World) :
  reachable token runId whereToSave w0 (Crashed w) →
  ∃ tr url n,
    trace w = tr ++ [EvGet url token] ∧ clock w = S n
    ∧ nil_response (transport n url token).
Proof.
  intros Hreach. apply rtc_inv_r in Hreach as [Heq | (p & Hp & Hstep)]; [done |].
  destruct p as [s | w1]; [| by apply crashed_stuck in Hstep].
  apply invariant_reachable in Hp as [Hsem Hcap Hwg Hbar Hclosed Hstart].
  inversion Hstep; subst.
  - match goal with H : SendGetRequest _ _ _ = _ |- _ =>
      unfold SendGetRequest in H; injection H as <- <- end.
    by eexists _, _, _.
  - destruct (downloadFile_outcome token id whereToSave (g_world s))
      as [[err He] | [_ (tr & n & Htr & Hn & Hnil)]];
      match goal with H : downloadFile _ _ _ _ = _ |- _ => rewrite H in * end;
      [done |].
    by eexists _, _, _.
  - match goal with
    | Hc : g_closed s = true, Hi : g_tasks s !! _ = Some _ |- _ =>
        by pose proof (all_done_lookup _ _ _ _ (Hbar (Hclosed Hc)) Hi)
    end.
  - match goal with
    | Hi : g_tasks s !! ?i = Some (?id, TFinish) |- _ =>
        pose proof (count_insert unfinished _ i _ (id, TDone) Hi) as Hu
    end.
    simpl in Hu. lia.
Qed.

(** X14. [GetArtifacts] does not wait for the goroutine that prints the
    download errors: from a state in which every download goroutine has
    finished and the sink has received an error that it has not printed
    yet, the main goroutine can go through [wg.Wait()], [close(errors)],
    the reconciliation and the repair, and return, while the sink still
    holds the error unprinted. *)
Theorem GetArtifacts_can_return_before_an_error_is_printed
    (w0 : World) (s : GState) (e : string) :
  reachable token runId whereToSave w0 (Running s) →
  g_main s = PcWait → g_wg s = 0 → g_sink s = SinkPrint e →
  ∃ s',
    reachable token runId whereToSave w0 (Running s')
    ∧ g_main s' = PcReturn
    ∧ g_sink s' = SinkPrint e
    ∧ g_closed s' = true
    ∧ g_world s'
      = (updateJsonPaths whereToSave
           (relocateContents whereToSave runId (g_world s)).2).2.
Proof.
  intros Hreach Hpc Hwg Hsink.
  pose proof (relocateContents_returns whereToSave runId (g_world s)) as Hrel.
  destruct (relocateContents whereToSave runId (g_world s)) as [o1 w1] eqn:H1.
  simpl in Hrel. subst o1. cbn [snd].
  pose proof (updateJsonPaths_returns whereToSave w1) as Hupd.
  destruct (updateJsonPaths whereToSave w1) as [o2 w2] eqn:H2.
  simpl in Hupd. subst o2.
  exists (mkG w2 PcReturn (g_tasks s) (g_sem s) (g_wg s) true (g_sink s)).
  split; [| by repeat split].
  unfold reachable. etrans; [exact Hreach |].
  eapply rtc_l; [by apply step_wait |].
  eapply rtc_l; [by apply step_close |].
  eapply rtc_l; [eapply step_relocate; [done | exact H1] |].
  eapply rtc_l; [eapply step_repair; [done | exact H2] |].
  apply rtc_refl.
Qed.

(** X15. The walk of the main goroutine over a folder of a
    finite remote tree, goroutine step by goroutine step: when no other
    goroutine moves in between, it comes to the end of the folder having
    added, for every file of the tree that is under no unreadable folder
    and in the order of the tree, one download goroutine that waits for
    the semaphore, and having raised the wait group by their number. *)
Theorem GetArtifacts_starts_a_goroutine_for_every_file
    (t : ltree) (todo : list work) (s : GState) :
  g_main s = PcWalk (WCall (ID (lnode t)) :: todo) →
  IsFile (lnode t) = false →
  answers token t →
  rtc (step token runId whereToSave) (Running s)
      (Running (mkG (after_events (g_world s) (walk_events token t))
                    (PcWalk todo)
                    (g_tasks s ++ map (λ id, (id, TAcquire)) (lleaves t))
                    (g_sem s) (g_wg s + length (lleaves t))
                    (g_closed s) (g_sink s))).
Proof.
  intros Hmain Hfile Hans.
  pose proof (walk_refines token runId whereToSave (ldepth t) _ todo s Hmain)
    as Hwalk.
  rewrite (lwalk_folder token whereToSave (ldepth t) t (g_world s)) in Hwalk
    by done.
  unfold walk_result in Hwalk. cbn [fst snd] in Hwalk.
  destruct Hwalk as (ids & Hids & Hrun).
  unfold after_events in Hids at 1. cbn [trace] in Hids.
  rewrite started_app, started_walk_events in Hids.
  apply app_inv_head in Hids. by subst ids.
Qed.

(** While the main goroutine waits and some download goroutine has not
    finished, a goroutine can make a step that crashes the process or
    leaves less to do. *)
Lemma waiting_step (w0 : World) (s : GState) :
  reachable token runId whereToSave w0 (Running s) →
  g_main s = PcWait → g_wg s ≠ 0 →
  ∃ p, step token runId whereToSave (Running s) p
       ∧ ((∃ w, p = Crashed w)
          ∨ ∃ s', p = Running s' ∧ g_main s' = PcWait
                  ∧ work_left s' < work_left s).
Proof.
  intros Hreach Hpc Hn.
  pose proof (sink_invariant_reachable _ _ Hreach) as Hsink.
  apply invariant_reachable in Hreach as [Hsem Hcap Hwg Hbar Hclosed Hstart].
  assert (∀ i id t, g_tasks s !! i = Some (id, t) → holds_slot t = true →
            ∃ p, step token runId whereToSave (Running s) p
                 ∧ ((∃ w, p = Crashed w)
                    ∨ ∃ s', p = Running s' ∧ g_main s' = PcWait
                            ∧ work_left s' < work_left s)) as Hslot.
  { intros i id t Hi Ht. destruct t as [| | err | | |]; try discriminate Ht.
    - destruct (downloadFile token id whereToSave (g_world s)) as [o w'] eqn:Hd.
      destruct (downloadFile_outcome token id whereToSave (g_world s))
        as [[err He] | [Hp _]]; rewrite Hd in *; simpl in *; subst o.
      + eexists. split; [by eapply step_download |]. right.
        eexists. split; [done |]. split; [done |].
        pose proof (sum_list_with_insert (λ t, statements_left t.2) _ i _
                      (id, TRelease err) Hi) as Hsum.
        unfold work_left. cbn [g_tasks g_sink set_world set_task snd] in Hsum |- *.
        simpl in Hsum. lia.
      + eexists. split; [by eapply step_download_panic |]. left. by eexists.
    - destruct (g_sem s) as [| n] eqn:Hn'.
      + pose proof (count_insert holds_slot _ i _ (id, TDone) Hi) as Hh.
        simpl in Hh. lia.
      + eexists. split; [by eapply step_release |]. right.
        eexists. split; [done |]. split; [done |].
        pose proof (sum_list_with_insert (λ t, statements_left t.2) _ i _
                      (id, match err with Some e => TReport e | None => TFinish end)
                      Hi) as Hsum.
        unfold work_left. cbn [g_tasks g_sink set_sem set_task snd] in Hsum |- *.
        destruct err; simpl in Hsum; lia. }
  destruct (count_pos_lookup unfinished (g_tasks s)) as (i & id & t & Hi & Ht);
    [lia |].
  destruct t as [| | err | e | |]; try discriminate Ht.
  - destruct (decide (g_sem s < maxConcurrentDownloads)) as [Hfree | Hfull].
    + eexists. split; [by eapply step_acquire |]. right.
      eexists. split; [done |]. split; [done |].
      pose proof (sum_list_with_insert (λ t, statements_left t.2) _ i _
                    (id, TDownload) Hi) as Hsum.
      unfold work_left. cbn [g_tasks g_sink set_sem set_task snd] in Hsum |- *.
      simpl in Hsum. lia.
    + destruct (count_pos_lookup holds_slot (g_tasks s))
        as (j & id' & t' & Hj & Ht'); [unfold maxConcurrentDownloads in *; lia |].
      by eapply Hslot.
  - by eapply Hslot.
  - by eapply Hslot.
  - destruct (g_closed s) eqn:Hc.
    { specialize (Hclosed eq_refl). by rewrite Hpc in Hclosed. }
    destruct (Hsink Hc ltac:(congruence) ltac:(congruence)) as [Hrecv | [e' Hprint]].
    + eexists. split; [by eapply step_report |]. right.
      eexists. split; [done |]. split; [done |].
      pose proof (sum_list_with_insert (λ t, statements_left t.2) _ i _
                    (id, TFinish) Hi) as Hsum.
      unfold work_left. cbn [g_tasks g_sink set_sink set_task snd] in Hsum |- *.
      rewrite Hrecv. simpl in Hsum. lia.
    + eexists. split; [by eapply step_sink_print |]. right.
      eexists. split; [done |]. split; [done |].
      unfold work_left. cbn [g_tasks g_sink set_sink set_world]. rewrite Hprint. lia.
  - destruct (g_wg s) as [| n] eqn:Hn'; [done |].
    eexists. split; [by eapply step_finish |]. right.
    eexists. split; [done |]. split; [done |].
    pose proof (sum_list_with_insert (λ t, statements_left t.2) _ i _
                  (id, TDone) Hi) as Hsum.
    unfold work_left. cbn [g_tasks g_sink set_wg set_task snd] in Hsum |- *.
    simpl in Hsum. lia.
Qed.

(** X16. Once the walk is over, [GetArtifacts] can always come to
    its end: from every state the process can be in with the main
    goroutine at [wg.Wait()], there is a way on that ends in the return
    of [GetArtifacts], every download goroutine having finished, or in a
    crash; neither the semaphore nor the unbuffered [errors] channel can
    hold the goroutines up for ever. *)
Theorem GetArtifacts_can_always_finish (w0 : World) (s : GState) :
  reachable token runId whereToSave w0 (Running s) →
  g_main s = PcWait →
  ∃ p, rtc (step token runId whereToSave) (Running s) p
       ∧ ((∃ w, p = Crashed w)
          ∨ ∃ s', p = Running s' ∧ g_main s' = PcReturn
                  ∧ all_done (g_tasks s')).
Proof.
  remember (work_left s) as m eqn:Hm. revert s Hm.
  induction m as [m IH] using lt_wf_ind. intros s Hm Hreach Hpc.
  destruct (decide (g_wg s = 0)) as [Hwg | Hwg].
  - pose proof (relocateContents_returns whereToSave runId (g_world s)) as Hrel.
    destruct (relocateContents whereToSave runId (g_world s)) as [o1 w1] eqn:H1.
    simpl in Hrel. subst o1.
    pose proof (updateJsonPaths_returns whereToSave w1) as Hupd.
    destruct (updateJsonPaths whereToSave w1) as [o2 w2] eqn:H2.
    simpl in Hupd. subst o2.
    exists (Running (mkG w2 PcReturn (g_tasks s) (g_sem s) (g_wg s) true (g_sink s))).
    split.
    + eapply rtc_l; [by apply step_wait |].
      eapply rtc_l; [by apply step_close |].
      eapply rtc_l; [eapply step_relocate; [done | exact H1] |].
      eapply rtc_l; [eapply step_repair; [done | exact H2] |].
      apply rtc_refl.
    + right. eexists. split; [done |]. split; [done |]. cbn [g_tasks].
      apply invariant_reachable in Hreach as [_ _ Hcount _ _ _].
      apply count_all_done. congruence.
  - destruct (waiting_step w0 s Hreach Hpc Hwg) as (p & Hstep & [[w ->] | Hnext]).
    + exists (Crashed w). split; [by apply rtc_once |]. left. by eexists.
    + destruct Hnext as (s' & -> & Hpc' & Hless).
      destruct (IH (work_left s') ltac:(lia) s' eq_refl) as (p & Hrun & Hend).
      * unfold reachable. eapply rtc_r; [exact Hreach | exact Hstep].
      * done.
      * exists p. split; [| done]. by eapply rtc_l.
Qed.

End OrchestrationMore.
(** *** More on the reference repair *)

(** The file system after a pass, on any file system: some rounds of the
    loop over the names of the metadata directory, with the index of the
    walk. *)
Lemma updateJsonPaths_fs root w :
  ∃ index names tr,
    updateJsonPaths root w
    = (Ret tt,
       mkWorld (fold_left (step_fs index (metadata_dir root)) names (fs w))
               (trace w ++ tr) (clock w)).
Proof.
  unfold updateJsonPaths. fold (metadata_dir root).
  unfold mbind at 1, M_bind at 1, Walk. cbn [fs trace clock].
  destruct (lookup_node (fs w) (key_of root)) as [n |].
  2:{ exists ∅, []. eexists. unfold Println, emit. cbn [fs trace clock fold_left].
      by rewrite <- app_assoc. }
  unfold mbind at 1, M_bind at 1, ReadDir. cbn [fs trace clock].
  destruct (lookup_node (fs w) (key_of (metadata_dir root))) as [[c |] |].
  1,3: exists ∅, []; eexists; unfold Println, emit; cbn [fs trace clock fold_left];
       by rewrite <- !app_assoc.
  match goal with
  | |- context [for_each ?names (repair_file ?index ?dir) ?w1] =>
      destruct (for_each_repair_fs index dir names w1) as (tr & ->);
      exists index, names
  end.
  cbn [fs trace clock]. eexists. by rewrite <- !app_assoc.
Qed.

Lemma fold_step_unchanged index dir names f k :
  (∀ name, name ∈ names → path.Ext name = ".json" →
           k ≠ key_of (path.Join [dir; name])) →
  fold_left (step_fs index dir) names f !! k = f !! k.
Proof.
  revert f. induction names as [| name names IH]; intros f Hk; [done |].
  cbn [fold_left]. rewrite IH.
  2:{ intros name' Hin. by apply Hk, list_elem_of_further. }
  destruct (decide (k = key_of (path.Join [dir; name]))) as [-> | Hne];
    [| by apply step_fs_other].
  unfold step_fs.
  destruct (new_content index dir f name) as [d |] eqn:Hnew; [| done].
  apply new_content_inv in Hnew as (? & ? & ? & Hext & _).
  by destruct (Hk name (list_elem_of_here _ _) Hext).
Qed.

(** X17. On any destination tree, well formed or not, the
    repair pass returns, sends no request, and neither creates nor
    removes a node nor turns a file into a directory; and whatever is not
    at a name ending in [.json] in the report metadata directory is as it
    was. *)
Theorem updateJsonPaths_keeps_every_node (root : string) (w : World) :
  let w' := (updateJsonPaths root w).2 in
  (updateJsonPaths root w).1 = Ret tt
  ∧ shape (fs w') = shape (fs w)
  ∧ clock w' = clock w
  ∧ (∀ k, (∀ name, path.Ext name = ".json" →
                     k ≠ key_of (path.Join [metadata_dir root; name])) →
          fs w' !! k = fs w !! k).
Proof.
  intros w'. subst w'.
  destruct (updateJsonPaths_fs root w) as (index & names & tr & ->).
  cbn [fst snd fs clock].
  split; [done |]. split; [apply shape_fold |]. split; [done |].
  intros k Hk. apply fold_step_unchanged. intros name _. apply Hk.
Qed.

(** X18. In a well-formed destination tree, a file of the
    report metadata directory whose name does not end in [.json], or
    whose content does not decode to a JSON object, is left with the
    bytes it had, and the pass goes on to its end. *)
Theorem updateJsonPaths_leaves_what_it_cannot_read
    (root name : string) (data : list byte) (w : World) :
  let dir := metadata_dir root in
  let w' := (updateJsonPaths root w).2 in
  fs_wf (fs w) →
  fs w !! (key_of dir ++ [name]) = Some (NFile data) →
  path.Ext name ≠ ".json" ∨ unmarshal_doc data = None →
  (updateJsonPaths root w).1 = Ret tt
  ∧ fs w' !! (key_of dir ++ [name]) = Some (NFile data).
Proof.
  intros dir w' Hwf Hfile Hskip. subst w'.
  destruct (updateJsonPaths_run root w Hwf) as (tr & ->). cbn [fst snd fs].
  split; [done |].
  assert (name ∈ dir_names (fs w) (key_of dir)) as Hname.
  { apply elem_of_dir_names. by eexists. }
  destruct (metadata_names root (fs w) name Hwf Hname) as [Hplain Hkey].
  fold dir in Hkey.
  pose proof (wf_parent _ _ _ Hwf Hfile) as Hdir. rewrite removelast_last in Hdir.
  unfold pass_fs. fold dir. rewrite Hdir, <- Hkey.
  rewrite fold_step_at;
    [| apply NoDup_dir_names | done
     | intros n1 n2; apply (metadata_names_inj root (fs w) n1 n2 Hwf)].
  unfold step_fs, new_content. rewrite Hkey, Hfile.
  destruct Hskip as [Hext | Hdoc].
  - by rewrite (proj2 (String.eqb_neq _ _) Hext), Hfile.
  - rewrite Hdoc. by destruct (String.eqb _ _); rewrite Hfile.
Qed.

(** What the filename index holds: paths of regular files of the tree,
    each under its own base name. *)
Lemma filename_index_sound f root name p :
  fs_wf f → filename_index f root !! name = Some p →
  ∃ rel c, rel ≠ [] ∧ Forall plain_name rel
           ∧ f !! (key_of root ++ rel) = Some (NFile c)
           ∧ p = walk_path root rel
           ∧ List.last rel "" = name.
Proof.
  intros Hwf. unfold filename_index.
  assert (∀ rel, rel ∈ keys_below f (key_of root) →
            rel ≠ [] ∧ is_Some (f !! (key_of root ++ rel))) as Hkeys.
  { intros rel. apply elem_of_keys_below. }
  revert Hkeys.
  assert (∀ name p, (∅ : gmap string string) !! name = Some p →
            ∃ rel c, rel ≠ [] ∧ Forall plain_name rel
                     ∧ f !! (key_of root ++ rel) = Some (NFile c)
                     ∧ p = walk_path root rel
                     ∧ List.last rel "" = name) as Hacc by done.
  revert name p Hacc. generalize (∅ : gmap string string) as acc.
  induction (keys_below f (key_of root)) as [| rel l IH];
    intros acc name p Hacc Hkeys; [by apply Hacc |].
  cbn [fold_left]. apply IH.
  2:{ intros rel' Hrel'. by apply Hkeys, list_elem_of_further. }
  destruct (Hkeys rel (list_elem_of_here _ _)) as [Hne [n Hn]].
  rewrite Hn. destruct n as [c |]; [| done].
  pose proof (wf_plain _ _ _ Hwf Hn) as Hplain.
  apply Forall_app in Hplain as [_ Hrel].
  destruct rel as [| last init _] using rev_ind; [done |].
  intros k q. rewrite Base_walk_path by done.
  destruct (decide (k = last)) as [-> | Hk].
  2:{ rewrite lookup_insert_ne by done. apply Hacc. }
  rewrite lookup_insert_eq. intros [= <-].
  exists (init ++ [last]), c. by rewrite last_last.
Qed.

(** X19. The source the repair writes leads, from the report metadata
    directory, to the file it was looked up for: in a well-formed tree
    whose root, of a non-empty path, is a directory, when the base name
    of the source of an attachment is in the index of the walk, the
    source is replaced by a relative path that, joined to the metadata
    directory, is the place of a regular file of the destination tree
    with that base name. *)
Theorem repaired_source_leads_to_the_indexed_file
    (root s p : string) (visits : list (string * bool))
    (o : list (string * json)) (w w2 : World) :
  let dir := path.Join [root; "report"; "allure-results"] in
  let fileMap := fold_left index_file visits ∅ in
  root ≠ "" →
  fs_wf (fs w) →
  lookup_node (fs w) (key_of root) = Some NDir →
  (Walk root w).1 = Ret (Some visits) →
  obj_get "source" o = Some (JStr s) →
  fileMap !! path.Base s = Some p →
  ∃ r c,
    (repair_attachment fileMap dir (JObj o) w2).1
    = Ret (JObj (obj_set "source" (JStr r) o))
    ∧ key_of (path.Join [dir; r]) = key_of p
    ∧ fs w !! key_of p = Some (NFile c)
    ∧ path.Base p = path.Base s.
Proof.
  intros dir fileMap _ Hwf Hroot Hwalk Hsource Hp. subst fileMap.
  unfold Walk in Hwalk. cbn [fst] in Hwalk. rewrite Hroot in Hwalk.
  assert (fold_left index_file visits ∅ = filename_index (fs w) root) as Hv.
  { injection Hwalk as <-. apply (index_of_visits (fs w) root Hroot). }
  rewrite Hv in Hp |- *. clear Hv Hwalk.
  destruct (filename_index_sound _ _ _ _ Hwf Hp)
    as (rel & c & Hne & Hrel & Hfile & -> & Hlast).
  destruct (walk_path_elems root rel Hrel) as [HP HPr].
  destruct (clean_elems_Join root ["report"; "allure-results"] plain_report)
    as [HB HBr]; [done |].
  fold dir in HB, HBr.
  destruct (Rel_below_leads dir (walk_path root rel) (path.clean_elems root)
              ["report"; "allure-results"] rel HB HP (eq_trans HBr (eq_sym HPr))
              plain_report Hrel) as (r & Hr & Hleads).
  exists r, c. split; [| split; [| split]].
  - unfold repair_attachment. by rewrite Hsource, Hp, Hr.
  - assert (dir ≠ "") as Hdir.
    { unfold dir. rewrite (path_Join_plain root ["report"; "allure-results"])
        by (apply plain_report || done).
      apply Clean_nonempty. }
    rewrite key_of_Join_two by done.
    change dir with (metadata_dir root).
    rewrite key_of_metadata_dir, Hleads. by rewrite key_of_walk_path.
  - by rewrite key_of_walk_path.
  - destruct rel as [| last init _] using rev_ind; [done |].
    rewrite Base_walk_path by done. by rewrite last_last in Hlast.
Qed.
(** *** The order of the walk and the filename index *)

Lemma ascii_compare_refl (a : ascii) : Ascii.compare a a = Eq.
Proof. unfold Ascii.compare. apply N.compare_refl. Qed.

Lemma ascii_compare_lt_trans (a b c : ascii) :
  Ascii.compare a b = Lt → Ascii.compare b c = Lt → Ascii.compare a c = Lt.
Proof. unfold Ascii.compare. rewrite !N.compare_lt_iff. lia. Qed.

Lemma string_compare_refl (x : string) : String.compare x x = Eq.
Proof.
  induction x as [| a x IH]; [done |]. simpl. by rewrite ascii_compare_refl.
Qed.

Lemma string_compare_lt_trans (x y z : string) :
  String.compare x y = Lt → String.compare y z = Lt → String.compare x z = Lt.
Proof.
  revert y z. induction x as [| a x IH]; intros [| b y] [| c z]; simpl; try done.
  destruct (Ascii.compare a b) eqn:E1; try done;
    destruct (Ascii.compare b c) eqn:E2; try done; intros H1 H2.
  - apply Ascii.compare_eq_iff in E1, E2. subst b c.
    rewrite ascii_compare_refl. by eapply IH.
  - apply Ascii.compare_eq_iff in E1. subst b. by rewrite E2.
  - apply Ascii.compare_eq_iff in E2. subst c. by rewrite E1.
  - by rewrite (ascii_compare_lt_trans a b c).
Qed.

Lemma key_le_refl (a : list string) : key_le a a.
Proof.
  unfold key_le. induction a as [| x a IH]; [done |].
  simpl. by rewrite string_compare_refl.
Qed.

#[local] Instance key_le_total : Total key_le.
Proof.
  unfold Total, key_le. intros a.
  induction a as [| x a IH]; intros [| y b]; simpl;
    [by left | by left | by right |].
  rewrite (String.compare_antisym y x).
  destruct (String.compare x y); simpl; [apply IH | by left | by right].
Qed.

#[local] Instance key_le_trans : Transitive key_le.
Proof.
  unfold Transitive, key_le. intros a.
  induction a as [| x a IH]; intros [| y b] [| z c]; simpl; try done.
  destruct (String.compare x y) eqn:E1; try done;
    destruct (String.compare y z) eqn:E2; try done; intros H1 H2.
  - apply String.compare_eq_iff in E1, E2. subst y z.
    rewrite string_compare_refl. by eapply IH.
  - apply String.compare_eq_iff in E1. subst y. by rewrite E2.
  - apply String.compare_eq_iff in E2. subst z. by rewrite E1.
  - by rewrite (string_compare_lt_trans x y z).
Qed.

(** The walk visits the nodes below a directory in the order of their
    keys. *)
Lemma keys_below_sorted f src : StronglySorted key_le (keys_below f src).
Proof. unfold keys_below. apply (StronglySorted_merge_sort key_le). Qed.

(** The index after a walk over sorted places [l]: the base name of every
    regular file visited is indexed, by the last file of that name. *)
Lemma index_fold_last (f : gmap (list string) node) root
    (l : list (list string)) (acc : gmap string string) :
  StronglySorted key_le l →
  (∀ rel, rel ∈ l → rel ≠ [] ∧ Forall plain_name rel) →
  ∀ rel c,
    rel ∈ l → f !! (key_of root ++ rel) = Some (NFile c) →
    ∃ rel' c',
      fold_left (λ index rel,
                   match f !! (key_of root ++ rel) with
                   | Some (NFile _) =>
                       <[path.Base (walk_path root rel) := walk_path root rel]> index
                   | _ => index
                   end) l acc !! List.last rel ""
      = Some (walk_path root rel')
      ∧ rel' ∈ l
      ∧ f !! (key_of root ++ rel') = Some (NFile c')
      ∧ List.last rel' "" = List.last rel ""
      ∧ key_le rel rel'.
Proof.
  induction l as [| x l IH] using rev_ind; intros Hsorted Hplain rel c Hin Hfile.
  { by apply elem_of_nil in Hin. }
  apply StronglySorted_app in Hsorted as (Hle & Hl & _).
  rewrite fold_left_app. cbn [fold_left].
  assert (∀ rel0, rel0 ∈ l ++ [x] → rel0 ≠ [] →
            path.Base (walk_path root rel0) = List.last rel0 "") as Hbase.
  { intros rel0 Hrel0 Hne0. destruct (Hplain rel0 Hrel0) as [_ Hp].
    destruct rel0 as [| n init _] using rev_ind; [done |].
    rewrite Base_walk_path by done. by rewrite last_last. }
  assert (x ∈ l ++ [x]) as Hx by (apply elem_of_app; right; apply list_elem_of_here).
  destruct (f !! (key_of root ++ x)) as [[cx |] |] eqn:Hfx.
  - rewrite (Hbase x Hx (proj1 (Hplain x Hx))).
    destruct (decide (List.last x "" = List.last rel "")) as [Heq | Hne].
    + rewrite Heq, lookup_insert_eq. exists x, cx.
      split; [done |]. split; [done |]. split; [done |]. split; [done |].
      apply elem_of_app in Hin as [Hin | ->%list_elem_of_singleton];
        [| apply key_le_refl].
      apply Hle; [done | apply list_elem_of_here].
    + rewrite lookup_insert_ne by done.
      apply elem_of_app in Hin as [Hin | ->%list_elem_of_singleton]; [| done].
      destruct (IH Hl (λ r Hr, Hplain r (proj2 (elem_of_app _ _ _) (or_introl Hr)))
                  rel c Hin Hfile) as (rel' & c' & H1 & H2 & H3 & H4 & H5).
      exists rel', c'. split; [done |]. split; [| done].
      apply elem_of_app. by left.
  - apply elem_of_app in Hin as [Hin | ->%list_elem_of_singleton]; [| congruence].
    destruct (IH Hl (λ r Hr, Hplain r (proj2 (elem_of_app _ _ _) (or_introl Hr)))
                rel c Hin Hfile) as (rel' & c' & H1 & H2 & H3 & H4 & H5).
    exists rel', c'. split; [done |]. split; [| done].
    apply elem_of_app. by left.
  - apply elem_of_app in Hin as [Hin | ->%list_elem_of_singleton]; [| congruence].
    destruct (IH Hl (λ r Hr, Hplain r (proj2 (elem_of_app _ _ _) (or_introl Hr)))
                rel c Hin Hfile) as (rel' & c' & H1 & H2 & H3 & H4 & H5).
    exists rel', c'. split; [done |]. split; [| done].
    apply elem_of_app. by left.
Qed.

(** X20. The index the repair builds from its walk of a well-formed
    destination tree, the root of a non-empty path being a directory,
    has, for every regular file below the root, an entry
    under the name of the file; and when several files have that name,
    the entry is the path of the one that comes last in the order of the
    walk, which goes by the elements of the paths, byte-wise. *)
Theorem updateJsonPaths_indexes_the_last_file_of_each_name
    (root : string) (visits : list (string * bool)) (rel : list string)
    (c : list byte) (w : World) :
  let fileMap := fold_left index_file visits ∅ in
  root ≠ "" →
  fs_wf (fs w) →
  lookup_node (fs w) (key_of root) = Some NDir →
  (Walk root w).1 = Ret (Some visits) →
  rel ≠ [] →
  fs w !! (key_of root ++ rel) = Some (NFile c) →
  ∃ rel' c',
    fileMap !! List.last rel "" = Some (walk_path root rel')
    ∧ fs w !! (key_of root ++ rel') = Some (NFile c')
    ∧ List.last rel' "" = List.last rel ""
    ∧ key_le rel rel'
    ∧ (∀ rel'' c'',
         rel'' ≠ [] → fs w !! (key_of root ++ rel'') = Some (NFile c'') →
         List.last rel'' "" = List.last rel "" →
         key_le rel'' rel').
Proof.
  intros fileMap _ Hwf Hroot Hwalk Hne Hfile. subst fileMap.
  unfold Walk in Hwalk. cbn [fst] in Hwalk. rewrite Hroot in Hwalk.
  assert (fold_left index_file visits ∅ = filename_index (fs w) root) as ->.
  { injection Hwalk as <-. apply (index_of_visits (fs w) root Hroot). }
  clear Hwalk. unfold filename_index.
  assert (∀ r, r ∈ keys_below (fs w) (key_of root) →
               r ≠ [] ∧ Forall plain_name r) as Hplain.
  { intros r [Hr [n Hn]]%elem_of_keys_below. split; [done |].
    apply (wf_plain _ _ _ Hwf) in Hn. by apply Forall_app in Hn as [_ ?]. }
  assert (∀ r n, r ≠ [] → fs w !! (key_of root ++ r) = Some n →
                 r ∈ keys_below (fs w) (key_of root)) as Hin.
  { intros r n Hr Hn. apply elem_of_keys_below. by eauto. }
  destruct (index_fold_last (fs w) root _ ∅ (keys_below_sorted _ _) Hplain
              rel c (Hin _ _ Hne Hfile) Hfile)
    as (rel' & c' & Hidx & Hrel' & Hfile' & Hlast & Hle).
  exists rel', c'. split; [done |]. split; [done |]. split; [done |].
  split; [done |].
  intros rel'' c'' Hne'' Hfile'' Hlast''.
  destruct (index_fold_last (fs w) root _ ∅ (keys_below_sorted _ _) Hplain
              rel'' c'' (Hin _ _ Hne'' Hfile'') Hfile'')
    as (rel3 & c3 & Hidx3 & Hrel3 & _ & _ & Hle3).
  rewrite Hlast'', Hidx in Hidx3. injection Hidx3 as Heq.
  apply (f_equal key_of) in Heq.
  rewrite !key_of_walk_path in Heq by (by apply Hplain).
  apply app_inv_head in Heq. by subst rel3.
Qed.
(** *** The files on disk when the reconciliation starts *)

Section Files.

Variables token runId root : string.
Variable F : list remote_file.
Hypothesis Hserves : serves_files token runId F.

(** The download of a file of the run into a destination that is in
    order: it succeeds, the file is at its place, the files that were at
    their places still are, and the destination is in order. *)
Lemma download_keeps_disk_ok (fd0 : remote_file) (w : World) :
  fd0 ∈ F → disk_ok root runId F (fs w) →
  ∃ w',
    downloadFile token (file_id runId fd0) root w = (Ret None, w')
    ∧ disk_ok root runId F (fs w')
    ∧ fs w' !! run_place root runId fd0.1 = Some (NFile fd0.2)
    ∧ (∀ fd, fd ∈ F →
         fs w !! run_place root runId fd.1 = Some (NFile fd.2) →
         fs w' !! run_place root runId fd.1 = Some (NFile fd.2)).
Proof.
  destruct Hserves as (Hrun & Hplain & Hapart & Hcontent & _).
  intros Hin (Hway & Hfiles & Hdirs).
  destruct (Hplain fd0 Hin) as [Hsegs Hne].
  destruct fd0 as [segs data]. cbn [fst snd] in *.
  assert (Forall plain_name (runId :: segs)) as Hall by by constructor.
  destruct (local_path_plain root (runId :: segs) Hall ltac:(done)) as [Hdir Hfile].
  assert (removelast (runId :: segs) = runId :: removelast segs) as Hrl
    by by destruct segs.
  rewrite Hrl in Hdir.
  assert (segs = removelast segs ++ [List.last segs ""]) as Hsplit
    by by apply app_removelast_last.
  assert (key_of root ++ runId :: segs
          = (key_of root ++ runId :: removelast segs) ++ [List.last segs ""])
    as Hplace.
  { rewrite <- app_assoc. cbn [app]. by rewrite <- Hsplit. }
  rewrite Hplace in Hfile.
  assert (file_id runId (segs, data) ≠ "") as Hid
    by by apply Join_plain_nonempty.
  destruct (downloadFile_at token (file_id runId (segs, data)) root
              (mkBody data false) w (key_of root ++ runId :: removelast segs)
              (List.last segs "") Hid Hdir Hfile (Hcontent _ _ Hin))
    as (w' & Hdl & _ & _ & Hfs & _ & _).
  - intros k c Hk Hthere.
    destruct (prefix_comparable _ _ _ Hk) as [Hup | Hdown];
      [by apply (Hway k c) |].
    destruct (Hfiles k c Hthere Hdown) as (fd & Hfd & -> & _).
    unfold run_place in Hk. apply prefix_app_inv, prefix_cons_inv_2 in Hk.
    assert (fd.1 `prefix_of` segs) as Hpre
      by (etrans; [exact Hk | apply prefix_removelast]).
    pose proof (Hapart fd (segs, data) Hfd Hin Hpre) as ->.
    by apply (prefix_removelast_strict segs).
  - rewrite <- Hplace. intros Hthere.
    destruct (Hdirs _ Hthere ltac:(by apply prefix_app_r)) as [Heq | (fd & Hfd & Hk)].
    + apply (f_equal length) in Heq. rewrite length_app in Heq. simpl in Heq. lia.
    + unfold run_place in Hk. apply prefix_app_inv, prefix_cons_inv_2 in Hk.
      assert (segs `prefix_of` fd.1) as Hpre
        by (etrans; [exact Hk | apply prefix_removelast]).
      pose proof (Hapart (segs, data) fd Hin Hfd Hpre) as <-.
      by apply (prefix_removelast_strict segs).
  - rewrite <- Hplace in Hfs. cbn [body_err body_data] in Hdl, Hfs.
    exists w'. split; [exact Hdl |].
    pose proof (mkdir_all_mono (fs w) [] (key_of root ++ runId :: removelast segs))
      as Hmono.
    pose proof (mkdir_all_lookup (fs w) [] (key_of root ++ runId :: removelast segs))
      as Hnew.
    split; [split; [| split] | split].
    + intros k c Hk. rewrite Hfs, lookup_insert_ne.
      2:{ intros <-. apply prefix_length in Hk. rewrite length_app in Hk.
          simpl in Hk. lia. }
      intros Hthere. destruct (Hnew k _ Hthere) as [Hold | (_ & Hdir' & _)];
        [by apply (Hway k c) | done].
    + intros k c. rewrite Hfs.
      destruct (decide (key_of root ++ runId :: segs = k)) as [<- | Hk].
      * rewrite lookup_insert_eq. intros [= <-] _. by exists (segs, data).
      * rewrite lookup_insert_ne by done. intros Hthere Hbelow.
        destruct (Hnew k _ Hthere) as [Hold | (_ & Hdir' & _)]; [| done].
        by apply Hfiles.
    + intros k. rewrite Hfs.
      destruct (decide (key_of root ++ runId :: segs = k)) as [<- | Hk].
      * by rewrite lookup_insert_eq.
      * rewrite lookup_insert_ne by done. intros Hthere Hbelow.
        destruct (Hnew k _ Hthere) as [Hold | (_ & _ & r & _ & Hr & ->)].
        -- by apply Hdirs.
        -- right. by exists (segs, data).
    + rewrite Hfs. apply lookup_insert_eq.
    + intros fd Hfd Hthere. rewrite Hfs.
      destruct (decide (key_of root ++ runId :: segs = run_place root runId fd.1))
        as [Heq | Hk].
      * rewrite Heq, lookup_insert_eq.
        unfold run_place in Heq. apply app_inv_head in Heq. injection Heq as Heq.
        assert (fd = (segs, data)) as -> by (apply Hapart; [done | done | by rewrite Heq]).
        done.
      * rewrite lookup_insert_ne by done. by apply Hmono.
Qed.

Lemma tasks_ok_insert f tasks i id t t' :
  tasks_ok root runId F f tasks →
  tasks !! i = Some (id, t) →
  unfailed t' →
  (downloaded t' = true → downloaded t = true) →
  tasks_ok root runId F f (<[i := (id, t')]> tasks).
Proof.
  intros Hok Hi Hun Hdown j id' t'' Hj.
  destruct (decide (i = j)) as [<- | Hne].
  - rewrite list_lookup_insert_eq in Hj by by eapply lookup_lt_Some.
    injection Hj as <- <-.
    destruct (Hok i id t Hi) as (fd & Hfd & Hid & _ & Hthere).
    exists fd. repeat split; auto.
  - rewrite list_lookup_insert_ne in Hj by done. by apply (Hok j).
Qed.

Lemma files_invariant_step s s' :
  step token runId root (Running s) (Running s') →
  files_invariant root runId F s → files_invariant root runId F s'.
Proof.
  pose proof Hserves as (_ & _ & _ & _ & Hlisted).
  inversion 1; subst; unfold files_invariant;
    cbn [g_main g_tasks g_world set_main set_world set_sink set_task set_sem
         set_wg before_repair fs Println Go emit snd];
    try done;
    intros Hinv Hb;
    try match goal with
        | Hm : g_main _ = _ |- _ =>
            rewrite Hm in Hinv; cbn [before_repair] in Hinv
        end;
    first [ destruct (Hinv eq_refl) as (Hdisk & Htasks & Htodo)
          | destruct (Hinv Hb) as (Hdisk & Htasks & Htodo) ];
    clear Hinv; cbn [todo_ok] in Htodo |- *;
    try (by split; [| split]).
  - (* root discovery *)
    destruct (getFolder_returns token runId (g_world s)) as (roots' & k & Hrun).
    rewrite Hrun in H3. injection H3 as <- <-. cbn [fs].
    split; [done |]. split; [done |].
    intros f [x [[=] _]]%list_elem_of_fmap.
  - (* a listing *)
    unfold SendGetRequest in H3. injection H3 as Hresp <-. cbn [fs].
    split; [done |]. split; [done |].
    intros f [Hnew | Hold]%elem_of_app Hfile.
    + apply list_elem_of_fmap in Hnew as (f' & [= <-] & Hf').
      by eapply Hlisted.
    + apply Htodo; [| done]. by right.
  - (* a listing that cannot be read *)
    unfold SendGetRequest in H3. injection H3 as Hresp <-. cbn [fs].
    split; [done |]. split; [done |].
    intros f Hf. apply Htodo. by right.
  - (* a listing that cannot be decoded *)
    unfold SendGetRequest in H3. injection H3 as Hresp <-. cbn [fs].
    split; [done |]. split; [done |].
    intros f Hf. apply Htodo. by right.
  - (* a goroutine is started *)
    split; [done |]. split.
    + intros i id t [Hi | [_ Hi]]%lookup_app_Some; [by apply (Htasks i) |].
      apply list_lookup_singleton_Some in Hi as [_ [= <- <-]].
      destruct (Htodo folder ltac:(by left) ltac:(done)) as (fd & Hfd & Hid).
      exists fd. by repeat split.
    + intros f Hf. apply Htodo. by right.
  - (* a folder is walked *)
    split; [done |]. split; [done |].
    intros f [[=] | Hf]%elem_of_cons. apply Htodo. by right.
  - split; [done |]. by split; [eapply tasks_ok_insert |].
  - (* a download *)
    destruct (Htasks i id TDownload H2) as (fd0 & Hfd0 & -> & _ & _).
    destruct (download_keeps_disk_ok fd0 (g_world s) Hfd0 Hdisk)
      as (w' & Hdl & Hdisk' & Hthere & Hkept).
    rewrite Hdl in H3. injection H3 as <- <-.
    split; [done |]. split; [| done].
    intros j id' t' Hj.
    destruct (decide (i = j)) as [<- | Hne].
    + rewrite list_lookup_insert_eq in Hj by by eapply lookup_lt_Some.
      injection Hj as <- <-. exists fd0. by repeat split.
    + rewrite list_lookup_insert_ne in Hj by done.
      destruct (Htasks j id' t' Hj) as (fd & Hfd & Hid & Hun & Hdown).
      exists fd. repeat split; auto.
  - (* the slot is given back *)
    destruct (Htasks i id (TRelease err) H2) as (_ & _ & _ & Hun & _).
    destruct err as [e |]; [done |].
    split; [done |]. by split; [eapply tasks_ok_insert |].
  - by destruct (Htasks i id (TReport e) H2) as (_ & _ & _ & Hun & _).
  - split; [done |]. by split; [eapply tasks_ok_insert |].
Qed.

Lemma files_invariant_reachable (w0 : World) (s : GState) :
  clean_destination root (fs w0) →
  reachable token runId root w0 (Running s) → files_invariant root runId F s.
Proof.
  intros [Hway Hbelow] Hreach.
  assert (∀ p, rtc (step token runId root) (initial w0) p →
            ∀ s, p = Running s → files_invariant root runId F s) as Hgen;
    [| by apply (Hgen _ Hreach)].
  clear s Hreach.
  apply (rtc_ind_r (λ p, ∀ s, p = Running s → files_invariant root runId F s)).
  - intros s [= <-] _. cbn [g_world g_tasks g_main todo_ok].
    split; [split; [done | split] |].
    + intros k c Hthere Hk.
      destruct (decide (k = key_of root)) as [-> | Hne];
        [by destruct (Hway _ c ltac:(done)) | by rewrite Hbelow in Hthere].
    + intros k Hthere Hk.
      destruct (decide (k = key_of root)) as [-> | Hne];
        [by left | by rewrite Hbelow in Hthere].
    + by split; [intros i id t [=] |].
  - intros p p' _ Hstep IH s' ->. destruct p as [s | w]; [| inversion Hstep].
    by eapply files_invariant_step; [| apply IH].
Qed.

(** X23. With a remote side that serves a set of files, each whenever it
    is asked for, and a destination that had nothing below its root:
    when the main goroutine comes to the reconciliation, every goroutine
    that was started has downloaded a file of the run, none has failed,
    and the file is in the run directory of the destination, at the
    place its identifier names, with the content served; and every
    regular file below the root is such a file. *)
Theorem every_file_is_on_disk_when_reconciliation_starts
    (w0 : World) (s : GState) :
  clean_destination root (fs w0) →
  reachable token runId root w0 (Running s) →
  g_main s = PcRelocate →
  (∀ i id t, g_tasks s !! i = Some (id, t) →
     ∃ fd, fd ∈ F ∧ id = file_id runId fd ∧ t = TDone
           ∧ fs (g_world s) !! run_place root runId fd.1 = Some (NFile fd.2))
  ∧ (∀ k c, fs (g_world s) !! k = Some (NFile c) → key_of root `prefix_of` k →
       ∃ fd, fd ∈ F ∧ k = run_place root runId fd.1 ∧ c = fd.2).
Proof.
  intros Hclean Hreach Hpc.
  pose proof (files_invariant_reachable w0 s Hclean Hreach) as Hinv.
  unfold files_invariant in Hinv. rewrite Hpc in Hinv.
  destruct (Hinv eq_refl) as ((_ & Hfiles & _) & Htasks & _).
  split; [| exact Hfiles].
  intros i id t Hi.
  destruct (Htasks i id t Hi) as (fd & Hfd & Hid & _ & Hthere).
  apply invariant_reachable in Hreach as [_ _ _ Hbar _ _].
  assert (t = TDone) as ->.
  { eapply all_done_lookup; [| exact Hi]. apply Hbar. by rewrite Hpc. }
  exists fd. by repeat split; auto.
Qed.

End Files.

End Pipeline.

(** * A concrete run

    A wire format in which a body is one token, a remote tree, a transport
    that serves it, and a destination tree: the inputs at which the
    theorems above are applied. *)

(** A token of the wire format: a whole listing, a whole document, or a
    character of some other content. *)
Inductive wire :=
  | WListing (l : list ArtifactTree)
  | WDoc (o : list (string * json))
  | WChar (c : ascii).

Definition wire_listing (bs : list wire) : list ArtifactTree * bool :=
  match bs with
  | [WListing l] => (l, false)
  | _ => ([], true)
  end.

Definition wire_doc (bs : list wire) : option (list (string * json)) :=
  match bs with
  | [WDoc o] => Some o
  | _ => None
  end.

Definition wire_marshal (o : list (string * json)) : list wire := [WDoc o].

Definition folder_entry (id name : string) : ArtifactTree := mkArtifactTree id false name.
Definition file_entry (id name : string) : ArtifactTree := mkArtifactTree id true name.

(** The root of run [run123]: the seven expected categories. *)
Definition root_listing : list ArtifactTree :=
  [folder_entry "run123/bill" "bill"; folder_entry "run123/devices" "devices";
   folder_entry "run123/html" "html"; folder_entry "run123/logs" "logs";
   folder_entry "run123/report" "report";
   folder_entry "run123/test_result" "test_result";
   folder_entry "run123/tests" "tests"].


Definition ok_response (bs : list wire) : option (@Response wire) :=
  Some (mkResponse (Some (mkBody bs false))).


(** A transport that never answers. *)
Definition dead_transport (n : nat) (url token : string) : option (@Response wire) :=
  None.

(** A transport whose first answer is the root listing and which answers
    nothing after it. *)
Definition failing_transport (n : nat) (url token : string)
  : option (@Response wire) :=
  match n with
  | 0 => ok_response [WListing root_listing]
  | _ => None
  end.

(** A run with one root folder holding one file. *)
Definition small_transport (n : nat) (url token : string) : option (@Response wire) :=
  if String.eqb url (artifact_url +:+ "run123") then
    ok_response [WListing root_listing]
  else if String.eqb url (artifact_url +:+ "run123/bill") then
    ok_response [WListing [file_entry "run123/bill.txt" "bill.txt"]]
  else if String.eqb url (content_request "run123/bill.txt") then
    ok_response [WChar "7"%char]
  else ok_response [WListing []].

Definition empty_world : @World wire := mkWorld ∅ [] 0.

(** The destination root [R] with the run directory and a file of its
    own. *)
Definition relocate_fs : gmap (list string) (@node wire) :=
  list_to_map
    [(["R"], NDir);
     (["R"; "run123"], NDir);
     (["R"; "run123"; "a.txt"], NFile [WChar "a"%char]);
     (["R"; "existing.txt"], NFile [WChar "e"%char])].

(** A report document with two attachments, one of them downloaded. *)
Definition report_doc : list (string * json) :=
  [("name", JStr "login test");
   ("attachments",
    JArr [JObj [("name", JStr "screen"); ("source", JStr "device-1/shot.png")];
          JObj [("name", JStr "video"); ("source", JStr "device-1/missing.mp4")]])].

Definition plain_doc : list (string * json) := [("name", JStr "categories")].

Definition report_fs : gmap (list string) (@node wire) :=
  list_to_map
    [(["R"], NDir);
     (["R"; "logs"], NDir);
     (["R"; "logs"; "shot.png"], NFile [WChar "p"%char]);
     (["R"; "report"], NDir);
     (["R"; "report"; "allure-results"], NDir);
     (["R"; "report"; "allure-results"; "t1.json"], NFile [WDoc report_doc]);
     (["R"; "report"; "allure-results"; "t2.json"], NFile [WDoc plain_doc])].

(** * The command *)

Lemma after_wait_events host token runId allureOutput waited :
  ∃ post,
    (after_wait host token runId allureOutput waited).1
    = (if String.eqb allureOutput "" then []
       else [MGetArtifacts host token runId allureOutput]) ++ post
    ∧ (post = [] ∨ ∃ e, post = [MPrintln [e]]).
Proof.
  unfold after_wait. destruct waited as [state [e |]]; cbn [fst].
  - eexists. split; [done |]. right. by eexists.
  - exists []. rewrite app_nil_r. split; [| by left].
    by destruct (String.eqb state "passed").
Qed.

Lemma after_wait_ending host token runId allureOutput waited :
  (after_wait host token runId allureOutput waited).2
  = match waited.2 with
    | Some _ => Exited 4
    | None => if String.eqb waited.1 "passed" then Returned else Exited 3
    end.
Proof.
  unfold after_wait. destruct waited as [state [e |]]; cbn [fst snd]; [done |].
  by destruct (String.eqb state "passed").
Qed.

(** X21. Once the run has been created, [main] fetches the
    artifacts whenever an output directory is configured, whatever the
    wait for the end of the run returns, and so also before it exits
    with status 3 or 4: the call comes right after the subscription, with
    the token and the run identifier of the subscription, and it is the
    only one. Without an output directory, or without a run, there is no
    call. *)
Theorem main_fetches_the_artifacts_of_every_run_it_started (c : Collaborators) :
  let host := GetString c "HOST" in
  let out := GetString c "ALLURE_OUTPUT" in
  (∀ token runId, MSubscribe token runId ∈ (main c).1 → out ≠ "" →
     ∃ pre post,
       (main c).1
       = pre ++ [MSubscribe token runId; MGetArtifacts host token runId out] ++ post
       ∧ Forall (λ e, ∃ ops, e = MPrintln ops) (pre ++ post))
  ∧ (∀ h t r o, MGetArtifacts h t r o ∈ (main c).1 →
       h = host ∧ o = out ∧ out ≠ "" ∧ MSubscribe t r ∈ (main c).1).
Proof.
  intros host out. unfold main. fold host out.
  destruct (ReadFlags c) as [e |].
  { split; [intros ? ? H | intros ? ? ? ? H]; cbn [fst] in H;
      apply list_elem_of_singleton in H; done. }
  destruct (String.eqb (GetString c "API_KEY") "").
  - destruct (Authorize c _ _ _) as [token [e |]].
    { split; [intros ? ? H | intros ? ? ? ? H]; cbn [fst] in H;
        apply list_elem_of_singleton in H; done. }
    destruct (SendNewRun c _ _ _ _ _ _ _) as [runId [e |]].
    { split; [intros ? ? H | intros ? ? ? ? H]; cbn [fst app] in H;
        repeat (apply elem_of_cons in H as [H | H]; [done |]);
        by apply elem_of_nil in H. }
    destruct (after_wait_events host token runId out
                (WaitRunForEnd c host runId token)) as (post & Hevs & Hpost).
    destruct (after_wait host token runId out _) as [evs e]. cbn [fst] in Hevs |- *.
    subst evs. destruct (String.eqb_spec out "") as [Hout | Hout].
    + split.
      * intros ? ? _ ?. done.
      * intros h t r o H. cbn [app] in H.
        repeat (apply elem_of_cons in H as [H | H]; [done |]).
        destruct Hpost as [-> | [e' ->]]; [by apply elem_of_nil in H |].
        by apply list_elem_of_singleton in H.
    + split.
      * intros t r H _. cbn [app] in H.
        apply elem_of_cons in H as [H | H]; [done |].
        apply elem_of_cons in H as [[= -> ->] | H].
        2:{ apply elem_of_cons in H as [H | H]; [done |].
            destruct Hpost as [-> | [e' ->]]; [by apply elem_of_nil in H |].
            by apply list_elem_of_singleton in H. }
        exists [MPrintln [Now c; "Creating new run"]], post.
        split; [done |]. constructor; [by eexists |].
        destruct Hpost as [-> | [e' ->]]; [constructor |].
        constructor; [by eexists | constructor].
      * intros h t r o H. cbn [app] in H.
        apply elem_of_cons in H as [H | H]; [done |].
        apply elem_of_cons in H as [H | H]; [done |].
        apply elem_of_cons in H as [[= -> -> -> ->] | H].
        { split; [done |]. split; [done |]. split; [done |].
          cbn [app]. apply list_elem_of_further, list_elem_of_here. }
        destruct Hpost as [-> | [e' ->]]; [by apply elem_of_nil in H |].
        by apply list_elem_of_singleton in H.
  - destruct (RequestJwtToken c _ _) as [token [e |]].
    { split; [intros ? ? H | intros ? ? ? ? H]; cbn [fst] in H;
        apply list_elem_of_singleton in H; done. }
    destruct (SendNewRunWithKey c _ _ _ _ _ _ _ _ _ _) as [runId [e |]].
    { split; [intros ? ? H | intros ? ? ? ? H]; cbn [fst] in H;
        apply list_elem_of_singleton in H; done. }
    destruct (after_wait_events host token runId out
                (WaitRunForEndWithApiKey c host runId (GetString c "API_KEY")))
      as (post & Hevs & Hpost).
    destruct (after_wait host token runId out _) as [evs e]. cbn [fst] in Hevs |- *.
    subst evs. destruct (String.eqb_spec out "") as [Hout | Hout].
    + split.
      * intros ? ? _ ?. done.
      * intros h t r o H. cbn [app] in H.
        repeat (apply elem_of_cons in H as [H | H]; [done |]).
        destruct Hpost as [-> | [e' ->]]; [by apply elem_of_nil in H |].
        by apply list_elem_of_singleton in H.
    + split.
      * intros t r H _. cbn [app] in H.
        apply elem_of_cons in H as [[= -> ->] | H].
        2:{ apply elem_of_cons in H as [H | H]; [done |].
            destruct Hpost as [-> | [e' ->]]; [by apply elem_of_nil in H |].
            by apply list_elem_of_singleton in H. }
        exists [], post.
        split; [done |]. cbn [app].
        destruct Hpost as [-> | [e' ->]]; [constructor |].
        constructor; [by eexists | constructor].
      * intros h t r o H. cbn [app] in H.
        apply elem_of_cons in H as [H | H]; [done |].
        apply elem_of_cons in H as [[= -> -> -> ->] | H].
        { split; [done |]. split; [done |]. split; [done |].
          apply list_elem_of_here. }
        destruct Hpost as [-> | [e' ->]]; [by apply elem_of_nil in H |].
        by apply list_elem_of_singleton in H.
Qed.

(** X22. [main] ends without a call of [os.Exit], that is with
    status 0, in two cases only: the run was created and subscribed to,
    and the wait for its end returned the state [passed] without an
    error; or, with an API key, the JWT token could not be obtained, in
    which case [main] prints the error and returns, no run having been
    created (the same failure at the login exits with status 6). *)
Theorem main_returns_only_for_a_passed_run_or_a_refused_key (c : Collaborators) :
  let host := GetString c "HOST" in
  let apiKey := GetString c "API_KEY" in
  (main c).2 = Returned →
  ReadFlags c = None
  ∧ ((apiKey ≠ "" ∧ ∃ e, (RequestJwtToken c host apiKey).2 = Some e
                         ∧ (main c).1 = [MPrintln [e]])
     ∨ ∃ token runId,
         MSubscribe token runId ∈ (main c).1
         ∧ (if String.eqb apiKey "" then WaitRunForEnd c host runId token
            else WaitRunForEndWithApiKey c host runId apiKey).2 = None
         ∧ (if String.eqb apiKey "" then WaitRunForEnd c host runId token
            else WaitRunForEndWithApiKey c host runId apiKey).1 = "passed").
Proof.
  intros host apiKey. unfold main. fold host apiKey.
  destruct (ReadFlags c) as [e |]; [done |]. intros Hend. split; [done |].
  destruct (String.eqb_spec apiKey "") as [Hkey | Hkey].
  - right.
    destruct (Authorize c _ _ _) as [token [e |]]; [done |].
    destruct (SendNewRun c _ _ _ _ _ _ _) as [runId [e |]]; [done |].
    pose proof (after_wait_ending host token runId (GetString c "ALLURE_OUTPUT")
                  (WaitRunForEnd c host runId token)) as Hafter.
    destruct (after_wait host token runId _ _) as [evs e].
    cbn [fst snd] in Hend, Hafter |- *. subst e.
    exists token, runId. split; [apply list_elem_of_further, list_elem_of_here |].
    destruct (WaitRunForEnd c host runId token) as [state [e |]];
      cbn [fst snd] in Hafter |- *; [done |].
    split; [done |].
    destruct (String.eqb_spec state "passed"); done.
  - destruct (RequestJwtToken c host apiKey) as [token [e |]].
    { left. split; [done |]. by exists e. }
    right.
    destruct (SendNewRunWithKey c _ _ _ _ _ _ _ _ _ _) as [runId [e |]]; [done |].
    pose proof (after_wait_ending host token runId (GetString c "ALLURE_OUTPUT")
                  (WaitRunForEndWithApiKey c host runId apiKey)) as Hafter.
    destruct (after_wait host token runId _ _) as [evs e].
    cbn [fst snd] in Hend, Hafter |- *. subst e.
    exists token, runId. split; [apply list_elem_of_here |].
    destruct (WaitRunForEndWithApiKey c host runId apiKey) as [state [e |]];
      cbn [fst snd] in Hafter |- *; [done |].
    split; [done |].
    destruct (String.eqb_spec state "passed"); done.
Qed.
(** * The theorems at the concrete run *)

#[local] Existing Instance no_slash_dec.
#[local] Existing Instance plain_name_dec.



Definition download_world : @World wire :=
  mkWorld (list_to_map [(["R"], NDir)]) [] 0.


Definition relocate_world : @World wire := mkWorld relocate_fs [] 0.

(** [R/run123/a.txt] and [R/existing.txt]: afterwards [R/a.txt] is there,
    [R/run123] is not, [R/existing.txt] is as it was. *)
Lemma relocateContents_merges_then_removes_witness :
  let w' := (relocateContents [] "R" "run123" relocate_world).2 in
  fs w' !! ["R"; "a.txt"] = Some (NFile [WChar "a"%char])
  ∧ fs w' !! ["R"; "run123"] = None
  ∧ fs w' !! ["R"; "run123"; "a.txt"] = None
  ∧ fs w' !! ["R"; "existing.txt"] = Some (NFile [WChar "e"%char]).
Proof.
  destruct (relocateContents_merges_then_removes [] "R" "run123" relocate_world)
    as (_ & _ & _ & _ & Hmerge).
  destruct Hmerge as (Hgone & _ & Hkept);
    [reflexivity | by vm_compute | done |].
  destruct Hkept as [Hfiles Hothers].
  { change (key_of [] (path.Join ["R"; "run123"])) with ["R"; "run123"].
    change (key_of [] "R") with ["R"]. intros Hp%prefix_length. simpl in Hp. lia. }
  { change (key_of [] (path.Join ["R"; "run123"])) with ["R"; "run123"].
    change (key_of [] "R") with ["R"]. intros rel _ [n Hn] Hp.
    apply prefix_cons_inv_2 in Hp.
    destruct rel as [| x rel]; [by apply prefix_nil_inv in Hp |].
    apply prefix_cons_inv_1 in Hp. subst x.
    apply elem_of_list_to_map_2 in Hn.
    repeat (apply elem_of_cons in Hn as [[=] | Hn]).
    by apply elem_of_nil in Hn. }
  split; [| split; [| split]].
  - apply (Hfiles ["a.txt"]); [done | reflexivity |].
    intros i Hi. simpl in Hi. lia.
  - apply Hgone. done.
  - apply Hgone. by exists ["a.txt"].
  - apply Hothers; [reflexivity | |].
    + intros Hp. by apply prefix_cons_inv_2, prefix_cons_inv_1 in Hp.
    + intros rel _ Hsome Heq. injection Heq as <-. vm_compute in Hsome.
      by destruct Hsome.
Defined.

(** The run directory holds a directory with the name of the run, and
    both hold a file [z]. *)
Definition nested_world : @World wire :=
  mkWorld
    (list_to_map
       [(["R"], NDir);
        (["R"; "run123"], NDir);
        (["R"; "run123"; "run123"], NDir);
        (["R"; "run123"; "run123"; "z"], NFile [WChar "A"%char]);
        (["R"; "run123"; "z"], NFile [WChar "B"%char])])
    [] 0.

(** The root is a regular file. *)
Definition file_root_world : @World wire :=
  mkWorld (list_to_map [(["R"], NFile [WChar "r"%char])]) [] 0.

(** The file [R/run123/z] does not come to [R/z]: the copy of
    [R/run123/run123] has put the other [z] in its place before its turn
    comes, and that one is what the root gets. And when the root is a
    regular file there is no run directory, yet the step is not the
    logged skip: the copy is tried, and its failure is what is logged. *)
Lemma relocateContents_merge_counterexample :
  fs nested_world !! ["R"; "run123"; "z"] = Some (NFile [WChar "B"%char])
  ∧ fs (relocateContents [] "R" "run123" nested_world).2 !! ["R"; "z"]
    = Some (NFile [WChar "A"%char])
  ∧ lookup_node (fs file_root_world) ["R"; "run123"] = None
  ∧ trace (relocateContents [] "R" "run123" file_root_world).2
    = [EvStat "R/run123"; EvCopy "R/run123" "R";
       EvPrint "Error copying files: copy R/run123 failed"].
Proof. by vm_compute. Qed.

Definition report_world : @World wire := mkWorld report_fs [] 0.

Lemma report_fs_wf : fs_wf report_fs.
Proof.
  apply map_Forall_to_list.
  vm_compute map_to_list.
  repeat constructor; done.
Qed.

(** The attachment whose file was downloaded points to it, the other one
    is as it was; the document without attachments keeps its bytes. *)
Lemma updateJsonPaths_repairs_attachments_witness :
  let w' := (updateJsonPaths [] wire_doc wire_marshal "R" report_world).2 in
  fs w' !! ["R"; "report"; "allure-results"; "t1.json"]
  = Some (NFile
      [WDoc
         [("name", JStr "login test");
          ("attachments",
           JArr [JObj [("name", JStr "screen");
                       ("source", JStr "../../logs/shot.png")];
                 JObj [("name", JStr "video");
                       ("source", JStr "device-1/missing.mp4")]])]])
  ∧ fs w' !! ["R"; "report"; "allure-results"; "t2.json"]
    = Some (NFile [WDoc plain_doc]).
Proof.
  split.
  - destruct (updateJsonPaths_repairs_attachments [] wire_doc wire_marshal
                "R" "t1.json" [WDoc report_doc] report_doc report_world
                report_fs_wf eq_refl eq_refl eq_refl) as (_ & Hatts & _).
    destruct (Hatts _ eq_refl) as (Hfile & _). exact Hfile.
  - destruct (updateJsonPaths_repairs_attachments [] wire_doc wire_marshal
                "R" "t2.json" [WDoc plain_doc] plain_doc report_world
                report_fs_wf eq_refl eq_refl eq_refl) as (_ & _ & Hsame).
    apply Hsame. intros atts. discriminate.
Defined.


(** With a transport that never answers, root discovery yields nothing
    and [GetArtifacts] returns after the message. *)
Lemma GetArtifacts_returns_without_roots_witness :
  let w1 := (getFolder wire_listing dead_transport "tok" "run123" relocate_world).2 in
  reachable [] wire_listing wire_doc wire_marshal dead_transport "tok" "run123" "R"
    relocate_world (returned_early w1)
  ∧ fs w1 = relocate_fs
  ∧ trace (later w1 [EvPrint "Failed to retrieve root folders."])
    = attempts_trace "tok" "run123" 5 ++ [EvPrint "Failed to retrieve root folders."].
Proof.
  destruct (GetArtifacts_returns_without_roots [] wire_listing wire_doc wire_marshal
              dead_transport "tok" "run123" "R" relocate_world eq_refl)
    as (Hreach & _ & _ & Hfs & _).
  split; [exact Hreach |]. split; reflexivity.
Defined.

(** * A run of the goroutines

    [small_transport]: seven root folders, of which [run123/bill] holds one
    file. The main goroutine walks, the download goroutine of the file
    acquires, downloads, releases and finishes, and the main goroutine goes
    on through the barrier to the reconciliation. *)

Definition run_step : @process wire → @process wire → Prop :=
  step [] wire_listing wire_doc wire_marshal small_transport "tok" "run123" "R".

Definition run_walk_trace : list event :=
  [EvSleep 5;
   EvGet (artifact_url +:+ "run123") "tok";
   EvGet (artifact_url +:+ "run123/bill") "tok";
   EvGo "run123/bill.txt"].

Definition run_rest : list work :=
  [WCall "run123/devices"; WCall "run123/html"; WCall "run123/logs";
   WCall "run123/report"; WCall "run123/test_result"; WCall "run123/tests"].

(** The download goroutine is inside [downloadFile]; the walk goes on. *)
Definition run_downloading : @GState wire :=
  mkG (mkWorld ∅ run_walk_trace 2) (PcWalk run_rest)
      [("run123/bill.txt", TDownload)] 1 1 false SinkReceive.

Definition run_walked_trace : list event :=
  run_walk_trace
  ++ [EvGet (artifact_url +:+ "run123/devices") "tok";
      EvGet (artifact_url +:+ "run123/html") "tok";
      EvGet (artifact_url +:+ "run123/logs") "tok";
      EvGet (artifact_url +:+ "run123/report") "tok";
      EvGet (artifact_url +:+ "run123/test_result") "tok";
      EvGet (artifact_url +:+ "run123/tests") "tok"].

Definition run_downloaded_world : @World wire :=
  mkWorld
    (list_to_map
       [(["R"], NDir); (["R"; "run123"], NDir);
        (["R"; "run123"; "bill.txt"], NFile [WChar "7"%char])])
    (run_walked_trace
     ++ [EvMkdirAll "R/run123";
         EvGet (content_request "run123/bill.txt") "tok";
         EvCreate "R/run123/bill.txt"; EvWrite "R/run123/bill.txt"])
    9.

Definition run_relocated_world : @World wire :=
  mkWorld
    (list_to_map [(["R"], NDir); (["R"; "bill.txt"], NFile [WChar "7"%char])])
    (trace run_downloaded_world
     ++ [EvStat "R/run123"; EvCopy "R/run123" "R"; EvRemoveAll "R/run123"])
    9.

(** The main goroutine is about to call [updateJsonPaths]. *)
Definition run_relocated : @GState wire :=
  mkG run_relocated_world PcRepair [("run123/bill.txt", TDone)] 0 0 true SinkReceive.

#[local] Ltac settle :=
  first [ reflexivity | vm_compute; reflexivity | done
        | cbn [g_sem g_wg]; unfold maxConcurrentDownloads; lia ].

#[local] Ltac tidy :=
  unfold set_main, set_world, set_sink, set_task, set_sem, set_wg, Go, Println, emit;
  cbn [g_world g_main g_tasks g_sem g_wg g_closed g_sink fst snd map app
       wire_listing body_data ID IsFile fs trace clock
       root_listing folder_entry file_entry list_insert insert empty_world].

Lemma run_reaches_downloading :
  rtc run_step (initial empty_world) (Running run_downloading).
Proof.
  unfold run_step, initial.
  eapply rtc_l; [eapply step_roots; settle | tidy].
  eapply rtc_l; [eapply step_list; settle | tidy].
  eapply rtc_l; [eapply step_go; settle | tidy].
  eapply rtc_l; [eapply (step_acquire _ _ _ _ _ _ _ _ _ 0); settle | tidy].
  apply rtc_refl.
Qed.

Lemma run_goes_on_to_relocated :
  rtc run_step (Running run_downloading) (Running run_relocated).
Proof.
  unfold run_step, run_downloading, run_rest.
  do 6 (eapply rtc_l; [eapply step_list; settle | tidy]).
  eapply rtc_l; [eapply step_walked; settle | tidy].
  eapply rtc_l;
    [eapply (step_download _ _ _ _ _ _ _ _ _ 0 _ None run_downloaded_world); settle
    | tidy].
  eapply rtc_l; [eapply (step_release _ _ _ _ _ _ _ _ _ 0); settle | tidy].
  eapply rtc_l; [eapply (step_finish _ _ _ _ _ _ _ _ _ 0); settle | tidy].
  eapply rtc_l; [eapply step_wait; settle | tidy].
  eapply rtc_l; [eapply step_close; settle | tidy].
  eapply rtc_l;
    [eapply (step_relocate _ _ _ _ _ _ _ _ _ run_relocated_world); settle | tidy].
  apply rtc_refl.
Qed.

Lemma run_reaches_relocated :
  rtc run_step (initial empty_world) (Running run_relocated).
Proof.
  etrans; [apply run_reaches_downloading | apply run_goes_on_to_relocated].
Qed.

(** One download is in flight in [run_downloading], of five allowed. *)
Lemma at_most_five_downloads_in_flight_witness :
  count downloading (g_tasks run_downloading) = 1
  ∧ count downloading (g_tasks run_downloading) ≤ 5
  ∧ g_sem run_downloading = count holds_slot (g_tasks run_downloading).
Proof.
  destruct (at_most_five_downloads_in_flight [] wire_listing wire_doc wire_marshal
              small_transport "tok" "run123" "R" empty_world run_downloading
              run_reaches_downloading) as (Hle & Hcap & Hsem & _).
  split; [reflexivity |]. split; [by rewrite <- Hcap | exact Hsem].
Defined.

(** In [run_relocated] the download goroutine has finished, and the state
    was reached through the reconciliation. *)
Lemma reconciliation_waits_for_downloads_witness :
  all_done (g_tasks run_relocated)
  ∧ g_wg run_relocated = 0
  ∧ ∃ s0 : @GState wire, g_main s0 = PcRelocate ∧ all_done (g_tasks s0).
Proof.
  destruct (reconciliation_waits_for_downloads [] wire_listing wire_doc wire_marshal
              small_transport "tok" "run123" "R" empty_world run_relocated
              run_reaches_relocated) as (Hbarrier & Hrepair).
  destruct (Hbarrier (or_intror eq_refl)) as (Hdone & Hwg & _).
  destruct (Hrepair eq_refl) as (s0 & _ & Hpc & Hdone0 & _).
  split; [exact Hdone |]. split; [exact Hwg |]. by exists s0.
Defined.

(** * A nil response outside root discovery

    [getFolder] tests [resp == nil || resp.Body == nil] before it touches
    the response; [getFoldersRecursively] and [downloadFile] run
    [defer resp.Body.Close()] on whatever [request.SendGetRequest]
    returned. *)

(** C1, at the failing input: with a transport whose only answer is the
    root listing, the listing request of the first root folder gets a nil
    response; [getFoldersRecursively] panics on it, and so does
    [downloadFile] on a nil response to its content request, where
    [getFolder] counts an attempt and goes on. The panic of the walk ends
    the process: from the initial state a crashed process is reached, from
    which nothing moves, neither a sibling download nor the rest of the
    pipeline. *)
Theorem nil_response_crashes_the_process :
  (getFoldersRecursively wire_listing failing_transport 1 "tok" "run123/bill" "R"
     (mkWorld ∅ [] 1)).1 = Panicked nil_dereference
  ∧ (downloadFile [] dead_transport "tok" "run123/bill.txt" "R" empty_world).1
    = Panicked nil_dereference
  ∧ (getFolder wire_listing dead_transport "tok" "run123" empty_world).1 = Ret []
  ∧ ∃ w,
      rtc (step [] wire_listing wire_doc wire_marshal failing_transport
             "tok" "run123" "R")
          (initial empty_world) (Crashed w)
      ∧ ∀ p, ¬ step [] wire_listing wire_doc wire_marshal failing_transport
                 "tok" "run123" "R" (Crashed w) p.
Proof.
  split; [reflexivity |]. split; [reflexivity |]. split; [reflexivity |].
  eexists. split.
  - unfold initial.
    eapply rtc_l; [eapply step_roots; [reflexivity | reflexivity | done] |].
    eapply rtc_l; [| apply rtc_refl].
    eapply step_list_nil; [reflexivity | reflexivity | by left].
  - intros p. apply crashed_stuck.
Qed.

(** Root discovery on a listing that becomes complete at the second
    attempt: two attempts, and the second listing is returned. *)
Definition slow_transport (n : nat) (url token : string) : option (@Response wire) :=
  match n with
  | 0 => ok_response [WListing [folder_entry "run123/logs" "logs"]]
  | _ => ok_response [WListing root_listing]
  end.

Example getFolder_second_attempt :
  getFolder wire_listing slow_transport "tok" "run123" empty_world
  = (Ret root_listing, mkWorld ∅ (attempts_trace "tok" "run123" 2) 2).
Proof. reflexivity. Qed.

Example Split_ex : strings.Split "logs/run#1.txt" slash = ["logs"; "run#1.txt"].
Proof. reflexivity. Qed.
Example Split_trailing : strings.Split "logs/" slash = ["logs"; ""].
Proof. reflexivity. Qed.
Example Clean_ex : path.Clean "a//b/./c/../d" = "a/b/d".
Proof. reflexivity. Qed.
Example Clean_rooted_ex : path.Clean "/../a/" = "/a".
Proof. reflexivity. Qed.
Example Clean_up : path.Clean "../../a" = "../../a".
Proof. reflexivity. Qed.
Example Join_ex : path.Join ["out"; ""] = "out".
Proof. reflexivity. Qed.
Example Base_ex : path.Base "a/b/shot.png" = "shot.png".
Proof. reflexivity. Qed.
Example Base_slashes : path.Base "a/b//" = "b".
Proof. reflexivity. Qed.
Example Ext_ex : path.Ext "x.tar.json" = ".json".
Proof. reflexivity. Qed.
Example Rel_ex :
  path.Rel "out/report/allure-results" "out/logs/a/shot.png"
  = Some "../../logs/a/shot.png".
Proof. reflexivity. Qed.
Example Rel_inside : path.Rel "out/report" "out/report/x.json" = Some "x.json".
Proof. reflexivity. Qed.
Example Rel_rooted : path.Rel "/" "/x" = Some "x".
Proof. reflexivity. Qed.
Example Rel_mixed : path.Rel "/a" "a" = None.
Proof. reflexivity. Qed.
Example Rel_climb : path.Rel "../a" "b" = None.
Proof. reflexivity. Qed.

(** * More concrete runs *)

(** A run without the [html] category: every listing of the root holds
    the six others. *)
Definition no_html_listing : list ArtifactTree :=
  [folder_entry "run123/bill" "bill"; folder_entry "run123/devices" "devices";
   folder_entry "run123/logs" "logs"; folder_entry "run123/report" "report";
   folder_entry "run123/test_result" "test_result";
   folder_entry "run123/tests" "tests"].

Definition no_html_transport (n : nat) (url token : string)
  : option (@Response wire) :=
  ok_response [WListing no_html_listing].

(** Five attempts, and the six folders are what is returned. *)
Lemma getFolder_makes_all_attempts_when_a_category_is_missing_witness :
  getFolder wire_listing no_html_transport "tok" "run123" empty_world
  = (Ret no_html_listing, mkWorld ∅ (attempts_trace "tok" "run123" 5) 5).
Proof.
  apply (getFolder_makes_all_attempts_when_a_category_is_missing
           wire_listing no_html_transport "tok" "run123" "html" empty_world).
  - unfold expected_categories.
    do 2 apply list_elem_of_further. apply list_elem_of_here.
  - intros j l _ [= <-]. repeat constructor; discriminate.
Defined.

(** The tree below [run123/logs] with two folders that cannot be listed:
    the body of one does not decode, that of the other ends in a read
    error. *)
Definition torn_tree : @ltree wire :=
  LFolder "run123/logs" "logs"
    [LFile "run123/logs/a.log" "a.log";
     LBroken "run123/logs/omni" "omni" (mkBody [WChar "<"%char] false);
     LBroken "run123/logs/cut" "cut" (mkBody [] true);
     LFile "run123/logs/z.log" "z.log"].

Definition torn_transport (n : nat) (url token : string) : option (@Response wire) :=
  if String.eqb url (artifact_url +:+ "run123/logs") then
    ok_response [WListing [file_entry "run123/logs/a.log" "a.log";
                           folder_entry "run123/logs/omni" "omni";
                           folder_entry "run123/logs/cut" "cut";
                           file_entry "run123/logs/z.log" "z.log"]]
  else if String.eqb url (artifact_url +:+ "run123/logs/omni") then
    Some (mkResponse (Some (mkBody [WChar "<"%char] false)))
  else if String.eqb url (artifact_url +:+ "run123/logs/cut") then
    Some (mkResponse (Some (mkBody [] true)))
  else None.

Lemma torn_tree_answers : answers wire_listing torn_transport "tok" torn_tree.
Proof.
  cbn [answers torn_tree].
  repeat match goal with
         | |- _ ∧ _ => split
         | |- True => exact I
         | |- ∀ n : nat, ∃ _, _ => intros n; eexists; split; reflexivity
         | |- ∀ n : nat, _ = _ => intros n; reflexivity
         | |- _ ∨ _ => first [left; reflexivity | right; reflexivity]
         end.
Qed.

(** The two files beside the broken folders are downloaded, and the walk
    has complained twice. *)
Lemma walker_gives_up_only_the_unreadable_folder_witness :
  ∃ w',
    getFoldersRecursively wire_listing torn_transport 2 "tok" "run123/logs" "R"
      empty_world = (Ret tt, w')
    ∧ started (trace w') = ["run123/logs/a.log"; "run123/logs/z.log"]
    ∧ printed (trace w')
      = ["Failed to unmarshal response: invalid character";
         "Error reading response: unexpected EOF"].
Proof.
  destruct (walker_gives_up_only_the_unreadable_folder wire_listing torn_transport
              "tok" "R" torn_tree empty_world eq_refl torn_tree_answers)
    as (w' & Hrun & Hstarted & Hprinted & _).
  exists w'. split; [exact Hrun |]. split; [exact Hstarted | exact Hprinted].
Defined.

(** Three listing requests: the folder and the two it cannot list. *)
Lemma walker_lists_every_folder_once_witness :
  let w' := (getFoldersRecursively wire_listing torn_transport 2 "tok"
               "run123/logs" "R" empty_world).2 in
  requested (trace w')
  = [(artifact_url +:+ "run123/logs", "tok");
     (artifact_url +:+ "run123/logs/omni", "tok");
     (artifact_url +:+ "run123/logs/cut", "tok")]
  ∧ clock w' = 3.
Proof.
  exact (walker_lists_every_folder_once wire_listing torn_transport
           "tok" "R" torn_tree empty_world eq_refl torn_tree_answers).
Defined.

(** A remote side that answers every request with one byte. *)
Definition byte_transport (n : nat) (url token : string) : option (@Response wire) :=
  ok_response [WChar "!"%char].

(** [../evil.txt] is written beside the root [R], not below it. *)
Lemma downloadFile_follows_dotdot_out_of_the_root_witness :
  ∃ w',
    downloadFile [] byte_transport "tok" "../evil.txt" "R" download_world
    = (Ret None, w')
    ∧ fs w' !! ["evil.txt"] = Some (NFile [WChar "!"%char])
    ∧ fs w' !! ["R"; "evil.txt"] = None.
Proof.
  destruct (downloadFile_follows_dotdot_out_of_the_root [] byte_transport "tok" "R"
              ["evil.txt"] (mkBody [WChar "!"%char] false) download_world)
    as (w' & Hrun & _ & Hfile & _).
  - by intros ?%elem_of_nil.
  - done.
  - repeat constructor; done.
  - done.
  - reflexivity.
  - intros k c Hk. vm_compute in Hk. apply prefix_nil_inv in Hk. by subst k.
  - by vm_compute.
  - exists w'. split; [exact Hrun |]. split; [exact Hfile |].
    vm_compute in Hrun. injection Hrun as <-. reflexivity.
Defined.

(** A second reconciliation of [relocate_world] finds no [R/run123]. *)
Lemma relocateContents_again_skips_witness :
  let w1 := (relocateContents [] "R" "run123" relocate_world).2 in
  relocateContents [] "R" "run123" w1
  = (Ret tt,
     later w1 [EvStat "R/run123";
               EvPrint "run123 directory does not exist. Skipping relocation."])
  ∧ lookup_node (fs w1) ["R"; "run123"] = None.
Proof.
  apply (relocateContents_again_skips [] "R" "run123" relocate_world).
  - by vm_compute.
  - by vm_compute.
  - by vm_compute; eexists.
  - by vm_compute.
  - by vm_compute.
Defined.

(** [run123/bill.txt] is downloaded to [R/run123/bill.txt] and ends at
    [R/bill.txt]. *)
Lemma downloaded_file_ends_below_the_root_witness :
  let w1 := (downloadFile [] small_transport "tok" "run123/bill.txt" "R"
               download_world).2 in
  let w2 := (relocateContents [] "R" "run123" w1).2 in
  fs w1 !! ["R"; "run123"; "bill.txt"] = Some (NFile [WChar "7"%char])
  ∧ fs w2 !! ["R"; "bill.txt"] = Some (NFile [WChar "7"%char])
  ∧ fs w2 !! ["R"; "run123"; "bill.txt"] = None.
Proof.
  destruct (downloaded_file_ends_below_the_root [] small_transport "tok" "R" "run123"
              ["bill.txt"] (mkBody [WChar "7"%char] false) download_world)
    as (Hthere & Hmoved & Hgone).
  - done.
  - repeat constructor; done.
  - done.
  - done.
  - reflexivity.
  - intros k c Hk. destruct Hk as [rest Hk].
    destruct k as [| a [| b [| ? ?]]]; simpl in Hk; try done.
    + injection Hk as <- _. by vm_compute.
    + injection Hk as <- <- _. by vm_compute.
  - by vm_compute.
  - intros k Hk. change (key_of [] "R") with ["R"] in Hk.
    destruct (fs download_world !! k) as [n |] eqn:Hn; [| done].
    apply elem_of_list_to_map_2, list_elem_of_singleton in Hn.
    injection Hn as -> _. apply prefix_length in Hk. simpl in Hk. lia.
  - by vm_compute.
  - by vm_compute.
  - split; [exact Hthere |]. split; [exact Hmoved |].
    apply Hgone. by exists ["bill.txt"].
Defined.

(** A metadata directory with a text file and a [.json] file that is not
    JSON. *)
Definition odd_fs : gmap (list string) (@node wire) :=
  list_to_map
    [(["R"], NDir);
     (["R"; "report"], NDir);
     (["R"; "report"; "allure-results"], NDir);
     (["R"; "report"; "allure-results"; "bad.json"], NFile [WChar "{"%char]);
     (["R"; "report"; "allure-results"; "notes.txt"], NFile [WDoc report_doc]);
     (["R"; "report"; "allure-results"; "t1.json"], NFile [WDoc report_doc])].

Definition odd_world : @World wire := mkWorld odd_fs [] 0.

Lemma odd_fs_wf : fs_wf odd_fs.
Proof.
  apply map_Forall_to_list.
  vm_compute map_to_list.
  repeat constructor; done.
Qed.

(** Neither the text file nor the broken [.json] file is touched. *)
Lemma updateJsonPaths_leaves_what_it_cannot_read_witness :
  let w' := (updateJsonPaths [] wire_doc wire_marshal "R" odd_world).2 in
  fs w' !! ["R"; "report"; "allure-results"; "bad.json"]
  = Some (NFile [WChar "{"%char])
  ∧ fs w' !! ["R"; "report"; "allure-results"; "notes.txt"]
    = Some (NFile [WDoc report_doc]).
Proof.
  split.
  - apply (updateJsonPaths_leaves_what_it_cannot_read [] wire_doc wire_marshal
             "R" "bad.json" [WChar "{"%char] odd_world odd_fs_wf eq_refl).
    by right.
  - apply (updateJsonPaths_leaves_what_it_cannot_read [] wire_doc wire_marshal
             "R" "notes.txt" [WDoc report_doc] odd_world odd_fs_wf eq_refl).
    by left.
Defined.

(** What the walk of [R] visits in [report_world]. *)
Definition report_visits : list (string * bool) :=
  match (Walk [] "R" report_world).1 with
  | Ret (Some visits) => visits
  | _ => []
  end.

(** In [report_world] the source [device-1/shot.png] becomes a path that
    leads from [R/report/allure-results] to [R/logs/shot.png]. *)
Lemma repaired_source_leads_to_the_indexed_file_witness :
  let o := [("name", JStr "screen"); ("source", JStr "device-1/shot.png")] in
  ∃ r c,
    (repair_attachment (fold_left index_file report_visits ∅)
       (path.Join ["R"; "report"; "allure-results"]) (JObj o) report_world).1
    = Ret (JObj (obj_set "source" (JStr r) o))
    ∧ key_of [] (path.Join [path.Join ["R"; "report"; "allure-results"]; r])
      = key_of [] "R/logs/shot.png"
    ∧ fs report_world !! key_of [] "R/logs/shot.png" = Some (NFile c)
    ∧ path.Base "R/logs/shot.png" = path.Base "device-1/shot.png".
Proof.
  apply (repaired_source_leads_to_the_indexed_file [] "R" "device-1/shot.png"
           "R/logs/shot.png" report_visits
           [("name", JStr "screen"); ("source", JStr "device-1/shot.png")]
           report_world report_world ltac:(done) report_fs_wf).
  - reflexivity.
  - reflexivity.
  - reflexivity.
  - by vm_compute.
Defined.

(** In [run_downloading] a goroutine can move. *)
Lemma GetArtifacts_never_deadlocks_witness :
  ∃ p, run_step (Running run_downloading) p.
Proof.
  apply (GetArtifacts_never_deadlocks [] wire_listing wire_doc wire_marshal
           small_transport "tok" "run123" "R" empty_world run_downloading).
  - exact run_reaches_downloading.
  - discriminate.
Defined.

(** With [failing_transport] the listing of the first root folder gets a
    nil response, and the process crashes. *)
Lemma failing_run_crashes :
  ∃ w, reachable [] wire_listing wire_doc wire_marshal failing_transport
         "tok" "run123" "R" empty_world (Crashed w).
Proof.
  eexists. unfold reachable, initial.
  eapply rtc_l; [eapply step_roots; [reflexivity | reflexivity | done] |].
  eapply rtc_l; [| apply rtc_refl].
  eapply step_list_nil; [reflexivity | reflexivity | by left].
Qed.

Lemma crash_comes_from_a_nil_response_witness :
  ∃ (w : @World wire) tr url n,
    trace w = tr ++ [EvGet url "tok"] ∧ clock w = S n
    ∧ nil_response (failing_transport n url "tok").
Proof.
  destruct failing_run_crashes as [w Hw]. exists w.
  exact (crash_comes_from_a_nil_response [] wire_listing wire_doc wire_marshal
           failing_transport "tok" "run123" "R" empty_world w Hw).
Defined.

(** A run whose only file has an empty identifier: the download fails at
    once, and the sink receives the error. *)
Definition ghost_transport (n : nat) (url token : string) : option (@Response wire) :=
  if String.eqb url (artifact_url +:+ "run123") then
    ok_response [WListing [folder_entry "run123/bill" "bill"]]
  else ok_response [WListing [file_entry "" "ghost"]].

Definition ghost_step : @process wire → @process wire → Prop :=
  step [] wire_listing wire_doc wire_marshal ghost_transport "tok" "run123" "R".

Definition ghost_world : @World wire :=
  mkWorld ∅
    (attempts_trace "tok" "run123" 5
     ++ [EvGet (artifact_url +:+ "run123/bill") "tok"; EvGo ""])
    6.

(** The download goroutine has finished, the main goroutine is at
    [wg.Wait()], and the sink has the error but has not printed it. *)
Definition ghost_received : @GState wire :=
  mkG ghost_world PcWait [("", TDone)] 0 0 false
      (SinkPrint "empty fileID provided").

Lemma ghost_run : rtc ghost_step (initial empty_world) (Running ghost_received).
Proof.
  unfold ghost_step, initial.
  eapply rtc_l; [eapply step_roots; settle | tidy].
  eapply rtc_l; [eapply step_list; settle | tidy].
  eapply rtc_l; [eapply step_go; settle | tidy].
  eapply rtc_l; [eapply step_walked; settle | tidy].
  eapply rtc_l; [eapply (step_acquire _ _ _ _ _ _ _ _ _ 0); settle | tidy].
  eapply rtc_l;
    [eapply (step_download _ _ _ _ _ _ _ _ _ 0 _ (Some "empty fileID provided"));
     settle
    | tidy].
  eapply rtc_l; [eapply (step_release _ _ _ _ _ _ _ _ _ 0); settle | tidy].
  eapply rtc_l; [eapply (step_report _ _ _ _ _ _ _ _ _ 0); settle | tidy].
  eapply rtc_l; [eapply (step_finish _ _ _ _ _ _ _ _ _ 0); settle | tidy].
  apply rtc_refl.
Qed.

(** From [ghost_received] the main goroutine can return with the error
    still unprinted. *)
Lemma GetArtifacts_can_return_before_an_error_is_printed_witness :
  ∃ s' : @GState wire,
    rtc ghost_step (initial empty_world) (Running s')
    ∧ g_main s' = PcReturn
    ∧ g_sink s' = SinkPrint "empty fileID provided".
Proof.
  destruct (GetArtifacts_can_return_before_an_error_is_printed [] wire_listing
              wire_doc wire_marshal ghost_transport "tok" "run123" "R"
              empty_world ghost_received "empty fileID provided"
              ghost_run eq_refl eq_refl eq_refl)
    as (s' & Hreach & Hmain & Hsink & _).
  exists s'. split; [exact Hreach |]. split; [exact Hmain | exact Hsink].
Defined.

(** An API key that the server refuses. *)
Definition refused_key : Collaborators :=
  mkCollaborators None
    (λ key, if String.eqb key "API_KEY" then "k-1"
            else if String.eqb key "ALLURE_OUTPUT" then "out" else "")
    "Jan  1 00:00:00"
    (λ _ _ _, ("", None))
    (λ _ _ _ _ _ _ _, ("", None))
    (λ _ _ _, ("passed", None))
    (λ _ _, ("", Some "401 Unauthorized"))
    (λ _ _ _ _ _ _ _ _ _ _, ("run-1", None))
    (λ _ _ _, ("passed", None)).

(** [main] prints the error of the refused key and returns. *)
Lemma main_returns_only_for_a_passed_run_or_a_refused_key_witness :
  main refused_key = ([MPrintln ["401 Unauthorized"]], Returned)
  ∧ ReadFlags refused_key = None.
Proof.
  destruct (main_returns_only_for_a_passed_run_or_a_refused_key refused_key eq_refl)
    as [Hflags _].
  split; [reflexivity | exact Hflags].
Defined.

(** The main goroutine about to walk [run123/logs]. *)
Definition torn_start : @GState wire :=
  mkG empty_world (PcWalk [WCall "run123/logs"]) [] 0 0 false SinkReceive.

(** After the walk of [torn_tree] two goroutines wait for the semaphore. *)
Lemma GetArtifacts_starts_a_goroutine_for_every_file_witness :
  ∃ w',
    rtc (step [] wire_listing wire_doc wire_marshal torn_transport "tok" "run123" "R")
        (Running torn_start)
        (Running (mkG w' (PcWalk [])
                      [("run123/logs/a.log", TAcquire); ("run123/logs/z.log", TAcquire)]
                      0 2 false SinkReceive)).
Proof.
  eexists.
  exact (GetArtifacts_starts_a_goroutine_for_every_file [] wire_listing wire_doc
           wire_marshal torn_transport "tok" "run123" "R" torn_tree [] torn_start
           eq_refl eq_refl torn_tree_answers).
Defined.

(** A destination in which [R/logs] is a regular file, and one in which
    [R/logs/a.txt] is a directory. *)
Definition blocked_world : @World wire :=
  mkWorld (list_to_map [(["R"], NDir); (["R"; "logs"], NFile [])]) [] 0.

Definition occupied_world : @World wire :=
  mkWorld (list_to_map [(["R"], NDir); (["R"; "logs"], NDir);
                        (["R"; "logs"; "a.txt"], NDir)]) [] 0.

Lemma downloadFile_reports_what_is_in_its_way_witness :
  (let r := downloadFile [] byte_transport "tok" "logs/a.txt" "R" blocked_world in
   (∃ e, r.1 = Ret (Some ("failed to create directory: " +:+ e)))
   ∧ trace r.2 = [EvMkdirAll "R/logs"])
  ∧ (let r := downloadFile [] byte_transport "tok" "logs/a.txt" "R" occupied_world in
     (∃ e, r.1 = Ret (Some ("got error while os.Create: " +:+ e)))
     ∧ fs r.2 !! ["R"; "logs"; "a.txt"] = Some NDir).
Proof.
  split.
  - destruct (downloadFile_reports_what_is_in_its_way [] byte_transport "tok" "R"
                ["logs"; "a.txt"] blocked_world) as [Hblocked _].
    + repeat constructor; done.
    + done.
    + destruct (Hblocked ["R"; "logs"] [] ltac:(done) ltac:(by exists [])
                  ltac:(reflexivity)) as (He & Htrace & _).
      split; [exact He | exact Htrace].
  - destruct (downloadFile_reports_what_is_in_its_way [] byte_transport "tok" "R"
                ["logs"; "a.txt"] occupied_world) as [_ Hoccupied].
    + repeat constructor; done.
    + done.
    + destruct (Hoccupied (mkBody [WChar "!"%char] false)) as (He & _ & Hdir).
      * intros k c Hk. destruct Hk as [rest Hk].
        destruct k as [| a [| b [| ? ?]]]; simpl in Hk; try done.
        -- injection Hk as <- _. by vm_compute.
        -- injection Hk as <- <- _. by vm_compute.
      * reflexivity.
      * reflexivity.
      * split; [exact He | exact Hdir].
Defined.

(** With an empty run identifier, [R] itself goes, with the file that
    was there before. *)
Lemma relocateContents_with_an_empty_run_identifier_removes_the_root_witness :
  let w' := (relocateContents [] "R" "" relocate_world).2 in
  fs w' !! ["R"] = None
  ∧ fs w' !! ["R"; "existing.txt"] = None
  ∧ trace w' = [EvStat "R"; EvCopy "R" "R"; EvRemoveAll "R"].
Proof.
  destruct (relocateContents_with_an_empty_run_identifier_removes_the_root [] "R"
              relocate_world) as (_ & Htrace & Hgone).
  - done.
  - by vm_compute; eexists.
  - by vm_compute.
  - by vm_compute.
  - split; [by apply Hgone |]. split; [| exact Htrace].
    apply Hgone. by exists ["existing.txt"].
Defined.

(** The walk of the ghost run is over and its download goroutine has not
    started. *)
Definition ghost_waiting : @GState wire :=
  mkG ghost_world PcWait [("", TAcquire)] 0 1 false SinkReceive.

Lemma ghost_walked : rtc ghost_step (initial empty_world) (Running ghost_waiting).
Proof.
  unfold ghost_step, initial.
  eapply rtc_l; [eapply step_roots; settle | tidy].
  eapply rtc_l; [eapply step_list; settle | tidy].
  eapply rtc_l; [eapply step_go; settle | tidy].
  eapply rtc_l; [eapply step_walked; settle | tidy].
  apply rtc_refl.
Qed.

(** From there the run can come to its end. *)
Lemma GetArtifacts_can_always_finish_witness :
  ∃ p, rtc ghost_step (Running ghost_waiting) p
       ∧ ((∃ w, p = Crashed w)
          ∨ ∃ s', p = Running s' ∧ g_main s' = PcReturn ∧ all_done (g_tasks s')).
Proof.
  exact (GetArtifacts_can_always_finish [] wire_listing wire_doc wire_marshal
           ghost_transport "tok" "run123" "R" empty_world ghost_waiting
           ghost_walked eq_refl).
Defined.

(** The destination [R] beside a file of the user. *)
Definition neighbour_world : @World wire :=
  mkWorld (<[["home.txt"] := NFile [WChar "h"%char]]> relocate_fs) [] 0.

(** The reconciliation of [R] leaves [home.txt] alone. *)
Lemma relocateContents_stays_in_its_directories_witness :
  fs (relocateContents [] "R" "run123" neighbour_world).2 !! ["home.txt"]
  = Some (NFile [WChar "h"%char]).
Proof.
  rewrite (relocateContents_stays_in_its_directories [] "R" "run123"
             neighbour_world ["home.txt"]).
  - reflexivity.
  - intros Hp. by apply prefix_cons_inv_1 in Hp.
  - intros Hp. by apply prefix_cons_inv_1 in Hp.
  - intros Hp. vm_compute in Hp. by destruct Hp.
Defined.

(** Two screenshots of the same name, in [R/a] and in [R/b]. *)
Definition twin_fs : gmap (list string) (@node wire) :=
  list_to_map
    [(["R"], NDir);
     (["R"; "a"], NDir);
     (["R"; "a"; "shot.png"], NFile [WChar "a"%char]);
     (["R"; "b"], NDir);
     (["R"; "b"; "shot.png"], NFile [WChar "b"%char])].

Definition twin_world : @World wire := mkWorld twin_fs [] 0.

Definition twin_visits : list (string * bool) :=
  match (Walk [] "R" twin_world).1 with
  | Ret (Some visits) => visits
  | _ => []
  end.

Lemma twin_fs_wf : fs_wf twin_fs.
Proof.
  apply map_Forall_to_list.
  vm_compute map_to_list.
  repeat constructor; done.
Qed.

(** The index holds [R/b/shot.png], the one the walk comes to last. *)
Lemma updateJsonPaths_indexes_the_last_file_of_each_name_witness :
  fold_left index_file twin_visits ∅ !! "shot.png" = Some "R/b/shot.png"
  ∧ ∃ rel' c',
      fold_left index_file twin_visits ∅ !! "shot.png" = Some (walk_path "R" rel')
      ∧ twin_fs !! (["R"] ++ rel') = Some (NFile c')
      ∧ key_le ["a"; "shot.png"] rel'.
Proof.
  split; [by vm_compute |].
  destruct (updateJsonPaths_indexes_the_last_file_of_each_name [] "R" twin_visits
              ["a"; "shot.png"] [WChar "a"%char] twin_world)
    as (rel' & c' & Hidx & Hfile & _ & Hle & _).
  - done.
  - exact twin_fs_wf.
  - reflexivity.
  - reflexivity.
  - done.
  - reflexivity.
  - exists rel', c'. split; [exact Hidx |]. split; [exact Hfile | exact Hle].
Defined.

(** A login run whose wait for the end fails. *)
Definition lost_run : Collaborators :=
  mkCollaborators None
    (λ key, if String.eqb key "HOST" then "h"
            else if String.eqb key "ALLURE_OUTPUT" then "out" else "")
    "Jan  1 00:00:00"
    (λ _ _ _, ("t-1", None))
    (λ _ _ _ _ _ _ _, ("run-1", None))
    (λ _ _ _, ("", Some "timeout"))
    (λ _ _, ("", None))
    (λ _ _ _ _ _ _ _ _ _ _, ("", None))
    (λ _ _ _, ("", None)).

(** [main] exits with status 4, and has fetched the artifacts before. *)
Lemma main_fetches_the_artifacts_of_every_run_it_started_witness :
  (main lost_run).2 = Exited 4
  ∧ ∃ pre post,
      (main lost_run).1
      = pre ++ [MSubscribe "t-1" "run-1"; MGetArtifacts "h" "t-1" "run-1" "out"]
            ++ post
      ∧ Forall (λ e, ∃ ops, e = MPrintln ops) (pre ++ post).
Proof.
  split; [reflexivity |].
  destruct (main_fetches_the_artifacts_of_every_run_it_started lost_run)
    as [Hfetch _].
  apply (Hfetch "t-1" "run-1").
  - vm_compute. apply list_elem_of_further, list_elem_of_here.
  - done.
Defined.

(** The one file of the run that [small_transport] serves. *)
Definition small_files : list (@remote_file wire) :=
  [(["bill.txt"], [WChar "7"%char])].

Lemma small_files_served :
  serves_files wire_listing small_transport "tok" "run123" small_files.
Proof.
  split; [done |]. split; [| split; [| split]].
  - intros fd ->%list_elem_of_singleton. split; [| done].
    by constructor.
  - by intros fd fd' ->%list_elem_of_singleton ->%list_elem_of_singleton _.
  - by intros fd n ->%list_elem_of_singleton.
  - intros n folderID data f. unfold small_transport, ok_response.
    repeat case_match; intros [= <-]; cbn [wire_listing fst snd]; try done.
    + intros _ Hf Hfile. exfalso.
      unfold root_listing in Hf.
      repeat (apply elem_of_cons in Hf as [-> | Hf]; [done |]).
      by apply elem_of_nil in Hf.
    + intros _ ->%list_elem_of_singleton _.
      exists (["bill.txt"], [WChar "7"%char]).
      split; [apply list_elem_of_here | reflexivity].
    + by intros _ Hf%elem_of_nil.
Qed.

(** The main goroutine is about to call [relocateContents]. *)
Definition run_closed : @GState wire :=
  mkG run_downloaded_world PcRelocate [("run123/bill.txt", TDone)] 0 0 true
      SinkReceive.

Lemma run_reaches_closed :
  rtc run_step (initial empty_world) (Running run_closed).
Proof.
  etrans; [apply run_reaches_downloading |].
  unfold run_step, run_downloading, run_rest.
  do 6 (eapply rtc_l; [eapply step_list; settle | tidy]).
  eapply rtc_l; [eapply step_walked; settle | tidy].
  eapply rtc_l;
    [eapply (step_download _ _ _ _ _ _ _ _ _ 0 _ None run_downloaded_world); settle
    | tidy].
  eapply rtc_l; [eapply (step_release _ _ _ _ _ _ _ _ _ 0); settle | tidy].
  eapply rtc_l; [eapply (step_finish _ _ _ _ _ _ _ _ _ 0); settle | tidy].
  eapply rtc_l; [eapply step_wait; settle | tidy].
  eapply rtc_l; [eapply step_close; settle | tidy].
  apply rtc_refl.
Qed.

(** In [run_closed] the file of the run is in the run directory, and it
    is the only regular file below [R]. *)
Lemma every_file_is_on_disk_when_reconciliation_starts_witness :
  fs (g_world run_closed) !! ["R"; "run123"; "bill.txt"]
  = Some (NFile [WChar "7"%char])
  ∧ ∀ k c, fs (g_world run_closed) !! k = Some (NFile c) →
           ["R"] `prefix_of` k → k = ["R"; "run123"; "bill.txt"].
Proof.
  destruct (every_file_is_on_disk_when_reconciliation_starts [] wire_listing
              wire_doc wire_marshal small_transport "tok" "run123" "R"
              small_files small_files_served empty_world run_closed)
    as [Htasks Hfiles].
  - by split.
  - exact run_reaches_closed.
  - reflexivity.
  - split.
    + destruct (Htasks 0 "run123/bill.txt" TDone eq_refl)
        as (fd & ->%list_elem_of_singleton & _ & _ & Hthere).
      exact Hthere.
    + intros k c Hthere Hk.
      by destruct (Hfiles k c Hthere Hk) as (fd & ->%list_elem_of_singleton & -> & _).
Defined.
